(** * bags.fm token-launch bot: detection and deduplication engine

    A shallow embedding of the TypeScript sources
      - [src/scraper/BagsFmScraper.ts], in the two revisions kept in the
        tree: the scraper with [getNewMigrations] and the scraper with
        [fetchMigrations] (the one [BagsFmBot] constructs and calls),
      - [src/database/DatabaseManager.ts],
      - [src/bot/BagsFmBot.ts] ([checkForNewMigrations]),
    followed by the properties of the normalizer, of the identity resolver
    and ledger store, and of the check cycle.

    Conventions of the embedding.
      - A JavaScript string is the [string] of the bytes of its UTF-8
        form: equality, emptiness, concatenation and the classes
        [a-z], [A-Z], [0-9] are then those of the JavaScript string.
        [toLowerCase] is the case mapping of the host ([JS.CaseMapping]):
        it is known on ASCII text, where it folds the letters A-Z, and
        it does not see the case of ASCII letters in any text.
      - JavaScript numbers are finite binary64 numbers, carried by the
        rationals ([Q]) they are.  The normalizer performs one product
        by 10^9, one quotient by 3600000 and comparisons; these are
        taken exact, and [Binary64] checks the sample values of the
        specification on doubles.  The texts the bot prints round as
        binary64 does ([Binary64.round]).  Time values are integers
        (milliseconds since the epoch, [Z]).
      - An optional field of an upstream record is an [option]; a field is
        used by the code only through its truthiness and its value.  A
        timestamp field is missing, unparsable, or a time value.
      - A method of the store is a function from worlds to worlds (the
        state in memory, the disk, the clock) that ends by returning or by
        throwing; what it assigned before a throw stays assigned.  The
        state in memory is whatever [JSON.parse] returned for the file,
        a [DatabaseData] or not. *)

From Stdlib Require Import List String Ascii Bool Arith ZArith QArith Lia.
From Stdlib Require Import Permutation Sorted RelationClasses Floats.
From Stdlib Require Import Qround Qabs Qpower Lqa.
Import ListNotations.

Set Implicit Arguments.

(* ------------------------------------------------------------------ *)
(** ** JavaScript values used by the sources                           *)
(* ------------------------------------------------------------------ *)

Module JS.

(** [A-Z] *)
Definition isUpper (c : ascii) : bool :=
  let n := nat_of_ascii c in (65 <=? n)%nat && (n <=? 90)%nat.

(** [a-z] *)
Definition isLower (c : ascii) : bool :=
  let n := nat_of_ascii c in (97 <=? n)%nat && (n <=? 122)%nat.

(** [0-9] *)
Definition isDigit (c : ascii) : bool :=
  let n := nat_of_ascii c in (48 <=? n)%nat && (n <=? 57)%nat.

Definition lowerChar (c : ascii) : ascii :=
  if isUpper c then ascii_of_nat (nat_of_ascii c + 32) else c.

(** The letters A-Z put in lower case, every other character kept. *)
Fixpoint lowerAscii (s : string) : string :=
  match s with
  | EmptyString => EmptyString
  | String c s' => String (lowerChar c) (lowerAscii s')
  end.

(** The text holds ASCII characters only. *)
Fixpoint isAscii (s : string) : bool :=
  match s with
  | EmptyString => true
  | String c s' => (nat_of_ascii c <? 128)%nat && isAscii s'
  end.

(** [String.prototype.toLowerCase] is the host's: the Unicode lower-case
    mapping, which the sources do not contain.  Two facts of it are
    used.  It does not depend on the case of the ASCII letters of its
    argument (the mapping of a character depends on its neighbours only
    through their being cased letters or not).  On a text of ASCII
    characters it puts the letters A-Z in lower case and keeps the
    rest. *)
Class CaseMapping := {
  toLowerCase : string -> string;
  toLowerCase_lowerAscii : forall s, toLowerCase (lowerAscii s) = toLowerCase s;
  toLowerCase_ascii : forall s, isAscii s = true -> toLowerCase s = lowerAscii s
}.

Lemma lowerChar_idempotent c : lowerChar (lowerChar c) = lowerChar c.
Proof.
  unfold lowerChar. destruct (isUpper c) eqn:Hu; [|now rewrite Hu].
  assert (Hn : isUpper (ascii_of_nat (nat_of_ascii c + 32)) = false).
  { unfold isUpper in *. apply andb_true_iff in Hu as [H1 H2].
    apply Nat.leb_le in H1, H2.
    rewrite nat_ascii_embedding by lia.
    apply andb_false_iff. right. apply Nat.leb_gt. lia. }
  now rewrite Hn.
Qed.

Lemma lowerAscii_idempotent s : lowerAscii (lowerAscii s) = lowerAscii s.
Proof.
  induction s as [|c s IH]; simpl; [reflexivity|].
  now rewrite lowerChar_idempotent, IH.
Qed.

(** The mapping that folds the letters A-Z and nothing else: a host's
    [toLowerCase] on texts whose other characters have no case. *)
Definition asciiFolding : CaseMapping :=
  Build_CaseMapping lowerAscii lowerAscii_idempotent (fun s _ => eq_refl).

(** The second byte of a capital letter of the Latin-1 supplement in
    UTF-8 (U+00C0 to U+00DE without U+00D7, after the byte C3). *)
Definition isLatinCapital (d : ascii) : bool :=
  let n := nat_of_ascii d in
  (128 <=? n)%nat && (n <=? 158)%nat && negb (n =? 151)%nat.

(** Lower case on ASCII and on the Latin-1 supplement: A-Z, and the
    two-byte letters U+00C0..U+00DE. *)
Fixpoint latinLower (s : string) : string :=
  match s with
  | EmptyString => EmptyString
  | String c s' =>
      if (nat_of_ascii c =? 195)%nat then
        match s' with
        | String d s'' =>
            if isLatinCapital d
            then String c (String (ascii_of_nat (nat_of_ascii d + 32))
                                  (latinLower s''))
            else String c (latinLower s')
        | EmptyString => String c EmptyString
        end
      else String (lowerChar c) (latinLower s')
  end.

Lemma lowerChar_high c : (128 <= nat_of_ascii c)%nat -> lowerChar c = c.
Proof.
  intros H. unfold lowerChar, isUpper.
  replace (nat_of_ascii c <=? 90)%nat with false
    by (symmetry; apply Nat.leb_gt; lia).
  now rewrite andb_false_r.
Qed.

Lemma lowerChar_195 c :
  (nat_of_ascii (lowerChar c) =? 195)%nat = (nat_of_ascii c =? 195)%nat.
Proof.
  unfold lowerChar. destruct (isUpper c) eqn:Hu; [|reflexivity].
  unfold isUpper in Hu. apply andb_true_iff in Hu as [H1 H2].
  apply Nat.leb_le in H1, H2. rewrite nat_ascii_embedding by lia.
  transitivity false; [|symmetry]; apply Nat.eqb_neq; lia.
Qed.

Lemma isLatinCapital_high d : isLatinCapital d = true -> lowerChar d = d.
Proof.
  unfold isLatinCapital. intros H.
  apply andb_true_iff in H as [H _]. apply andb_true_iff in H as [H _].
  apply Nat.leb_le in H. now apply lowerChar_high.
Qed.

Lemma isLatinCapital_lowerChar d :
  isLatinCapital (lowerChar d) = isLatinCapital d.
Proof.
  unfold lowerChar. destruct (isUpper d) eqn:Hu; [|reflexivity].
  unfold isUpper in Hu. apply andb_true_iff in Hu as [H1 H2].
  apply Nat.leb_le in H1, H2. unfold isLatinCapital.
  rewrite nat_ascii_embedding by lia.
  replace (128 <=? nat_of_ascii d + 32)%nat with false
    by (symmetry; apply Nat.leb_gt; lia).
  replace (128 <=? nat_of_ascii d)%nat with false
    by (symmetry; apply Nat.leb_gt; lia).
  reflexivity.
Qed.

Lemma latinLower_lowerAscii_aux n :
  forall s, (String.length s <= n)%nat -> latinLower (lowerAscii s) = latinLower s.
Proof.
  induction n as [|n IH]; intros s Hlen.
  - destruct s; [reflexivity | simpl in Hlen; lia].
  - destruct s as [|c s]; [reflexivity|]. simpl in Hlen.
    cbn [lowerAscii latinLower]. rewrite lowerChar_195.
    destruct (nat_of_ascii c =? 195)%nat eqn:Hc.
    + apply Nat.eqb_eq in Hc.
      assert (Hcc : lowerChar c = c) by (apply lowerChar_high; lia).
      rewrite Hcc.
      destruct s as [|d s]; [reflexivity|].
      change (lowerAscii (String d s)) with (String (lowerChar d) (lowerAscii s)).
      cbv beta iota. rewrite isLatinCapital_lowerChar.
      destruct (isLatinCapital d) eqn:Hd.
      * rewrite (isLatinCapital_high _ Hd). simpl in Hlen.
        now rewrite IH by lia.
      * change (String (lowerChar d) (lowerAscii s)) with (lowerAscii (String d s)).
        now rewrite IH by lia.
    + rewrite lowerChar_idempotent. now rewrite IH by lia.
Qed.

Lemma latinLower_lowerAscii s : latinLower (lowerAscii s) = latinLower s.
Proof. now apply (latinLower_lowerAscii_aux (n := String.length s)). Qed.

Lemma latinLower_ascii s : isAscii s = true -> latinLower s = lowerAscii s.
Proof.
  induction s as [|c s IH]; [reflexivity|]. cbn [isAscii latinLower lowerAscii].
  intros H. apply andb_true_iff in H as [Hc Hs]. apply Nat.ltb_lt in Hc.
  replace (nat_of_ascii c =? 195)%nat with false
    by (symmetry; apply Nat.eqb_neq; lia).
  now rewrite IH.
Qed.

(** The mapping that folds A-Z and the capital letters of the Latin-1
    supplement: a host's [toLowerCase] on Western European text. *)
Definition latin1Folding : CaseMapping :=
  Build_CaseMapping latinLower latinLower_lowerAscii latinLower_ascii.

(** [s.replace(/[^a-zA-Z0-9]/g, '')] *)
Fixpoint stripNonAlnum (s : string) : string :=
  match s with
  | EmptyString => EmptyString
  | String c s' =>
      if isUpper c || isLower c || isDigit c
      then String c (stripNonAlnum s')
      else stripNonAlnum s'
  end.

(** Truthiness of an optional string field: [undefined] and [''] are
    falsy. *)
Definition truthyStr (s : option string) : bool :=
  match s with
  | Some EmptyString | None => false
  | Some _ => true
  end.

(** Truthiness of an optional number field: [undefined] and [0] are
    falsy. *)
Definition truthyNum (x : option Q) : bool :=
  match x with
  | Some q => negb (Qeq_bool q 0)
  | None => false
  end.

(** Truthiness of an optional boolean field. *)
Definition truthyBool (b : option bool) : bool :=
  match b with
  | Some true => true
  | _ => false
  end.

(** A template literal prints a missing value as [undefined]. *)
Definition interpolate (s : option string) : string :=
  match s with
  | Some v => v
  | None => "undefined"%string
  end.

(** [a || b] on optional strings *)
Definition orStr (a : option string) (b : string) : string :=
  match a with
  | Some EmptyString | None => b
  | Some v => v
  end.

(** [a || b] on optional numbers *)
Definition orNum (a b : option Q) : option Q :=
  if truthyNum a then a else b.

(** A [Date] object: [None] is the Invalid Date, [Some t] carries the
    time value [t] in milliseconds. *)
Definition Date := option Z.

(** A timestamp field of an upstream record, as far as the code can
    observe it: missing (or empty), a text [new Date] cannot parse, or a
    text that parses to a time value. *)
Inductive TimeField :=
| NoTime
| BadTime
| Time (ms : Z).

Definition truthyTime (f : TimeField) : bool :=
  match f with
  | NoTime => false
  | _ => true
  end.

(** [new Date(field)] for a truthy field *)
Definition newDate (f : TimeField) : Date :=
  match f with
  | Time ms => Some ms
  | _ => None
  end.

(** [a > b] on dates: false as soon as one side is invalid (NaN). *)
Definition dateGt (a b : Date) : bool :=
  match a, b with
  | Some x, Some y => (y <? x)%Z
  | _, _ => false
  end.

End JS.

(* ------------------------------------------------------------------ *)
(** ** Data model ([src/types/index.ts] and the scraper's interfaces)   *)
(* ------------------------------------------------------------------ *)

Module BondingCurve.
Record t := mk {
  completed : bool;
  progress : Q;
  completedAt : JS.TimeField;
  totalRaised : option Q
}.
End BondingCurve.

Module BagsApiToken.
Record t := mk {
  tokenAddress : option string;
  name : option string;
  symbol : option string;
  description : option string;
  image : option string;
  createdAt : JS.TimeField;
  migratedAt : JS.TimeField;
  launchedAt : JS.TimeField;
  bondingCompletedAt : JS.TimeField;
  completedAt : JS.TimeField;
  marketCap : option Q;
  price : option Q;
  volume24h : option Q;
  totalRaised : option Q;
  fundingGoal : option Q;
  bondingCurve : option BondingCurve.t;
  creator : option string;
  website : option string;
  twitter : option string;
  telegram : option string;
  migrated : option bool;
  launched : option bool
}.
End BagsApiToken.

Module MigratedToken.
(** [migrationDate] is a time value: both normalizers print
    [migrationDate.toISOString()] before they build the token, which
    throws on the Invalid Date, so a token never carries one.
    [createdAt] may be the Invalid Date. *)
Record t := mk {
  id : string;
  name : string;
  symbol : string;
  contractAddress : option string;
  migrationDate : Z;
  fromChain : option string;
  toChain : option string;
  marketCap : option Q;
  price : option Q;
  volume24h : option Q;
  url : option string;
  description : option string;
  image : option string;
  creator : option string;
  website : option string;
  twitter : option string;
  telegram : option string;
  bondingProgress : option Q;
  bondingCompleted : option bool;
  bondingDuration : option Q;
  totalRaised : option Q;
  createdAt : option JS.Date
}.
End MigratedToken.

(* ------------------------------------------------------------------ *)
(** ** The record normalizer ([BagsFmScraper.parseTokenLaunches])       *)
(* ------------------------------------------------------------------ *)

Module Scraper.
Import JS.

(** What one turn of the [for (const token of tokenList)] loop does. *)
Inductive Outcome :=
| Skipped                        (* [continue] *)
| Failed                         (* the [catch] of the loop body *)
| Parsed (m : MigratedToken.t).  (* [tokens.push(migration)] *)

Inductive DateSource :=
| FromCurrent
| FromBondingCurveCompletedAt
| FromMigratedAt
| FromLaunchedAt
| FromBondingCompletedAt
| FromCompletedAt
| FromCreatedAt.

(** ASSUMED_SUPPLY: "Most meme tokens have 1B supply" *)
Definition ASSUMED_SUPPLY : Q := 1000000000.

Definition MCAP_THRESHOLD : Q := 100000.

Definition MS_PER_HOUR : Q := 3600000.

(** The code shared, line for line, by the two revisions. *)
Section Common.
Variable token : BagsApiToken.t.

(** [let marketCap = token.marketCap;
     if (!marketCap && token.price) marketCap = token.price * 1000000000;] *)
Definition deriveMarketCap : option Q :=
  let marketCap := BagsApiToken.marketCap token in
  if negb (truthyNum marketCap) && truthyNum (BagsApiToken.price token)
  then match BagsApiToken.price token with
       | Some p => Some (p * ASSUMED_SUPPLY)
       | None => marketCap
       end
  else marketCap.

(** [token.bondingCurve?.completedAt] *)
Definition curveCompletedAt : TimeField :=
  match BagsApiToken.bondingCurve token with
  | Some bc => BondingCurve.completedAt bc
  | None => NoTime
  end.

(** [let createdDate = new Date();
     if (token.createdAt) createdDate = new Date(token.createdAt);] *)
Definition resolveCreatedDate (nowC : Z) : Date :=
  if truthyTime (BagsApiToken.createdAt token)
  then newDate (BagsApiToken.createdAt token)
  else Some nowC.

(** The [if / else if] chain that picks [migrationDate] and
    [dateSource]. *)
Definition resolveMigrationDate (nowM : Z) : Date * DateSource :=
  if truthyTime curveCompletedAt then
    (newDate curveCompletedAt, FromBondingCurveCompletedAt)
  else if truthyTime (BagsApiToken.migratedAt token) then
    (newDate (BagsApiToken.migratedAt token), FromMigratedAt)
  else if truthyTime (BagsApiToken.launchedAt token) then
    (newDate (BagsApiToken.launchedAt token), FromLaunchedAt)
  else if truthyTime (BagsApiToken.bondingCompletedAt token) then
    (newDate (BagsApiToken.bondingCompletedAt token), FromBondingCompletedAt)
  else if truthyTime (BagsApiToken.completedAt token) then
    (newDate (BagsApiToken.completedAt token), FromCompletedAt)
  else if truthyTime (BagsApiToken.createdAt token) then
    (newDate (BagsApiToken.createdAt token), FromCreatedAt)
  else (Some nowM, FromCurrent).

(** [if (createdDate && migrationDate && migrationDate > createdDate)
       bondingDuration = (migrationDate.getTime() - createdDate.getTime())
                         / (1000 * 60 * 60);] *)
Definition computeBondingDuration (migrationDate createdDate : Date)
  : option Q :=
  if dateGt migrationDate createdDate then
    match migrationDate, createdDate with
    | Some m, Some c => Some (inject_Z (m - c) / MS_PER_HOUR)
    | _, _ => None
    end
  else None.

(** [token.totalRaised || token.bondingCurve?.totalRaised] *)
Definition resolveTotalRaised : option Q :=
  orNum (BagsApiToken.totalRaised token)
        (match BagsApiToken.bondingCurve token with
         | Some bc => BondingCurve.totalRaised bc
         | None => None
         end).

(** [`https://bags.fm/token/${token.tokenAddress}`] *)
Definition tokenUrl : string :=
  ("https://bags.fm/token/" ++ interpolate (BagsApiToken.tokenAddress token))%string.

End Common.

(** *** Revision with the qualification filter ([getNewMigrations]) *)
Module GetNewMigrations.

(** [token.bondingCurve?.completed || token.migrated || token.migratedAt
     || token.bondingCompletedAt || token.completedAt], as a truth
    value. *)
Definition hasCompletedBonding (token : BagsApiToken.t) : bool :=
  match BagsApiToken.bondingCurve token with
  | Some bc => BondingCurve.completed bc
  | None => false
  end
  || truthyBool (BagsApiToken.migrated token)
  || truthyTime (BagsApiToken.migratedAt token)
  || truthyTime (BagsApiToken.bondingCompletedAt token)
  || truthyTime (BagsApiToken.completedAt token).

(** [marketCap && marketCap >= 100000] *)
Definition hasCrossed100kMcap (marketCap : option Q) : bool :=
  truthyNum marketCap &&
  match marketCap with
  | Some m => Qle_bool MCAP_THRESHOLD m
  | None => false
  end.

(** [token.tokenAddress ||
     `token-${token.symbol}-${token.name}`.replace(/[^a-zA-Z0-9]/g, '')] *)
Definition tokenId (token : BagsApiToken.t) : string :=
  if truthyStr (BagsApiToken.tokenAddress token)
  then interpolate (BagsApiToken.tokenAddress token)
  else stripNonAlnum
         ("token-" ++ interpolate (BagsApiToken.symbol token)
                   ++ "-" ++ interpolate (BagsApiToken.name token))%string.

(** Lines 149-209: the body of the loop after the filter.  [None] is
    the [RangeError] of [migrationDate.toISOString()]. *)
Definition buildMigration (nowM nowC : Z) (token : BagsApiToken.t)
  : option MigratedToken.t :=
  let marketCap := deriveMarketCap token in
  let createdDate := resolveCreatedDate token nowC in
  let migrationDate := fst (resolveMigrationDate token nowM) in
  let bondingDuration := computeBondingDuration migrationDate createdDate in
  match migrationDate with
  | None => None
  | Some m =>
      Some {|
        MigratedToken.id := tokenId token;
        MigratedToken.name := orStr (BagsApiToken.name token) "Unknown Token";
        MigratedToken.symbol := orStr (BagsApiToken.symbol token) "UNKNOWN";
        MigratedToken.contractAddress := BagsApiToken.tokenAddress token;
        MigratedToken.migrationDate := m;
        MigratedToken.createdAt := Some createdDate;
        MigratedToken.fromChain := Some "Solana"%string;
        MigratedToken.toChain :=
          Some (if hasCrossed100kMcap marketCap
                then "Bags.fm 100k+ Launch" else "Bags.fm Launch")%string;
        MigratedToken.marketCap := marketCap;
        MigratedToken.price := BagsApiToken.price token;
        MigratedToken.volume24h := BagsApiToken.volume24h token;
        MigratedToken.totalRaised := resolveTotalRaised token;
        MigratedToken.bondingDuration := bondingDuration;
        MigratedToken.url := Some (tokenUrl token);
        MigratedToken.image := BagsApiToken.image token;
        MigratedToken.bondingCompleted := Some (hasCompletedBonding token);
        MigratedToken.description := None;
        MigratedToken.creator := None;
        MigratedToken.website := None;
        MigratedToken.twitter := None;
        MigratedToken.telegram := None;
        MigratedToken.bondingProgress := None
      |}
  end.

(** One turn of the loop, lines 117-214. *)
Definition parseToken (nowM nowC : Z) (token : BagsApiToken.t) : Outcome :=
  let marketCap := deriveMarketCap token in
  if negb (hasCompletedBonding token) && negb (hasCrossed100kMcap marketCap)
  then Skipped
  else match buildMigration nowM nowC token with
       | Some migration => Parsed migration
       | None => Failed
       end.

(** The loop; [clock n] is the [n]-th reading of [new Date()].  A
    skipped record reads no clock, the others read it twice. *)
Fixpoint parseLoop (clock : nat -> Z) (n : nat)
         (tokenList : list BagsApiToken.t) : list MigratedToken.t :=
  match tokenList with
  | [] => []
  | token :: rest =>
      match parseToken (clock n) (clock (S n)) token with
      | Skipped => parseLoop clock n rest
      | Failed => parseLoop clock (S (S n)) rest
      | Parsed migration => migration :: parseLoop clock (S (S n)) rest
      end
  end.

Definition parseTokenLaunches (clock : nat -> Z)
           (tokenList : list BagsApiToken.t) : list MigratedToken.t :=
  parseLoop clock 0 tokenList.

End GetNewMigrations.

(** *** Revision called by the bot ([fetchMigrations]) *)
Module FetchMigrations.

(** The response body handed to [parseTokenLaunches(data: any)]. *)
Inductive ApiData :=
| BareArray (tokens : list BagsApiToken.t)
| Envelope (success : bool)
           (response tokens data : option (list BagsApiToken.t)).

(** The envelope shapes, lines 304-315; [None] is the
    "Unexpected API response structure" exit. *)
Definition tokenListOf (d : ApiData) : option (list BagsApiToken.t) :=
  match d with
  | BareArray l => Some l
  | Envelope success response tokens data =>
      match success, response with
      | true, Some l => Some l
      | _, _ =>
          match tokens with
          | Some l => Some l
          | None => data
          end
      end
  end.

(** [token.tokenAddress || `token-${Date.now()}-${Math.random()}`];
    [stamp] is the text of [`${Date.now()}-${Math.random()}`] drawn for
    this record. *)
Definition tokenId (stamp : string) (token : BagsApiToken.t) : string :=
  if truthyStr (BagsApiToken.tokenAddress token)
  then interpolate (BagsApiToken.tokenAddress token)
  else ("token-" ++ stamp)%string.

(** One turn of the loop, lines 325-407: no filter. *)
Definition parseToken (nowM nowC : Z) (stamp : string)
           (token : BagsApiToken.t) : Outcome :=
  let marketCap := deriveMarketCap token in
  let createdDate := resolveCreatedDate token nowC in
  let migrationDate := fst (resolveMigrationDate token nowM) in
  let bondingDuration := computeBondingDuration migrationDate createdDate in
  match migrationDate with
  | None => Failed
  | Some m =>
      Parsed {|
        MigratedToken.id := tokenId stamp token;
        MigratedToken.name := orStr (BagsApiToken.name token) "Unknown Token";
        MigratedToken.symbol := orStr (BagsApiToken.symbol token) "UNKNOWN";
        MigratedToken.contractAddress := BagsApiToken.tokenAddress token;
        MigratedToken.migrationDate := m;
        MigratedToken.createdAt := Some createdDate;
        MigratedToken.fromChain := Some "Solana"%string;
        MigratedToken.toChain := Some "Bags.fm Launch"%string;
        MigratedToken.marketCap := marketCap;
        MigratedToken.price := BagsApiToken.price token;
        MigratedToken.volume24h := BagsApiToken.volume24h token;
        MigratedToken.totalRaised := resolveTotalRaised token;
        MigratedToken.bondingDuration := bondingDuration;
        MigratedToken.url := Some (tokenUrl token);
        MigratedToken.image := BagsApiToken.image token;
        MigratedToken.bondingCompleted := None;
        MigratedToken.description := None;
        MigratedToken.creator := None;
        MigratedToken.website := None;
        MigratedToken.twitter := None;
        MigratedToken.telegram := None;
        MigratedToken.bondingProgress := None
      |}
  end.

(** The loop; the [i]-th record reads the clock at [2i] and [2i+1] and
    draws the stamp [entropy i]. *)
Fixpoint parseLoop (clock : nat -> Z) (entropy : nat -> string) (i : nat)
         (tokenList : list BagsApiToken.t) : list MigratedToken.t :=
  match tokenList with
  | [] => []
  | token :: rest =>
      match parseToken (clock (2 * i)%nat) (clock (S (2 * i))) (entropy i) token with
      | Parsed migration => migration :: parseLoop clock entropy (S i) rest
      | _ => parseLoop clock entropy (S i) rest
      end
  end.

Definition parseTokenLaunches (clock : nat -> Z) (entropy : nat -> string)
           (data : ApiData) : list MigratedToken.t :=
  match tokenListOf data with
  | Some tokenList => parseLoop clock entropy 0 tokenList
  | None => []
  end.

End FetchMigrations.

End Scraper.

(* ------------------------------------------------------------------ *)
(** ** The same arithmetic on IEEE 754 doubles                          *)
(* ------------------------------------------------------------------ *)

(** JavaScript computes on binary64 numbers.  The module holds the
    three numeric expressions of the normalizer on [float], used to
    check that, at the sample values of the specification, the doubles
    give the very numbers the rationals give; and, on rationals, the
    rounding every binary64 operation ends with, which the texts printed
    by the bot depend on. *)
Module Binary64.
Local Open Scope float_scope.

(** [token.price * 1000000000] *)
Definition derivedMarketCap (price : float) : float := price * 1000000000.

(** [marketCap >= 100000] *)
Definition crossesThreshold (marketCap : float) : bool := 100000 <=? marketCap.

(** [(migrationDate.getTime() - createdDate.getTime()) / (1000 * 60 * 60)] *)
Definition hoursBetween (migrationMs createdMs : float) : float :=
  (migrationMs - createdMs) / (1000 * 60 * 60).

Local Close Scope float_scope.
Local Open Scope Q_scope.

(** The number a finite [float] is. *)
Definition valueOf (f : float) : option Q :=
  match Prim2SF f with
  | S754_zero _ => Some 0
  | S754_finite s m e =>
      Some ((if s then -1 else 1) * inject_Z (Zpos m) * 2 ^ e)
  | _ => None
  end.

(** 2^k *)
Definition pow2 (k : Z) : Q := 2 ^ k.

(** The exponent of the binade of [x > 0]: the [k] with
    [2^k <= x < 2^(k+1)]. *)
Definition ilog2 (x : Q) : Z :=
  let k := (Z.log2 (Qnum x) - Z.log2 (Zpos (Qden x)))%Z in
  if Qle_bool (pow2 k) x then k else (k - 1)%Z.

(** The exponent of the spacing of the binary64 numbers around [x > 0]:
    53 significant bits, and the spacing 2^-1074 of the subnormals at
    the bottom. *)
Definition ulpExp (x : Q) : Z := Z.max (ilog2 x - 52) (-1074).

(** The nearest integer, the even one on a tie. *)
Definition nearestEven (x : Q) : Z :=
  let f := Qfloor x in
  match Qcompare (x - inject_Z f) (1 # 2) with
  | Lt => f
  | Gt => (f + 1)%Z
  | Eq => if Z.even f then f else (f + 1)%Z
  end.

Definition roundPos (x : Q) : Q :=
  inject_Z (nearestEven (x / pow2 (ulpExp x))) * pow2 (ulpExp x).

(** Round to nearest, ties to even: the binary64 number an arithmetic
    operation returns when its exact result is [x] (below the overflow
    threshold, which the amounts and durations printed stay under). *)
Definition round (x : Q) : Q :=
  match Qcompare x 0 with
  | Eq => 0
  | Gt => roundPos x
  | Lt => - roundPos (- x)
  end.

(** The float [f] is the rounding of [x]. *)
Definition isRounded (f : float) (x : Q) : bool :=
  match valueOf f with
  | Some v => Qeq_bool v (round x)
  | None => false
  end.

End Binary64.

(* ------------------------------------------------------------------ *)
(** ** The ledger store ([DatabaseManager])                             *)
(* ------------------------------------------------------------------ *)

Module DatabaseManager.
Import JS.

(** [interface DatabaseData] *)
Record DatabaseData := mkData {
  migrations : list MigratedToken.t;
  lastUpdated : Z
}.

(** The [migrations] member of an object that holds no array there. *)
Inductive Stray :=
| Nullish   (* missing or [null]: reading its [length] throws *)
| Scalar.   (* a number, a string, a boolean, an object: [length] is
               read, the array methods are missing *)

(** What [this.data] holds.  The source types it [DatabaseData], and the
    constructor and [clearDatabase] assign one; [initialize] assigns
    whatever [JSON.parse] returns for the file.  Of a value that is no
    [DatabaseData] the methods see whether it is an object and what its
    [migrations] member is. *)
Inductive Held :=
| NotAnObject            (* [null], [true], [1], ["text"] *)
| NoLedger (m : Stray)   (* an object or an array without a [migrations] array *)
| Ledger (d : DatabaseData).

(** What [JSON.parse] makes of the text [fs.readFile] returns: it
    throws (the text is no JSON: garbage, empty, cut short), or it
    returns a value (dates come back as ISO strings, which the store
    feeds to [new Date] again). *)
Inductive FileContent :=
| Unparsable
| Snapshot (h : Held).

(** How a write that is not allowed fails.  [fs.writeFile] opens the
    file, which truncates it, writes, and closes. *)
Inductive WriteFailure :=
| AtOpen      (* the open fails (read-only, no permission): the file
                 is untouched *)
| AfterOpen   (* the write fails after the open (disk full, I/O error):
                 the file is left empty or cut short *)
| AtClose.    (* the text is written and the close fails: the file
                 holds the new text *)

(** The part of the file system the store touches.  [file = None]: the
    file is missing or unreadable. *)
Record FileSystem := mkFs {
  dirExists : bool;
  mkdirAllowed : bool;
  file : option FileContent;
  writeAllowed : bool;
  writeFailure : WriteFailure
}.

(** The store object with its environment: [this.data], the disk, and
    the clock ([clock n] is the [n]-th reading of [new Date()]). *)
Record World := mkWorld {
  data : Held;
  disk : FileSystem;
  clock : nat -> Z;
  reads : nat
}.

(** How a method call ends. *)
Inductive Completion (A : Type) :=
| Returned (a : A)
| Thrown.
Arguments Thrown {A}.

(** A method: it always leaves a world behind, also when it throws
    (assignments made before the [throw] stay). *)
Definition Op (A : Type) := World -> World * Completion A.

Definition ret {A} (a : A) : Op A := fun w => (w, Returned a).

Definition throw {A} : Op A := fun w => (w, Thrown).

Definition bind {A B} (c : Op A) (k : A -> Op B) : Op B :=
  fun w =>
    match c w with
    | (w', Returned a) => k a w'
    | (w', Thrown) => (w', Thrown)
    end.

(** [try { c } catch { handler }] *)
Definition tryCatch {A} (c handler : Op A) : Op A :=
  fun w =>
    match c w with
    | (w', Returned a) => (w', Returned a)
    | (w', Thrown) => handler w'
    end.

Declare Scope op_scope.
Delimit Scope op_scope with op.
Notation "x <- c ;; k" := (bind c (fun x => k))
  (at level 100, c at next level, right associativity) : op_scope.
Notation "c ;;; k" := (bind c (fun _ => k))
  (at level 100, right associativity) : op_scope.
Local Open Scope op_scope.

(** [new Date()] *)
Definition now : Op Z :=
  fun w => (mkWorld (data w) (disk w) (clock w) (S (reads w)),
            Returned (clock w (reads w))).

Definition getData : Op Held := fun w => (w, Returned (data w)).

(** [this.data = h] *)
Definition setData (h : Held) : Op unit :=
  fun w => (mkWorld h (disk w) (clock w) (reads w), Returned tt).

(** Reading [this.data.migrations.length]: a TypeError when [this.data]
    is [null] or [this.data.migrations] is missing or [null]. *)
Definition readLength : Op unit :=
  fun w =>
    match data w with
    | Ledger _ | NoLedger Scalar => (w, Returned tt)
    | NoLedger Nullish | NotAnObject => (w, Thrown)
    end.

(** [this.data.migrations] as the receiver of an array method ([some],
    [filter], [slice(...).map]): a TypeError unless it is an array. *)
Definition getMigrations : Op (list MigratedToken.t) :=
  fun w =>
    match data w with
    | Ledger d => (w, Returned (migrations d))
    | _ => (w, Thrown)
    end.

(** [this.data.migrations = this.data.migrations.filter(...)] and the
    [push] and [sort] in place after it, [f] being what they make of
    the array: the [filter] throws unless there is an array. *)
Definition updateMigrations (f : list MigratedToken.t -> list MigratedToken.t)
  : Op unit :=
  fun w =>
    match data w with
    | Ledger d =>
        (mkWorld (Ledger (mkData (f (migrations d)) (lastUpdated d)))
                 (disk w) (clock w) (reads w), Returned tt)
    | _ => (w, Thrown)
    end.

(** [this.data.lastUpdated = t]: a TypeError on [null] and, the body of
    a class being strict code, on a primitive value. *)
Definition setLastUpdated (t : Z) : Op unit :=
  fun w =>
    match data w with
    | Ledger d =>
        (mkWorld (Ledger (mkData (migrations d) t))
                 (disk w) (clock w) (reads w), Returned tt)
    | NoLedger _ => (w, Returned tt)
    | NotAnObject => (w, Thrown)
    end.

(** [fs.access(dir)] *)
Definition fsAccess : Op unit :=
  fun w => if dirExists (disk w) then (w, Returned tt) else (w, Thrown).

(** [fs.mkdir(dir, { recursive: true })] *)
Definition fsMkdir : Op unit :=
  fun w =>
    if mkdirAllowed (disk w)
    then (mkWorld (data w)
                  (mkFs true true (file (disk w)) (writeAllowed (disk w))
                        (writeFailure (disk w)))
                  (clock w) (reads w), Returned tt)
    else (w, Thrown).

(** [fs.readFile(this.dbPath, 'utf-8')] *)
Definition fsReadFile : Op FileContent :=
  fun w =>
    match file (disk w) with
    | Some c => (w, Returned c)
    | None => (w, Thrown)
    end.

(** [JSON.parse(fileContent)] *)
Definition jsonParse (c : FileContent) : Op Held :=
  match c with
  | Snapshot h => ret h
  | Unparsable => throw
  end.

(** [fs.writeFile(this.dbPath, content, 'utf-8')]: without the
    directory the open fails; a write that fails after the open leaves
    a text that is no JSON (the text written is one object or array, so
    no proper prefix of it parses). *)
Definition fsWriteFile (c : FileContent) : Op unit :=
  fun w =>
    if dirExists (disk w) then
      if writeAllowed (disk w)
      then (mkWorld (data w)
                    (mkFs true (mkdirAllowed (disk w)) (Some c) true
                          (writeFailure (disk w)))
                    (clock w) (reads w), Returned tt)
      else match writeFailure (disk w) with
           | AtOpen => (w, Thrown)
           | AfterOpen =>
               (mkWorld (data w)
                        (mkFs true (mkdirAllowed (disk w)) (Some Unparsable)
                              false AfterOpen)
                        (clock w) (reads w), Thrown)
           | AtClose =>
               (mkWorld (data w)
                        (mkFs true (mkdirAllowed (disk w)) (Some c)
                              false AtClose)
                        (clock w) (reads w), Thrown)
           end
    else (w, Thrown).

(** [constructor(dbPath)] *)
Definition create (fs : FileSystem) (clk : nat -> Z) (n : nat) : World :=
  mkWorld (Ledger (mkData [] (clk n))) fs clk (S n).

(** [private async saveData()]: the date is taken, then assigned, then
    the state is printed and written. *)
Definition saveData : Op unit :=
  tryCatch
    (t <- now ;;
     setLastUpdated t ;;;
     h <- getData ;;
     fsWriteFile (Snapshot h))
    throw.

(** [async initialize()]: the value parsed is assigned to [this.data]
    before the log line reads [this.data.migrations.length]. *)
Definition initialize : Op unit :=
  tryCatch
    (tryCatch fsAccess fsMkdir ;;;
     tryCatch
       (fileContent <- fsReadFile ;;
        h <- jsonParse fileContent ;;
        setData h ;;;
        readLength)
       saveData)
    throw.

(** Insertion of [x], which stood before the elements of [l] in the
    array, into [l] sorted newest first: [x] goes before the first entry
    that is not strictly newer, so entries of equal date keep their order
    ([Array.prototype.sort] is stable). *)
Fixpoint insertByDate (x : MigratedToken.t) (l : list MigratedToken.t)
  : list MigratedToken.t :=
  match l with
  | [] => [x]
  | y :: l' =>
      if (MigratedToken.migrationDate x <? MigratedToken.migrationDate y)%Z
      then y :: insertByDate x l'
      else x :: y :: l'
  end.

(** [migrations.sort((a, b) => new Date(b.migrationDate).getTime()
                              - new Date(a.migrationDate).getTime())] *)
Fixpoint sortByDate (l : list MigratedToken.t) : list MigratedToken.t :=
  match l with
  | [] => []
  | x :: l' => insertByDate x (sortByDate l')
  end.

(** The three assignments of [saveMigration] to [this.data.migrations]:
    filter, push, sort. *)
Definition upsert (migration : MigratedToken.t) (ms : list MigratedToken.t)
  : list MigratedToken.t :=
  sortByDate
    (filter (fun m => negb (MigratedToken.id m =? MigratedToken.id migration)%string) ms
     ++ [migration]).

(** [async saveMigration(migration)] *)
Definition saveMigration (migration : MigratedToken.t) : Op unit :=
  tryCatch
    (updateMigrations (upsert migration) ;;;
     saveData)
    throw.

(** [async migrationExists(id)] *)
Definition migrationExists (id : string) : Op bool :=
  tryCatch
    (ms <- getMigrations ;;
     ret (existsb (fun m => (MigratedToken.id m =? id)%string) ms))
    (ret false).

(** The tier that answers, i.e. which of the three debug lines of
    [migrationExistsByDetails] is logged. *)
Inductive Tier :=
| ByContract
| BySymbolName
| ById.

(** [migration.contractAddress &&
     migration.contractAddress.toLowerCase() === token.contractAddress.toLowerCase()] *)
Definition sameContract {host : CaseMapping} (token migration : MigratedToken.t)
  : bool :=
  truthyStr (MigratedToken.contractAddress migration) &&
  (toLowerCase (interpolate (MigratedToken.contractAddress migration))
   =? toLowerCase (interpolate (MigratedToken.contractAddress token)))%string.

(** [migration.symbol.toLowerCase() === token.symbol.toLowerCase() &&
     migration.name.toLowerCase() === token.name.toLowerCase()] *)
Definition sameSymbolName {host : CaseMapping} (token migration : MigratedToken.t)
  : bool :=
  (toLowerCase (MigratedToken.symbol migration)
   =? toLowerCase (MigratedToken.symbol token))%string &&
  (toLowerCase (MigratedToken.name migration)
   =? toLowerCase (MigratedToken.name token))%string.

(** [migration.id === token.id] *)
Definition sameId (token migration : MigratedToken.t) : bool :=
  (MigratedToken.id migration =? MigratedToken.id token)%string.

(** The body of the [try] of [migrationExistsByDetails] on the array
    [ms], with the tier in place of the log line. *)
Definition matchTier {host : CaseMapping} (token : MigratedToken.t)
           (ms : list MigratedToken.t) : option Tier :=
  if truthyStr (MigratedToken.contractAddress token)
     && existsb (sameContract token) ms
  then Some ByContract
  else if existsb (sameSymbolName token) ms
  then Some BySymbolName
  else if existsb (sameId token) ms
  then Some ById
  else None.

Definition existsByDetails {host : CaseMapping} (token : MigratedToken.t)
           (ms : list MigratedToken.t) : bool :=
  match matchTier token ms with
  | Some _ => true
  | None => false
  end.

(** [async migrationExistsByDetails(token)]: the [catch] answers
    [false]. *)
Definition migrationExistsByDetails {host : CaseMapping}
           (token : MigratedToken.t) : Op bool :=
  tryCatch
    (ms <- getMigrations ;;
     ret (existsByDetails token ms))
    (ret false).

(** [async getRecentMigrations(limit)]: the [catch] answers the empty
    list. *)
Definition getRecentMigrations (limit : nat) : Op (list MigratedToken.t) :=
  tryCatch
    (ms <- getMigrations ;;
     ret (firstn limit ms))
    (ret []).

(** [async close()] *)
Definition close : Op unit :=
  tryCatch saveData (ret tt).

(** [async clearDatabase()] *)
Definition clearDatabase : Op unit :=
  tryCatch
    (t <- now ;;
     setData (Ledger (mkData [] t)) ;;;
     saveData)
    throw.

(** The calls a process makes on its store; [Restart] is a new process
    building a new store over the same disk. *)
Inductive Call :=
| Initialize
| SaveMigration (migration : MigratedToken.t)
| ClearDatabase
| Close
| Restart.

Definition perform (c : Call) (w : World) : World * Completion unit :=
  match c with
  | Initialize => initialize w
  | SaveMigration migration => saveMigration migration w
  | ClearDatabase => clearDatabase w
  | Close => close w
  | Restart => (create (disk w) (clock w) (reads w), Returned tt)
  end.

(** A history of calls, thrown or not. *)
Fixpoint performAll (cs : list Call) (w : World) : World :=
  match cs with
  | [] => w
  | c :: cs' => performAll cs' (fst (perform c w))
  end.

(** The ledger entries [this.data] holds: none when it holds no
    [migrations] array. *)
Definition ledgerOf (h : Held) : list MigratedToken.t :=
  match h with
  | Ledger d => migrations d
  | _ => []
  end.

End DatabaseManager.

(* ------------------------------------------------------------------ *)
(** ** The check cycle ([BagsFmBot.checkForNewMigrations])              *)
(* ------------------------------------------------------------------ *)

Module BagsFmBot.
Import DatabaseManager.
Local Open Scope op_scope.

(** The [for (const launch of launches)] loop. *)
Fixpoint checkLoop {host : JS.CaseMapping}
         (launches newMigrations : list MigratedToken.t)
  : Op (list MigratedToken.t) :=
  match launches with
  | [] => ret newMigrations
  | launch :: rest =>
      found <- migrationExistsByDetails launch ;;
      if negb found
      then (saveMigration launch ;;;
            checkLoop rest (newMigrations ++ [launch]))
      else checkLoop rest newMigrations
  end.

(** [checkForNewMigrations], given what [fetchMigrations] returned.  The
    result lists the tokens handed to [sendMigrationNotification]; a
    throw inside the loop lands in the outer [catch], which sends
    nothing. *)
Definition checkForNewMigrations {host : JS.CaseMapping}
           (launches : list MigratedToken.t)
           (w : World) : World * list MigratedToken.t :=
  match checkLoop launches [] w with
  | (w', Returned newMigrations) => (w', newMigrations)
  | (w', Thrown) => (w', [])
  end.

(** Successive cycles, one fetch result each; the notifications of each
    cycle are returned in order. *)
Fixpoint runCycles {host : JS.CaseMapping}
         (fetches : list (list MigratedToken.t)) (w : World)
  : World * list (list MigratedToken.t) :=
  match fetches with
  | [] => (w, [])
  | launches :: later =>
      let (w1, sent) := checkForNewMigrations launches w in
      let (w2, sents) := runCycles later w1 in
      (w2, sent :: sents)
  end.

End BagsFmBot.

(* ------------------------------------------------------------------ *)
(** ** The vocabulary of the specification                              *)
(* ------------------------------------------------------------------ *)

Module Spec.
Import JS DatabaseManager.

(** Two strings that are equal up to case: they have the same
    lower-case form under the host's case mapping. *)
Definition eqIgnoreCase {host : CaseMapping} (a b : string) : Prop :=
  toLowerCase a = toLowerCase b.

(** Two characters that are equal, or the two cases of one ASCII
    letter. *)
Definition sameLetter (x y : ascii) : Prop :=
  x = y
  \/ (isUpper x = true /\ nat_of_ascii y = (nat_of_ascii x + 32)%nat)
  \/ (isUpper y = true /\ nat_of_ascii x = (nat_of_ascii y + 32)%nat).

(** Two strings that differ at most in the case of the letters A-Z,
    character by character. *)
Inductive eqUpToAsciiCase : string -> string -> Prop :=
| eic_nil : eqUpToAsciiCase EmptyString EmptyString
| eic_cons x y s t :
    sameLetter x y -> eqUpToAsciiCase s t ->
    eqUpToAsciiCase (String x s) (String y t).

(** Tier 1: a contract address on both sides, equal up to case. *)
Definition tier1 {host : CaseMapping} (token entry : MigratedToken.t) : Prop :=
  exists a b,
    MigratedToken.contractAddress token = Some a /\ a <> EmptyString /\
    MigratedToken.contractAddress entry = Some b /\ b <> EmptyString /\
    eqIgnoreCase a b.

(** Tier 2: symbol and name both equal up to case. *)
Definition tier2 {host : CaseMapping} (token entry : MigratedToken.t) : Prop :=
  eqIgnoreCase (MigratedToken.symbol token) (MigratedToken.symbol entry) /\
  eqIgnoreCase (MigratedToken.name token) (MigratedToken.name entry).

(** Tier 3: equal ids. *)
Definition tier3 (token entry : MigratedToken.t) : Prop :=
  MigratedToken.id token = MigratedToken.id entry.

Definition hits (tier : MigratedToken.t -> MigratedToken.t -> Prop)
           (token : MigratedToken.t) (ms : list MigratedToken.t) : Prop :=
  exists entry, In entry ms /\ tier token entry.




(** At most one entry per id. *)
Definition uniqueIds (ms : list MigratedToken.t) : Prop :=
  NoDup (map MigratedToken.id ms).

(** Entries sorted by [migrationDate], newest first. *)
Definition newestFirst (ms : list MigratedToken.t) : Prop :=
  StronglySorted
    (fun a b => (MigratedToken.migrationDate b <= MigratedToken.migrationDate a)%Z)
    ms.

Definition wellKept (d : DatabaseData) : Prop :=
  uniqueIds (migrations d) /\ newestFirst (migrations d).

(** The file holds exactly the state in memory. *)
Definition flushed (w : World) : Prop :=
  file (disk w) = Some (Snapshot (data w)).

(** Storage that is missing (or unreadable) or does not parse. *)
Definition missingOrUnparsable (fs : FileSystem) : Prop :=
  file fs = None \/ file fs = Some Unparsable.

(** Storage whose text parses to something else than a ledger state:
    [null], a number, [{}], [[]], [{ "migrations": 5 }]. *)
Definition malformed (fs : FileSystem) : Prop :=
  file fs = Some (Snapshot NotAnObject)
  \/ exists m, file fs = Some (Snapshot (NoLedger m)).

(** [this.data] is a [DatabaseData], as the source types it. *)
Definition holdsLedger (w : World) : Prop :=
  exists d, data w = Ledger d.

(** A value in memory, or parsed from the file, that is a well-kept
    ledger state. *)
Definition wellKeptHeld (h : Held) : Prop :=
  exists d, h = Ledger d /\ wellKept d.

(** A disk as the store leaves it or finds it on a first start: no
    file, an unparsable file, or a well-kept snapshot. *)
Definition diskWellKept (fs : FileSystem) : Prop :=
  forall h, file fs = Some (Snapshot h) -> wellKeptHeld h.

(** A state and a disk that are both well kept. *)
Definition kept (w : World) : Prop :=
  wellKeptHeld (data w) /\ diskWellKept (disk w).

(** The ledger entries held in memory. *)
Definition ledger (w : World) : list MigratedToken.t := ledgerOf (data w).

(** The disk once [initialize] has looked for the directory and made it
    when it was missing. *)
Definition dirEnsured (fs : FileSystem) : FileSystem :=
  if dirExists fs then fs
  else mkFs true true (file fs) (writeAllowed fs) (writeFailure fs).

(** The value in memory once [saveData] has assigned [lastUpdated]. *)
Definition stamped (h : Held) (t : Z) : Held :=
  match h with
  | Ledger d => Ledger (mkData (migrations d) t)
  | _ => h
  end.

(** A number field that is missing or zero, and one that is there and
    not zero: the two sides of JavaScript truthiness on numbers. *)
Definition absentOrZero (x : option Q) : Prop :=
  match x with
  | None => True
  | Some q => q == 0
  end.

Definition presentNonZero (x : option Q) : Prop :=
  exists q, x = Some q /\ ~ q == 0.

(** A bonding-completion signal in the source record. *)
Definition bondingSignal (token : BagsApiToken.t) : Prop :=
  (exists bc, BagsApiToken.bondingCurve token = Some bc
              /\ BondingCurve.completed bc = true)
  \/ BagsApiToken.migrated token = Some true
  \/ BagsApiToken.migratedAt token <> NoTime
  \/ BagsApiToken.bondingCompletedAt token <> NoTime
  \/ BagsApiToken.completedAt token <> NoTime.

(** The market cap reaches the threshold (inclusive). *)
Definition reachesThreshold (cap : option Q) : Prop :=
  exists m, cap = Some m /\ Scraper.MCAP_THRESHOLD <= m.

(** What the two revisions build from one record, field by field. *)
Definition builtFrom (nowM nowC : Z) (token : BagsApiToken.t)
           (m : MigratedToken.t) : Prop :=
  Some (MigratedToken.migrationDate m) = fst (Scraper.resolveMigrationDate token nowM)
  /\ MigratedToken.createdAt m = Some (Scraper.resolveCreatedDate token nowC)
  /\ MigratedToken.marketCap m = Scraper.deriveMarketCap token
  /\ MigratedToken.bondingDuration m =
     Scraper.computeBondingDuration (Some (MigratedToken.migrationDate m))
                            (Scraper.resolveCreatedDate token nowC)
  /\ MigratedToken.contractAddress m = BagsApiToken.tokenAddress token.

(** The qualification timestamp lies strictly after the creation
    timestamp. *)
Definition qualifiedAfterCreation (m : MigratedToken.t) : Prop :=
  exists c, MigratedToken.createdAt m = Some (Some c)
            /\ (c < MigratedToken.migrationDate m)%Z.

End Spec.

(* ------------------------------------------------------------------ *)
(** ** Sample records                                                   *)
(* ------------------------------------------------------------------ *)

Module Samples.
Import JS DatabaseManager.
Local Open Scope string_scope.

(** An upstream record with the fields the normalizer reads. *)
Definition record (addr name sym : option string)
           (created migrated launched : TimeField)
           (cap price : option Q) (curve : option BondingCurve.t)
  : BagsApiToken.t :=
  BagsApiToken.mk addr name sym None None created migrated launched
                  NoTime NoTime cap price None None None curve
                  None None None None None None.

(** [{ tokenAddress, name, symbol, marketCap: 0, price: 0.0002 }] *)
Definition zeroCap : BagsApiToken.t :=
  record (Some "So1anaMint") (Some "Zero") (Some "ZR")
         NoTime NoTime NoTime (Some 0) (Some (1 # 5000)) None.

(** [{ tokenAddress, name, symbol, price: 0 }] *)
Definition zeroPrice : BagsApiToken.t :=
  record (Some "So1anaMint") (Some "Zero") (Some "ZR")
         NoTime NoTime NoTime None (Some 0) None.

(** [{ tokenAddress, name, symbol, price: 0.0001 }] *)
Definition pennyPrice : BagsApiToken.t :=
  record (Some "So1anaMint") (Some "Penny") (Some "PNY")
         NoTime NoTime NoTime None (Some (1 # 10000)) None.

(** [{ ..., marketCap: 100000 }] and [{ ..., marketCap: 99999.99 }] *)
Definition atThreshold : BagsApiToken.t :=
  record (Some "So1anaMint") (Some "Edge") (Some "EDG")
         NoTime NoTime NoTime (Some 100000) None None.

Definition belowThreshold : BagsApiToken.t :=
  record (Some "So1anaMint") (Some "Edge") (Some "EDG")
         (Time 1000) NoTime NoTime (Some (9999999 # 100)) None None.

(** The same, with [migrated: true]. *)
Definition belowThresholdMigrated : BagsApiToken.t :=
  BagsApiToken.mk (Some "So1anaMint") (Some "Edge") (Some "EDG") None None
                  (Time 1000) NoTime NoTime NoTime NoTime
                  (Some (9999999 # 100)) None None None None None
                  None None None None (Some true) None.

(** [{ ..., createdAt: T, launchedAt: T + 2h }] with [T = 1000]. *)
Definition launchedTwoHoursIn : BagsApiToken.t :=
  record (Some "So1anaMint") (Some "Two") (Some "TWO")
         (Time 1000) NoTime (Time 7201000) (Some 250000) None None.

(** [{ name: 'Doge Coin', symbol: 'DOGE' }]: no address. *)
Definition addressless : BagsApiToken.t :=
  record None (Some "Doge Coin") (Some "DOGE")
         (Time 1000) (Time 2000) NoTime (Some 250000) None None.

(** A ledger entry / fetched token. *)
Definition token (id name sym : string) (addr : option string) (date : Z)
  : MigratedToken.t :=
  MigratedToken.mk id name sym addr date (Some "Solana")
                   (Some "Bags.fm Launch") None None None None None None
                   None None None None None None None None
                   (Some (Some date)).

Definition doge : MigratedToken.t :=
  token "AbCdEf123" "Doge Coin" "DOGE" (Some "AbCdEf123") 5000.

(** The same address in another letter case, another name. *)
Definition dogeShouted : MigratedToken.t :=
  token "ABCDEF123" "Other" "OTH" (Some "ABCDEF123") 6000.

(** The same symbol and name, a fresh address. *)
Definition dogeClone : MigratedToken.t :=
  token "Zz9Fresh" "doge coin" "Doge" (Some "Zz9Fresh") 7000.

Definition pepe : MigratedToken.t :=
  token "PePe777" "Pepe" "PEPE" (Some "PePe777") 9000.

(** The texts [Café] and [CAFÉ], in UTF-8. *)
Definition Cafe : string :=
  "Caf" ++ String (ascii_of_nat 195) (String (ascii_of_nat 169) "").

Definition CAFE : string :=
  "CAF" ++ String (ascii_of_nat 195) (String (ascii_of_nat 137) "").

(** Two tokens without address whose symbol and name differ in the case
    of an accented letter. *)
Definition cafe : MigratedToken.t := token "token-1" Cafe Cafe None 3000.

Definition cafeShouted : MigratedToken.t := token "token-2" CAFE CAFE None 4000.

Definition tick (n : nat) : Z := 100000 + Z.of_nat n.

(** A data directory that accepts writes and holds no file yet. *)
Definition freshDisk : FileSystem := mkFs true true None true AtOpen.

(** A corrupt file on a disk that refuses writes. *)
Definition readOnlyCorruptDisk : FileSystem :=
  mkFs true true (Some Unparsable) false AtOpen.

Definition corruptDisk : FileSystem :=
  mkFs true true (Some Unparsable) true AtOpen.

(** A writable disk whose file holds the text [null]. *)
Definition nullDisk : FileSystem :=
  mkFs true true (Some (Snapshot NotAnObject)) true AtOpen.

(** A writable disk whose file holds the text [{}]. *)
Definition emptyObjectDisk : FileSystem :=
  mkFs true true (Some (Snapshot (NoLedger Nullish))) true AtOpen.

(** The disk of [w], now refusing writes at the open, or full. *)
Definition readOnly (w : World) : World :=
  mkWorld (data w)
          (mkFs (dirExists (disk w)) (mkdirAllowed (disk w)) (file (disk w))
                false AtOpen)
          (clock w) (reads w).

Definition diskFull (w : World) : World :=
  mkWorld (data w)
          (mkFs (dirExists (disk w)) (mkdirAllowed (disk w)) (file (disk w))
                false AfterOpen)
          (clock w) (reads w).

(** A store started on a fresh disk. *)
Definition started : World := fst (initialize (create freshDisk tick 0)).

(** A store built over a disk that refuses writes. *)
Definition startedReadOnly : World :=
  create (mkFs true true None false AtOpen) tick 0.

End Samples.

(* ------------------------------------------------------------------ *)
(** ** The feed fetchers ([getNewMigrations], [fetchMigrations])        *)
(* ------------------------------------------------------------------ *)

Module Network.
Import Scraper.

(** How [await axios.get(...)] ends: the promise rejects (no answer,
    timeout, a status outside 2xx), or resolves with a status and a
    body. *)
Inductive AxiosOutcome (Body : Type) :=
| Rejected
| Resolved (status : Z) (body : Body).
Arguments Rejected {Body}.

(** [interface BagsApiResponse]; [leaderboard] is [data?.leaderboard]. *)
Record BagsApiResponse := mkResponse {
  success : bool;
  response : option (list BagsApiToken.t);
  leaderboard : option (list BagsApiToken.t)
}.

(** [async getNewMigrations()], lines 58-104. *)
Definition getNewMigrations (clock : nat -> Z)
           (r : AxiosOutcome BagsApiResponse) : list MigratedToken.t :=
  match r with
  | Rejected => []
  | Resolved _ body =>
      if negb (success body) then []
      else match response body with
           | Some tokenList => GetNewMigrations.parseTokenLaunches clock tokenList
           | None =>
               match leaderboard body with
               | Some tokenList => GetNewMigrations.parseTokenLaunches clock tokenList
               | None => []
               end
           end
  end.

(** [async fetchMigrations()], lines 271-294: a status other than 200
    throws into the [catch], which returns the empty list. *)
Definition fetchMigrations (clock : nat -> Z) (entropy : nat -> string)
           (r : AxiosOutcome FetchMigrations.ApiData) : list MigratedToken.t :=
  match r with
  | Rejected => []
  | Resolved status body =>
      if (status =? 200)%Z
      then FetchMigrations.parseTokenLaunches clock entropy body
      else []
  end.

(** [async fetchRecentLaunches(page, limit)], lines 442-468. *)
Definition fetchRecentLaunches (clock : nat -> Z) (entropy : nat -> string)
           (r : AxiosOutcome FetchMigrations.ApiData) : list MigratedToken.t :=
  match r with
  | Rejected => []
  | Resolved status body =>
      if (status =? 200)%Z
      then FetchMigrations.parseTokenLaunches clock entropy body
      else []
  end.

(** [async getTokenDetails(tokenAddress)], lines 419-439; the body is
    [None] when [response.data] is falsy. *)
Definition getTokenDetails (r : AxiosOutcome (option BagsApiToken.t))
  : option BagsApiToken.t :=
  match r with
  | Rejected => None
  | Resolved status body => if (status =? 200)%Z then body else None
  end.

End Network.

(* ------------------------------------------------------------------ *)
(** ** Statistics ([DatabaseManager.getStats])                          *)
(* ------------------------------------------------------------------ *)

Module Stats.
Import DatabaseManager.
Local Open Scope op_scope.

(** The host's local calendar, on time values: [startOfDay] is
    [d.setHours(0, 0, 0, 0)], [weekBefore] is
    [d.setDate(d.getDate() - 7)]. *)
Record Calendar := mkCalendar {
  startOfDay : Z -> Z;
  weekBefore : Z -> Z
}.

Record Counts := mkCounts {
  totalMigrations : nat;
  migrationsToday : nat;
  migrationsThisWeek : nat
}.

(** The filter of [migrationsToday]. *)
Definition isToday (cal : Calendar) (today : Z) (m : MigratedToken.t) : bool :=
  (today <=? startOfDay cal (MigratedToken.migrationDate m))%Z.

(** The filter of [migrationsThisWeek]. *)
Definition isThisWeek (weekAgo : Z) (m : MigratedToken.t) : bool :=
  (weekAgo <=? MigratedToken.migrationDate m)%Z.

(** [async getStats()], lines 139-170: the length is read, then each
    count takes a date and filters the array; the [catch] answers
    zeros. *)
Definition getStats (cal : Calendar) : Op Counts :=
  tryCatch
    (readLength ;;;
     t1 <- now ;;
     today <- getMigrations ;;
     t2 <- now ;;
     week <- getMigrations ;;
     ret (mkCounts
            (List.length week)
            (List.length (filter (isToday cal (startOfDay cal t1)) today))
            (List.length (filter (isThisWeek (startOfDay cal (weekBefore cal t2)))
                            week))))
    (ret (mkCounts 0 0 0)).

(** The calendar of a host on UTC. *)
Definition utc : Calendar :=
  mkCalendar (fun t => t - t mod 86400000)%Z (fun t => t - 7 * 86400000)%Z.

End Stats.

(* ------------------------------------------------------------------ *)
(** ** Notifications ([BagsFmBot.sendMigrationNotification])            *)
(* ------------------------------------------------------------------ *)

Module Notifier.
Import JS.

(** The Telegram client, as far as the bot sees it: whether [sendPhoto]
    and [sendMessage] go through for a token. *)
Record Telegram := mkTelegram {
  sendPhotoOk : MigratedToken.t -> bool;
  sendMessageOk : MigratedToken.t -> bool
}.

(** What reached the channel. *)
Inductive Delivery :=
| Photo (m : MigratedToken.t)
| Text (m : MigratedToken.t).

(** [private async sendMigrationNotification(migration)], lines 164-195:
    every failure ends in a [catch]; the result is what was delivered. *)
Definition sendMigrationNotification (bot : Telegram)
           (migration : MigratedToken.t) : list Delivery :=
  if truthyStr (MigratedToken.image migration) then
    if sendPhotoOk bot migration then [Photo migration]
    else if sendMessageOk bot migration then [Text migration]
    else []
  else
    if sendMessageOk bot migration then [Text migration]
    else [].

(** The [for (const migration of newMigrations)] loop of
    [checkForNewMigrations]. *)
Definition notifyAll (bot : Telegram) (newMigrations : list MigratedToken.t)
  : list Delivery :=
  flat_map (sendMigrationNotification bot) newMigrations.

Definition delivered (d : Delivery) : MigratedToken.t :=
  match d with
  | Photo m => m
  | Text m => m
  end.

(** [Math.round]: the nearest integer, halves going up. *)
Definition mathRound (x : Q) : Z := Qfloor (x + (1 # 2)).

(** [a < b] on numbers *)
Definition ltNum (a b : Q) : bool := negb (Qle_bool b a).

(** [a % b] for a divisor [b > 0]: what is left of [a] by the quotient
    truncated toward zero; the operation is exact on binary64. *)
Definition remainder (a b : Q) : Q :=
  a - b * inject_Z (if ltNum a 0 then Qceiling (a / b) else Qfloor (a / b)).

(** The text of [x.toFixed(digits)]: below 10^21 a sign and the digits
    of the integer [n] with [n / 10^digits] nearest to [|x|], the larger
    one on a tie; from 10^21 on the text of [String(x)]. *)
Inductive FixedText :=
| Fixed (minus : bool) (n : Z)
| Exponential (x : Q).

Definition toFixed (digits : Z) (x : Q) : FixedText :=
  if Qle_bool (inject_Z (10 ^ 21)) (Qabs x) then Exponential x
  else Fixed (ltNum x 0)
             (Qfloor (Qabs x * inject_Z (10 ^ digits) + (1 # 2))).

(** The text [formatDuration] builds, with the numbers it prints:
    [`${minutes} minutes`], [`${hours.toFixed(1)} hours`],
    [`${days} days`], [`${days}d ${remainingHours}h`]. *)
Inductive DurationText :=
| Minutes (minutes : Z)
| HoursFixed1 (hours : FixedText)
| Days (days : Z)
| DaysHours (days remainingHours : Z).

(** [private formatDuration(hours)], lines 277-292: the product and
    the quotient are rounded, the remainder and the comparisons are
    exact. *)
Definition formatDuration (hours : Q) : DurationText :=
  if ltNum hours 1 then Minutes (mathRound (Binary64.round (hours * 60)))
  else if ltNum hours 24 then HoursFixed1 (toFixed 1 hours)
  else
    let days := Qfloor (Binary64.round (hours / 24)) in
    let remainingHours := mathRound (remainder hours 24) in
    if (remainingHours =? 0)%Z then Days days
    else DaysHours days remainingHours.

(** The suffix [formatCurrency] appends. *)
Inductive Suffix :=
| Billions
| Millions
| Thousands.

Definition unitOf (u : Suffix) : Q :=
  match u with
  | Billions => 1000000000
  | Millions => 1000000
  | Thousands => 1000
  end.

(** The text [formatCurrency] builds. *)
Inductive CurrencyText :=
| Plain (text : FixedText)
| Scaled (text : FixedText) (u : Suffix).

(** [private formatCurrency(amount)], lines 265-275. *)
Definition formatCurrency (amount : Q) : CurrencyText :=
  if Qle_bool 1000000000 amount
  then Scaled (toFixed 2 (Binary64.round (amount / 1000000000))) Billions
  else if Qle_bool 1000000 amount
  then Scaled (toFixed 2 (Binary64.round (amount / 1000000))) Millions
  else if Qle_bool 1000 amount
  then Scaled (toFixed 2 (Binary64.round (amount / 1000))) Thousands
  else Plain (toFixed 2 amount).

End Notifier.

(* ------------------------------------------------------------------ *)
(** ** The bot's entry points ([start], one full check)                 *)
(* ------------------------------------------------------------------ *)

Module BotRun.
Import DatabaseManager BagsFmBot.

(** One run of [checkForNewMigrations] from the answer of the feed to
    the channel: fetch, dedup and record, notify. *)
Definition checkFromFeed {host : JS.CaseMapping} (bot : Notifier.Telegram)
           (clk : nat -> Z) (entropy : nat -> string)
           (r : Network.AxiosOutcome Scraper.FetchMigrations.ApiData)
           (w : World) : World * list Notifier.Delivery :=
  let (w', sent) :=
    checkForNewMigrations (Network.fetchMigrations clk entropy r) w in
  (w', Notifier.notifyAll bot sent).

(** A process start on a disk: [new DatabaseManager(path)], then
    [start()], which initializes the store and runs the initial check;
    when [initialize] throws, [start] throws before any check. *)
Definition start {host : JS.CaseMapping}
           (fs : FileSystem) (clk : nat -> Z) (n : nat)
           (launches : list MigratedToken.t)
  : World * Completion (list MigratedToken.t) :=
  match initialize (create fs clk n) with
  | (w, Returned _) =>
      let (w', sent) := checkForNewMigrations launches w in
      (w', Returned sent)
  | (w, Thrown) => (w, Thrown)
  end.

End BotRun.

(* ------------------------------------------------------------------ *)
(** ** More vocabulary                                                  *)
(* ------------------------------------------------------------------ *)

Module Vocabulary.
Import JS DatabaseManager Spec.

(** An entry answers for a token by some tier. *)
Definition answersFor {host : CaseMapping} (entry token : MigratedToken.t)
  : Prop :=
  tier1 token entry \/ tier2 token entry \/ tier3 token entry.

(** No earlier token of the list answers for a later one. *)
Definition pairwiseDistinct {host : CaseMapping}
           (sent : list MigratedToken.t) : Prop :=
  ForallOrdPairs (fun earlier later => ~ answersFor earlier later) sent.

(** The record is kept by the filter of [getNewMigrations]. *)
Definition passesFilter (token : BagsApiToken.t) : bool :=
  Scraper.GetNewMigrations.hasCompletedBonding token
  || Scraper.GetNewMigrations.hasCrossed100kMcap (Scraper.deriveMarketCap token).

(** Clock readings the [getNewMigrations] loop makes over a batch: two
    per record that passes the filter. *)
Definition clockReads (tokenList : list BagsApiToken.t) : nat :=
  2 * List.length (filter passesFilter tokenList).

(** The letters and digits of a text. *)
Definition alnum (s : option string) : string :=
  stripNonAlnum (interpolate s).

(** The record has no usable address. *)
Definition lacksAddress (token : BagsApiToken.t) : Prop :=
  BagsApiToken.tokenAddress token = None
  \/ BagsApiToken.tokenAddress token = Some EmptyString.

(** The date the chain picks for the record parses. *)
Definition dateParses (token : BagsApiToken.t) : bool :=
  match fst (Scraper.resolveMigrationDate token 0) with
  | Some _ => true
  | None => false
  end.

(** The text holds letters and digits only. *)
Fixpoint allAlnum (s : string) : bool :=
  match s with
  | EmptyString => true
  | String c s' => (isUpper c || isLower c || isDigit c) && allAlnum s'
  end.

(** [t] put into a list sorted newest first, behind every entry that is
    at least as new. *)
Fixpoint placeLast (t : MigratedToken.t) (s : list MigratedToken.t)
  : list MigratedToken.t :=
  match s with
  | [] => [t]
  | y :: s' =>
      if (MigratedToken.migrationDate y <? MigratedToken.migrationDate t)%Z
      then t :: y :: s'
      else y :: placeLast t s'
  end.

(** The entries that carry another id than [t]. *)
Definition others (t : MigratedToken.t) (ms : list MigratedToken.t)
  : list MigratedToken.t :=
  filter (fun m => negb (MigratedToken.id m =? MigratedToken.id t)%string) ms.


(** The file holds the state in memory, in a directory that exists. *)
Definition persisted (w : World) : Prop :=
  flushed w /\ dirExists (disk w) = true.

End Vocabulary.

(* ------------------------------------------------------------------ *)
(** ** Strings                                                          *)
(* ------------------------------------------------------------------ *)

Module StringFacts.
Import JS Spec.

Lemma isUpper_bounds c :
  isUpper c = true <-> (65 <= nat_of_ascii c <= 90)%nat.
Proof.
  unfold isUpper. rewrite andb_true_iff, !Nat.leb_le. tauto.
Qed.

Lemma lowerChar_upper c :
  isUpper c = true ->
  nat_of_ascii (lowerChar c) = (nat_of_ascii c + 32)%nat.
Proof.
  intros Hu. unfold lowerChar. rewrite Hu.
  apply isUpper_bounds in Hu.
  apply nat_ascii_embedding. lia.
Qed.

Lemma lowerChar_other c :
  isUpper c = false -> lowerChar c = c.
Proof. intros Hu. unfold lowerChar. now rewrite Hu. Qed.

Lemma nat_of_ascii_inj x y : nat_of_ascii x = nat_of_ascii y -> x = y.
Proof.
  intros H. rewrite <- (ascii_nat_embedding x), <- (ascii_nat_embedding y).
  now rewrite H.
Qed.

Lemma lowerChar_sameLetter x y :
  lowerChar x = lowerChar y <-> sameLetter x y.
Proof.
  unfold sameLetter. split.
  - intros H.
    destruct (isUpper x) eqn:Hx, (isUpper y) eqn:Hy.
    + left. apply nat_of_ascii_inj.
      apply (f_equal nat_of_ascii) in H.
      rewrite !lowerChar_upper in H by assumption. lia.
    + right. left. split; [reflexivity|].
      rewrite (lowerChar_other _ Hy) in H. rewrite <- H.
      now apply lowerChar_upper.
    + right. right. split; [reflexivity|].
      rewrite (lowerChar_other _ Hx) in H. rewrite H.
      now apply lowerChar_upper.
    + left. now rewrite !lowerChar_other in H.
  - intros [-> | [[Hx Hy] | [Hy Hx]]]; [reflexivity | |].
    + assert (Hny : isUpper y = false).
      { apply isUpper_bounds in Hx. apply not_true_is_false.
        rewrite isUpper_bounds. lia. }
      rewrite (lowerChar_other _ Hny). apply nat_of_ascii_inj.
      rewrite lowerChar_upper by assumption. lia.
    + assert (Hnx : isUpper x = false).
      { apply isUpper_bounds in Hy. apply not_true_is_false.
        rewrite isUpper_bounds. lia. }
      rewrite (lowerChar_other _ Hnx). apply nat_of_ascii_inj.
      rewrite lowerChar_upper by assumption. lia.
Qed.

(** Folding the letters A-Z decides equality up to their case. *)
Lemma lowerAscii_eqUpToAsciiCase s t :
  lowerAscii s = lowerAscii t <-> eqUpToAsciiCase s t.
Proof.
  split.
  - revert t. induction s as [|x s IH]; intros [|y t] H; simpl in H;
      try discriminate.
    + constructor.
    + injection H as Hc Hs. constructor.
      * now apply lowerChar_sameLetter.
      * now apply IH.
  - induction 1 as [|x y s t Hxy _ IH]; simpl.
    + reflexivity.
    + apply lowerChar_sameLetter in Hxy. now rewrite Hxy, IH.
Qed.

Lemma eqUpToAsciiCase_nonempty a b :
  eqUpToAsciiCase a b -> a <> EmptyString -> b <> EmptyString.
Proof. intros H Ha ->. inversion H; subst. now elim Ha. Qed.

Section Host.
Context {host : CaseMapping}.

Lemma eqIgnoreCase_refl s : eqIgnoreCase s s.
Proof. reflexivity. Qed.

Lemma eqIgnoreCase_sym s t : eqIgnoreCase s t -> eqIgnoreCase t s.
Proof. unfold eqIgnoreCase. intros H. now symmetry. Qed.

(** Whatever the host, two texts that differ only in the case of the
    letters A-Z are equal up to case. *)
Lemma asciiCase_eqIgnoreCase s t : eqUpToAsciiCase s t -> eqIgnoreCase s t.
Proof.
  intros H. apply lowerAscii_eqUpToAsciiCase in H. unfold eqIgnoreCase.
  rewrite <- (toLowerCase_lowerAscii s), <- (toLowerCase_lowerAscii t).
  now rewrite H.
Qed.

(** On ASCII texts, equality up to case is equality up to the case of
    the letters A-Z, character by character. *)
Lemma ascii_eqIgnoreCase s t :
  isAscii s = true -> isAscii t = true ->
  (eqIgnoreCase s t <-> eqUpToAsciiCase s t).
Proof.
  intros Hs Ht. unfold eqIgnoreCase.
  rewrite (toLowerCase_ascii s Hs), (toLowerCase_ascii t Ht).
  apply lowerAscii_eqUpToAsciiCase.
Qed.

Lemma lower_eqb_iff s t :
  (toLowerCase s =? toLowerCase t)%string = true <-> eqIgnoreCase s t.
Proof. apply String.eqb_eq. Qed.

End Host.

Lemma truthyStr_iff (o : option string) :
  truthyStr o = true <-> exists a, o = Some a /\ a <> EmptyString.
Proof.
  destruct o as [[|c s]|]; simpl; split.
  - discriminate.
  - intros (a & Ha & Hne). inversion Ha. subst. now elim Hne.
  - intros _. eexists. split; [reflexivity | discriminate].
  - reflexivity.
  - discriminate.
  - intros (a & Ha & _). discriminate.
Qed.

Lemma stripNonAlnum_app s t :
  stripNonAlnum (s ++ t) = (stripNonAlnum s ++ stripNonAlnum t)%string.
Proof.
  induction s as [|c s IH]; simpl; [reflexivity|].
  destruct (isUpper c || isLower c || isDigit c); simpl; now rewrite IH.
Qed.

End StringFacts.

(* ------------------------------------------------------------------ *)
(** ** Identity resolution                                              *)
(* ------------------------------------------------------------------ *)

Module IdentityFacts.
Import JS DatabaseManager Spec StringFacts.

Section Host.
Context {host : CaseMapping}.

Lemma sameContract_tier1 token entry :
  truthyStr (MigratedToken.contractAddress token) && sameContract token entry = true
  <-> tier1 token entry.
Proof.
  unfold sameContract, tier1.
  rewrite !andb_true_iff, !truthyStr_iff, lower_eqb_iff. split.
  - intros ((a & Ha & Hane) & (b & Hb & Hbne) & Heq).
    exists a, b. rewrite Ha, Hb in *. simpl in Heq.
    repeat split; auto using eqIgnoreCase_sym.
  - intros (a & b & Ha & Hane & Hb & Hbne & Heq).
    rewrite Ha, Hb. simpl.
    repeat split; eauto using eqIgnoreCase_sym.
Qed.

Lemma sameSymbolName_tier2 token entry :
  sameSymbolName token entry = true <-> tier2 token entry.
Proof.
  unfold sameSymbolName, tier2.
  rewrite andb_true_iff, !lower_eqb_iff.
  split; intros [H1 H2]; split; now apply eqIgnoreCase_sym.
Qed.

Lemma sameId_tier3 token entry :
  sameId token entry = true <-> tier3 token entry.
Proof.
  unfold sameId, tier3. rewrite String.eqb_eq. split; congruence.
Qed.

Lemma byContract_hits token ms :
  truthyStr (MigratedToken.contractAddress token)
  && existsb (sameContract token) ms = true
  <-> hits tier1 token ms.
Proof.
  unfold hits. rewrite andb_true_iff, existsb_exists. split.
  - intros (Ht & e & Hin & He). exists e. split; [assumption|].
    apply sameContract_tier1. now rewrite Ht, He.
  - intros (e & Hin & He). apply sameContract_tier1 in He.
    apply andb_true_iff in He as [Ht He]. eauto.
Qed.

Lemma bySymbolName_hits token ms :
  existsb (sameSymbolName token) ms = true <-> hits tier2 token ms.
Proof.
  unfold hits. rewrite existsb_exists.
  split; intros (e & Hin & He); exists e; split; auto;
    now apply sameSymbolName_tier2.
Qed.

Lemma byId_hits token ms :
  existsb (sameId token) ms = true <-> hits tier3 token ms.
Proof.
  unfold hits. rewrite existsb_exists.
  split; intros (e & Hin & He); exists e; split; auto;
    now apply sameId_tier3.
Qed.

Lemma not_true_hits (b : bool) (P : Prop) :
  (b = true <-> P) -> (b = false <-> ~ P).
Proof. destruct b; intuition congruence. Qed.

(** The tier reported is the first one, in the order contract address,
    symbol and name, id, that some entry satisfies. *)
Lemma matchTier_spec token ms :
  (matchTier token ms = Some ByContract <-> hits tier1 token ms)
  /\ (matchTier token ms = Some BySymbolName <->
      ~ hits tier1 token ms /\ hits tier2 token ms)
  /\ (matchTier token ms = Some ById <->
      ~ hits tier1 token ms /\ ~ hits tier2 token ms /\ hits tier3 token ms)
  /\ (matchTier token ms = None <->
      ~ hits tier1 token ms /\ ~ hits tier2 token ms /\ ~ hits tier3 token ms).
Proof.
  unfold matchTier.
  pose proof (byContract_hits token ms) as H1.
  pose proof (bySymbolName_hits token ms) as H2.
  pose proof (byId_hits token ms) as H3.
  pose proof (not_true_hits H1) as N1.
  pose proof (not_true_hits H2) as N2.
  pose proof (not_true_hits H3) as N3.
  destruct (truthyStr (MigratedToken.contractAddress token)
            && existsb (sameContract token) ms);
    [| destruct (existsb (sameSymbolName token) ms);
       [| destruct (existsb (sameId token) ms)]];
    repeat split; intros; try discriminate; try tauto;
      intuition congruence.
Qed.

Lemma existsByDetails_hits token ms :
  existsByDetails token ms = true <->
  hits tier1 token ms \/ hits tier2 token ms \/ hits tier3 token ms.
Proof.
  unfold existsByDetails.
  destruct (matchTier_spec token ms) as (H1 & H2 & H3 & H4).
  destruct (matchTier token ms) as [[| |]|]; split; intros H;
    try reflexivity; try discriminate.
  - left. now apply H1.
  - right. left. now apply H2.
  - right. right. now apply H3.
  - exfalso. destruct H4 as [H4 _]. specialize (H4 eq_refl). tauto.
Qed.

(** The answer only grows with the ledger. *)
Lemma existsByDetails_incl token ms ms' :
  incl ms ms' ->
  existsByDetails token ms = true -> existsByDetails token ms' = true.
Proof.
  intros Hincl. rewrite !existsByDetails_hits. unfold hits.
  intros [H | [H | H]]; destruct H as (e & Hin & He);
    [left | right; left | right; right]; exists e; auto.
Qed.

(** An entry answers for itself. *)
Lemma existsByDetails_self token ms :
  In token ms -> existsByDetails token ms = true.
Proof.
  intros Hin. apply existsByDetails_hits. right. right.
  exists token. split; [assumption | reflexivity].
Qed.

Lemma not_exists_no_id token ms :
  existsByDetails token ms = false ->
  forall e, In e ms -> MigratedToken.id e <> MigratedToken.id token.
Proof.
  intros Hf e Hin Heq.
  assert (existsByDetails token ms = true) as Ht.
  { apply existsByDetails_hits. right. right. exists e.
    split; [assumption | symmetry; exact Heq]. }
  congruence.
Qed.

Lemma existsByDetails_nil token : existsByDetails token [] = false.
Proof.
  unfold existsByDetails, matchTier. simpl. now rewrite andb_false_r.
Qed.

End Host.

End IdentityFacts.

(* ------------------------------------------------------------------ *)
(** ** The ledger as a list: upsert, order, uniqueness                  *)
(* ------------------------------------------------------------------ *)

Module UpsertFacts.
Import DatabaseManager Spec.

Lemma insertByDate_perm x l : Permutation (insertByDate x l) (x :: l).
Proof.
  induction l as [|y l IH]; simpl.
  - reflexivity.
  - destruct (MigratedToken.migrationDate x <? MigratedToken.migrationDate y)%Z.
    + rewrite IH. apply perm_swap.
    + reflexivity.
Qed.

Lemma sortByDate_perm l : Permutation (sortByDate l) l.
Proof.
  induction l as [|x l IH]; simpl.
  - reflexivity.
  - rewrite insertByDate_perm. now constructor.
Qed.

Lemma insertByDate_sorted x l :
  newestFirst l -> newestFirst (insertByDate x l).
Proof.
  unfold newestFirst. induction 1 as [|y l Hs IH Hy]; simpl.
  - repeat constructor.
  - destruct (MigratedToken.migrationDate x <? MigratedToken.migrationDate y)%Z
      eqn:Hlt.
    + apply Z.ltb_lt in Hlt. constructor; [exact IH|].
      eapply Permutation_Forall.
      * symmetry. apply insertByDate_perm.
      * constructor; [lia | exact Hy].
    + apply Z.ltb_ge in Hlt. constructor.
      * now constructor.
      * constructor; [lia|].
        eapply Forall_impl; [|exact Hy]. simpl. intros b Hb. lia.
Qed.

Lemma sortByDate_sorted l : newestFirst (sortByDate l).
Proof.
  induction l as [|x l IH]; simpl.
  - constructor.
  - now apply insertByDate_sorted.
Qed.

(** The ledger after [saveMigration]: the entries with another id, and
    the token, in some order. *)
Lemma upsert_perm t ms :
  Permutation
    (upsert t ms)
    (filter (fun m => negb (MigratedToken.id m =? MigratedToken.id t)%string) ms
     ++ [t]).
Proof. apply sortByDate_perm. Qed.

Lemma upsert_In t ms e :
  In e (upsert t ms) <->
  e = t \/ (In e ms /\ MigratedToken.id e <> MigratedToken.id t).
Proof.
  rewrite (Permutation_in' (eq_refl e) (upsert_perm t ms)).
  rewrite in_app_iff, filter_In, negb_true_iff, String.eqb_neq.
  simpl. intuition congruence.
Qed.

Lemma upsert_sorted t ms : newestFirst (upsert t ms).
Proof. apply sortByDate_sorted. Qed.

Lemma filter_ids_NoDup (f : MigratedToken.t -> bool) ms :
  uniqueIds ms -> uniqueIds (filter f ms).
Proof.
  unfold uniqueIds. induction ms as [|m ms IH]; simpl; intros H.
  - constructor.
  - inversion H as [|? ? Hnin Hnd]; subst.
    destruct (f m); simpl; auto.
    constructor; auto.
    intros Hin. apply Hnin.
    apply in_map_iff in Hin as (e & He & Hin).
    apply filter_In in Hin as [Hin _].
    apply in_map_iff. eauto.
Qed.

Lemma upsert_unique t ms : uniqueIds ms -> uniqueIds (upsert t ms).
Proof.
  intros H. unfold uniqueIds.
  eapply Permutation_NoDup.
  - symmetry. apply Permutation_map. apply upsert_perm.
  - rewrite map_app. simpl.
    apply (Permutation_NoDup (l := MigratedToken.id t :: map MigratedToken.id
             (filter (fun m => negb (MigratedToken.id m =? MigratedToken.id t)%string) ms))).
    + apply Permutation_cons_append.
    + constructor.
      * intros Hin. apply in_map_iff in Hin as (e & He & Hin).
        apply filter_In in Hin as [_ Hne].
        apply negb_true_iff, String.eqb_neq in Hne. congruence.
      * now apply filter_ids_NoDup.
Qed.

(** When no entry carries the token's id, [saveMigration] only adds. *)
Lemma upsert_incl t ms :
  (forall e, In e ms -> MigratedToken.id e <> MigratedToken.id t) ->
  incl ms (upsert t ms).
Proof.
  intros Hne e Hin. apply upsert_In. right. auto.
Qed.

Lemma upsert_self t ms : In t (upsert t ms).
Proof. apply upsert_In. now left. Qed.

End UpsertFacts.

(* ------------------------------------------------------------------ *)
(** ** The store's methods, run                                         *)
(* ------------------------------------------------------------------ *)

Module StoreFacts.
Import DatabaseManager Spec UpsertFacts IdentityFacts.

Lemma tryCatch_throw A (c : Op A) w : tryCatch c throw w = c w.
Proof.
  unfold tryCatch, throw. destruct (c w) as [w' [a|]]; reflexivity.
Qed.

Lemma holdsLedger_dec w : holdsLedger w \/ ~ holdsLedger w.
Proof.
  unfold holdsLedger. destruct (data w) as [|m|d].
  - right. intros [d H]. discriminate.
  - right. intros [d H]. discriminate.
  - left. now exists d.
Qed.

Lemma not_holdsLedger_ledger w : ~ holdsLedger w -> ledger w = [].
Proof.
  unfold holdsLedger, ledger. destruct (data w) as [|m|d]; try reflexivity.
  intros H. elim H. now exists d.
Qed.

(** What a write leaves behind. *)
Lemma fsWriteFile_returned c w w' :
  fsWriteFile c w = (w', Returned tt) ->
  w' = mkWorld (data w)
               (mkFs true (mkdirAllowed (disk w)) (Some c) true
                     (writeFailure (disk w)))
               (clock w) (reads w)
  /\ dirExists (disk w) = true /\ writeAllowed (disk w) = true.
Proof.
  unfold fsWriteFile.
  destruct (dirExists (disk w)), (writeAllowed (disk w)),
           (writeFailure (disk w));
    intros H; inversion H; auto.
Qed.

Lemma fsWriteFile_thrown c w w' :
  fsWriteFile c w = (w', Thrown) ->
  data w' = data w /\ clock w' = clock w /\ reads w' = reads w
  /\ (disk w' = disk w
      \/ (dirExists (disk w) = true /\ writeFailure (disk w) = AfterOpen
          /\ disk w' = mkFs true (mkdirAllowed (disk w)) (Some Unparsable)
                            false AfterOpen)
      \/ (dirExists (disk w) = true /\ writeFailure (disk w) = AtClose
          /\ disk w' = mkFs true (mkdirAllowed (disk w)) (Some c)
                            false AtClose)).
Proof.
  unfold fsWriteFile.
  destruct (dirExists (disk w)) eqn:Hd, (writeAllowed (disk w)),
           (writeFailure (disk w));
    intros H; inversion H; subst; simpl;
    repeat (split; [reflexivity|]); auto 7.
Qed.

Lemma fsWriteFile_data c w : data (fst (fsWriteFile c w)) = data w.
Proof.
  unfold fsWriteFile.
  destruct (dirExists (disk w)), (writeAllowed (disk w)),
           (writeFailure (disk w)); reflexivity.
Qed.

(** [saveData] stamps the state and writes it; it throws with the
    stamp set when the write fails, and before anything when
    [this.data] is no object. *)
Lemma saveData_run w :
  saveData w =
  match data w with
  | NotAnObject =>
      (mkWorld NotAnObject (disk w) (clock w) (S (reads w)), Thrown)
  | h =>
      fsWriteFile (Snapshot (stamped h (clock w (reads w))))
                  (mkWorld (stamped h (clock w (reads w)))
                           (disk w) (clock w) (S (reads w)))
  end.
Proof.
  unfold saveData. rewrite tryCatch_throw.
  unfold bind, now, setLastUpdated, getData. simpl.
  destruct (data w) as [|m|d]; reflexivity.
Qed.

Lemma saveData_data w :
  data (fst (saveData w)) = stamped (data w) (clock w (reads w)).
Proof.
  rewrite saveData_run. destruct (data w) as [|m|d]; try reflexivity;
    now rewrite fsWriteFile_data.
Qed.

Lemma ledgerOf_stamped h t : ledgerOf (stamped h t) = ledgerOf h.
Proof. destruct h; reflexivity. Qed.

Lemma saveData_ledger w : ledger (fst (saveData w)) = ledger w.
Proof. unfold ledger. now rewrite saveData_data, ledgerOf_stamped. Qed.

Lemma stamped_holds h t :
  (exists d, stamped h t = Ledger d) <-> (exists d, h = Ledger d).
Proof.
  destruct h as [|m|d]; simpl; split; intros [d' H]; try discriminate;
    eauto.
Qed.

Lemma saveData_holds w : holdsLedger (fst (saveData w)) <-> holdsLedger w.
Proof. unfold holdsLedger. rewrite saveData_data. apply stamped_holds. Qed.

Lemma saveData_returned w w' :
  saveData w = (w', Returned tt) ->
  flushed w' /\ dirExists (disk w') = true /\ writeAllowed (disk w') = true
  /\ data w <> NotAnObject.
Proof.
  rewrite saveData_run. destruct (data w) as [|m|d] eqn:Hd;
    [discriminate| |];
    intros H; apply fsWriteFile_returned in H as (-> & _ & _);
    repeat split; discriminate.
Qed.

(** A failed [saveData] leaves the file as it was, or no JSON, or
    holding the state in memory. *)
Lemma saveData_thrown w w' :
  saveData w = (w', Thrown) ->
  disk w' = disk w
  \/ (dirExists (disk w) = true /\ writeFailure (disk w) = AfterOpen
      /\ disk w' = mkFs true (mkdirAllowed (disk w)) (Some Unparsable)
                        false AfterOpen)
  \/ (writeFailure (disk w) = AtClose
      /\ flushed w' /\ dirExists (disk w') = true).
Proof.
  rewrite saveData_run.
  assert (Hw : forall h w0,
             data w0 = h -> disk w0 = disk w ->
             fsWriteFile (Snapshot h) w0 = (w', Thrown) ->
             disk w' = disk w
             \/ (dirExists (disk w) = true /\ writeFailure (disk w) = AfterOpen
                 /\ disk w' = mkFs true (mkdirAllowed (disk w)) (Some Unparsable)
                                   false AfterOpen)
             \/ (writeFailure (disk w) = AtClose
                 /\ flushed w' /\ dirExists (disk w') = true)).
  { intros h w0 Hh Hd H.
    apply fsWriteFile_thrown in H as (Hdata & _ & _ & H).
    rewrite Hd in H.
    destruct H as [H | [H | (H1 & H2 & H3)]]; [now left | right; now left |].
    right. right. split; [exact H2|]. unfold flushed.
    rewrite H3, Hdata, Hh. split; reflexivity. }
  destruct (data w) as [|m|d].
  - intros H. inversion H. now left.
  - apply Hw; reflexivity.
  - apply Hw; reflexivity.
Qed.

(** [saveMigration] on a store that holds a ledger ... *)
Lemma saveMigration_run t w d :
  data w = Ledger d ->
  saveMigration t w =
  saveData (mkWorld (Ledger (mkData (upsert t (migrations d)) (lastUpdated d)))
                    (disk w) (clock w) (reads w)).
Proof.
  intros Hd. unfold saveMigration. rewrite tryCatch_throw.
  unfold bind, updateMigrations. now rewrite Hd.
Qed.

(** ... and on one that does not: the [filter] throws, nothing is
    touched. *)
Lemma saveMigration_malformed t w :
  ~ holdsLedger w -> saveMigration t w = (w, Thrown).
Proof.
  intros Hn. unfold saveMigration. rewrite tryCatch_throw.
  unfold bind, updateMigrations, holdsLedger in *.
  destruct (data w) as [|m|d]; try reflexivity.
  elim Hn. now exists d.
Qed.

Lemma saveMigration_ledger t w :
  holdsLedger w ->
  ledger (fst (saveMigration t w)) = upsert t (ledger w).
Proof.
  intros [d Hd]. rewrite (saveMigration_run t w Hd), saveData_ledger.
  unfold ledger. now rewrite Hd.
Qed.

Lemma saveMigration_holds t w :
  holdsLedger (fst (saveMigration t w)) <-> holdsLedger w.
Proof.
  destruct (holdsLedger_dec w) as [[d Hd] | Hn].
  - rewrite (saveMigration_run t w Hd), saveData_holds.
    unfold holdsLedger. simpl. split; eauto.
  - now rewrite (saveMigration_malformed t Hn).
Qed.

(** A [saveMigration] that returns was made on a ledger. *)
Lemma saveMigration_returned t w w' :
  saveMigration t w = (w', Returned tt) ->
  holdsLedger w /\ holdsLedger w' /\ ledger w' = upsert t (ledger w)
  /\ flushed w' /\ dirExists (disk w') = true.
Proof.
  intros H. destruct (holdsLedger_dec w) as [Hh | Hn].
  - split; [exact Hh|].
    pose proof (saveMigration_ledger t Hh) as Hl.
    pose proof (proj2 (saveMigration_holds t w) Hh) as Hh'.
    rewrite H in Hl, Hh'. simpl in Hl, Hh'.
    split; [exact Hh'|]. split; [exact Hl|].
    destruct Hh as [d Hd]. rewrite (saveMigration_run t w Hd) in H.
    apply saveData_returned in H. tauto.
  - rewrite (saveMigration_malformed t Hn) in H. discriminate.
Qed.

Lemma clearDatabase_run w :
  clearDatabase w =
  saveData (mkWorld (Ledger (mkData [] (clock w (reads w))))
                    (disk w) (clock w) (S (reads w))).
Proof.
  unfold clearDatabase. rewrite tryCatch_throw. reflexivity.
Qed.

Lemma clearDatabase_ledger w :
  holdsLedger (fst (clearDatabase w)) /\ ledger (fst (clearDatabase w)) = [].
Proof.
  rewrite clearDatabase_run. split.
  - apply saveData_holds. eexists. reflexivity.
  - now rewrite saveData_ledger.
Qed.

Lemma wellKeptHeld_stamped h t : wellKeptHeld h -> wellKeptHeld (stamped h t).
Proof.
  intros (d & -> & Hu & Hs). eexists. split; [reflexivity|]. split; assumption.
Qed.

Lemma saveData_kept w : kept w -> kept (fst (saveData w)).
Proof.
  intros [Hd Hf].
  destruct (saveData w) as [w' [[]|]] eqn:Hrun.
  - pose proof (saveData_data w) as Hdata. rewrite Hrun in Hdata.
    simpl in *. apply saveData_returned in Hrun as (Hfl & _).
    assert (Hk : wellKeptHeld (data w'))
      by (rewrite Hdata; now apply wellKeptHeld_stamped).
    split; [exact Hk|].
    intros h Hfile. unfold flushed in Hfl. rewrite Hfl in Hfile.
    inversion Hfile; subst. exact Hk.
  - pose proof (saveData_data w) as Hdata. rewrite Hrun in Hdata.
    simpl in *. split.
    + rewrite Hdata. now apply wellKeptHeld_stamped.
    + assert (Hk : wellKeptHeld (data w'))
        by (rewrite Hdata; now apply wellKeptHeld_stamped).
      apply saveData_thrown in Hrun as [-> | [(_ & _ & ->) | (_ & Hfl & _)]];
        [exact Hf | intros h Hfile; discriminate Hfile |].
      intros h Hfile. unfold flushed in Hfl. rewrite Hfl in Hfile.
      inversion Hfile; subst. exact Hk.
Qed.

Lemma saveMigration_kept t w : kept w -> kept (fst (saveMigration t w)).
Proof.
  intros [(d & Hd & Hu & Hs) Hf]. rewrite (saveMigration_run t w Hd).
  apply saveData_kept. split; [|exact Hf].
  eexists. split; [reflexivity|]. split; simpl.
  - now apply upsert_unique.
  - apply upsert_sorted.
Qed.

Lemma empty_wellKept t : wellKept (mkData [] t).
Proof. split; constructor. Qed.

Lemma clearDatabase_kept w : kept w -> kept (fst (clearDatabase w)).
Proof.
  intros [_ Hf]. rewrite clearDatabase_run. apply saveData_kept.
  split; [|exact Hf]. eexists. split; [reflexivity | apply empty_wellKept].
Qed.

Lemma close_run w : fst (close w) = fst (saveData w).
Proof.
  unfold close, tryCatch, ret. destruct (saveData w) as [w' [[]|]]; reflexivity.
Qed.

(** [initialize], case by case. *)
Lemma initialize_run w :
  initialize w =
  if dirExists (disk w) || mkdirAllowed (disk w) then
    match file (disk w) with
    | Some (Snapshot (Ledger d)) =>
        (mkWorld (Ledger d) (dirEnsured (disk w)) (clock w) (reads w),
         Returned tt)
    | Some (Snapshot (NoLedger Scalar)) =>
        (mkWorld (NoLedger Scalar) (dirEnsured (disk w)) (clock w) (reads w),
         Returned tt)
    | Some (Snapshot h) =>
        saveData (mkWorld h (dirEnsured (disk w)) (clock w) (reads w))
    | _ => saveData (mkWorld (data w) (dirEnsured (disk w)) (clock w) (reads w))
    end
  else (w, Thrown).
Proof.
  unfold initialize, dirEnsured. rewrite tryCatch_throw.
  unfold bind, tryCatch, fsAccess, fsMkdir, fsReadFile, jsonParse.
  destruct w as [h [de ma f wa wf] clk n]; simpl.
  destruct de, ma; simpl; try reflexivity;
    destruct f as [[|[|[|]|d']]|]; simpl; try reflexivity;
    unfold bind, setData, readLength, ret, throw; simpl;
    match goal with |- context [saveData ?x] => destruct (saveData x) as [? [[]|]] end;
    reflexivity.
Qed.

Lemma dirEnsured_file fs : file (dirEnsured fs) = file fs.
Proof. unfold dirEnsured. destruct (dirExists fs); reflexivity. Qed.

Lemma dirEnsured_exists fs :
  dirExists fs || mkdirAllowed fs = true -> dirExists (dirEnsured fs) = true.
Proof.
  unfold dirEnsured. destruct (dirExists fs) eqn:H; simpl; auto.
Qed.

Lemma dirEnsured_wellKept fs : diskWellKept fs -> diskWellKept (dirEnsured fs).
Proof.
  unfold diskWellKept. intros H h. rewrite dirEnsured_file. apply H.
Qed.

Lemma initialize_kept w : kept w -> kept (fst (initialize w)).
Proof.
  intros [Hd Hf]. rewrite initialize_run.
  destruct (dirExists (disk w) || mkdirAllowed (disk w)); [|now split].
  pose proof (dirEnsured_wellKept Hf) as Hfs.
  destruct (file (disk w)) as [[|h]|] eqn:Hfile.
  - apply saveData_kept. now split.
  - destruct (Hf h Hfile) as (d & -> & Hk).
    simpl. split; [|exact Hfs]. now exists d.
  - apply saveData_kept. now split.
Qed.

Lemma create_kept fs clk n : diskWellKept fs -> kept (create fs clk n).
Proof.
  intros Hf. split; [|exact Hf].
  eexists. split; [reflexivity | apply empty_wellKept].
Qed.

Lemma perform_kept c w : kept w -> kept (fst (perform c w)).
Proof.
  intros H. destruct c; simpl.
  - now apply initialize_kept.
  - now apply saveMigration_kept.
  - now apply clearDatabase_kept.
  - rewrite close_run. now apply saveData_kept.
  - apply create_kept. apply H.
Qed.

Lemma performAll_kept cs : forall w, kept w -> kept (performAll cs w).
Proof.
  induction cs as [|c cs IH]; simpl; intros w H.
  - exact H.
  - apply IH. now apply perform_kept.
Qed.

Lemma kept_ledger w :
  kept w -> holdsLedger w /\ uniqueIds (ledger w) /\ newestFirst (ledger w).
Proof.
  intros [(d & Hd & Hu & Hs) _]. unfold holdsLedger, ledger. rewrite Hd.
  split; [now exists d|]. split; assumption.
Qed.

(** When [initialize] returns, the file holds the state in memory, in a
    directory that exists, and that state is an object. *)
Lemma initialize_returned w w' :
  initialize w = (w', Returned tt) ->
  flushed w' /\ dirExists (disk w') = true /\ data w' <> NotAnObject
  /\ (data w' = NoLedger Nullish -> writeAllowed (disk w') = true).
Proof.
  rewrite initialize_run.
  destruct (dirExists (disk w) || mkdirAllowed (disk w)) eqn:Hdir;
    [|discriminate].
  pose proof (dirEnsured_exists _ Hdir) as Hex.
  pose proof (dirEnsured_file (disk w)) as Hfl.
  assert (Hsave : forall h,
             saveData (mkWorld h (dirEnsured (disk w)) (clock w) (reads w))
             = (w', Returned tt) ->
             flushed w' /\ dirExists (disk w') = true
             /\ data w' <> NotAnObject
             /\ (data w' = NoLedger Nullish -> writeAllowed (disk w') = true)).
  { intros h H. pose proof (saveData_data (mkWorld h (dirEnsured (disk w)) (clock w) (reads w))) as Hdata.
    rewrite H in Hdata. simpl in Hdata.
    apply saveData_returned in H as (H1 & H2 & H3 & H4). simpl in H4.
    repeat split; auto.
    rewrite Hdata. destruct h; simpl; try discriminate. now elim H4. }
  destruct (file (disk w)) as [[|[|[|]|d]]|] eqn:Hfile; try apply Hsave.
  - intros H. inversion H; subst. unfold flushed. simpl.
    rewrite Hfl. repeat split; auto; discriminate.
  - intros H. inversion H; subst. unfold flushed. simpl.
    rewrite Hfl. repeat split; auto; discriminate.
Qed.

(** A new store on storage that is missing or is no JSON keeps the
    empty ledger of its constructor, whether the fresh snapshot can be
    written or not. *)
Lemma initialize_unparsable_ledger fs clk n :
  missingOrUnparsable fs ->
  holdsLedger (fst (initialize (create fs clk n)))
  /\ ledger (fst (initialize (create fs clk n))) = [].
Proof.
  intros Hbad. rewrite initialize_run. unfold create. simpl.
  destruct (dirExists fs || mkdirAllowed fs);
    [|split; [eexists|]; reflexivity].
  assert (Hs : forall w, data w = Ledger (mkData [] (clk n)) ->
                 holdsLedger (fst (saveData w))
                 /\ ledger (fst (saveData w)) = []).
  { intros w Hd. split.
    - apply saveData_holds. eexists. exact Hd.
    - rewrite saveData_ledger. unfold ledger. now rewrite Hd. }
  destruct Hbad as [-> | ->]; now apply Hs.
Qed.

(** The lookups never throw and never touch the store. *)
Section Host.
Context {host : JS.CaseMapping}.

Lemma migrationExistsByDetails_run token w :
  migrationExistsByDetails token w
  = (w, Returned (existsByDetails token (ledger w))).
Proof.
  unfold migrationExistsByDetails, tryCatch, bind, getMigrations, ret, ledger.
  destruct (data w) as [|m|d]; simpl; try reflexivity;
    now rewrite existsByDetails_nil.
Qed.

End Host.

Lemma migrationExists_run id w :
  migrationExists id w
  = (w, Returned (existsb (fun m => (MigratedToken.id m =? id)%string)
                          (ledger w))).
Proof.
  unfold migrationExists, tryCatch, bind, getMigrations, ret, ledger.
  destruct (data w) as [|m|d]; reflexivity.
Qed.

Lemma getRecentMigrations_run limit w :
  getRecentMigrations limit w = (w, Returned (firstn limit (ledger w))).
Proof.
  unfold getRecentMigrations, tryCatch, bind, getMigrations, ret, ledger.
  destruct (data w) as [|m|d]; simpl; try reflexivity;
    now rewrite firstn_nil.
Qed.

End StoreFacts.

(* ------------------------------------------------------------------ *)
(** ** The check cycle, run                                             *)
(* ------------------------------------------------------------------ *)

Module CycleFacts.
Import DatabaseManager BagsFmBot Spec UpsertFacts IdentityFacts StoreFacts.

Section Host.
Context {host : JS.CaseMapping}.

Lemma checkLoop_cons launch rest acc w :
  checkLoop (launch :: rest) acc w =
  if existsByDetails launch (ledger w)
  then checkLoop rest acc w
  else match saveMigration launch w with
       | (w1, Returned _) => checkLoop rest (acc ++ [launch]) w1
       | (w1, Thrown) => (w1, Thrown)
       end.
Proof.
  simpl. unfold bind at 1. rewrite migrationExistsByDetails_run.
  destruct (existsByDetails launch (ledger w)); simpl.
  - reflexivity.
  - unfold bind. destruct (saveMigration launch w) as [w1 [[]|]]; reflexivity.
Qed.

(** What [saveMigration] does to the ledger in memory: the upsert, or
    nothing at all when there is no ledger to filter. *)
Lemma saveMigration_outcome t w :
  (holdsLedger w /\ holdsLedger (fst (saveMigration t w))
   /\ ledger (fst (saveMigration t w)) = upsert t (ledger w))
  \/ (~ holdsLedger w /\ saveMigration t w = (w, Thrown)).
Proof.
  destruct (holdsLedger_dec w) as [Hh | Hn].
  - left. split; [exact Hh|]. split.
    + now apply saveMigration_holds.
    + now apply saveMigration_ledger.
  - right. split; [exact Hn|]. now apply saveMigration_malformed.
Qed.

(** Saving a token judged new removes nothing. *)
Lemma save_new_incl launch w :
  existsByDetails launch (ledger w) = false ->
  incl (ledger w) (ledger (fst (saveMigration launch w))).
Proof.
  intros Hnew.
  destruct (saveMigration_outcome launch w) as [(_ & _ & ->) | [_ ->]].
  - apply upsert_incl. now apply not_exists_no_id.
  - apply incl_refl.
Qed.

(** A cycle, finished or cut short, never loses an entry. *)
Lemma checkLoop_incl launches :
  forall acc w w' r,
    checkLoop launches acc w = (w', r) -> incl (ledger w) (ledger w').
Proof.
  induction launches as [|launch rest IH]; intros acc w w' r H.
  - inversion H; subst. apply incl_refl.
  - rewrite checkLoop_cons in H.
    destruct (existsByDetails launch (ledger w)) eqn:Hex.
    + eauto.
    + pose proof (save_new_incl launch w Hex) as Hincl.
      destruct (saveMigration launch w) as [w1 [[]|]]; simpl in Hincl.
      * eapply incl_tran; [exact Hincl|]. eauto.
      * inversion H; subst. exact Hincl.
Qed.

(** A cycle keeps a ledger a ledger, and a store without one without. *)
Lemma checkLoop_holds launches :
  forall acc w w' r,
    checkLoop launches acc w = (w', r) -> (holdsLedger w' <-> holdsLedger w).
Proof.
  induction launches as [|launch rest IH]; intros acc w w' r H.
  - inversion H; subst. tauto.
  - rewrite checkLoop_cons in H.
    destruct (existsByDetails launch (ledger w)).
    + eauto.
    + pose proof (saveMigration_holds launch w) as Hh.
      destruct (saveMigration launch w) as [w1 [[]|]]; simpl in Hh.
      * rewrite <- Hh. eauto.
      * inversion H; subst. exact Hh.
Qed.

(** After a cycle that ran to its end, every fetched token is known. *)
Lemma checkLoop_all_known launches :
  forall acc w w' sent,
    checkLoop launches acc w = (w', Returned sent) ->
    forall t, In t launches -> existsByDetails t (ledger w') = true.
Proof.
  induction launches as [|launch rest IH]; intros acc w w' sent H t Hin.
  - destruct Hin.
  - rewrite checkLoop_cons in H.
    destruct (existsByDetails launch (ledger w)) eqn:Hex.
    + destruct Hin as [<- | Hin]; [|eauto].
      eapply existsByDetails_incl; [|exact Hex].
      eapply checkLoop_incl; eauto.
    + destruct (saveMigration launch w) as [w1 [[]|]] eqn:Hsave;
        [|discriminate].
      apply saveMigration_returned in Hsave as (_ & _ & Hms & _).
      destruct Hin as [<- | Hin]; [|eauto].
      eapply existsByDetails_incl.
      * eapply checkLoop_incl; eauto.
      * apply existsByDetails_self. rewrite Hms. apply upsert_self.
Qed.

(** A cycle over tokens that are all known changes nothing. *)
Lemma checkLoop_all_known_noop launches :
  forall acc w,
    (forall t, In t launches -> existsByDetails t (ledger w) = true) ->
    checkLoop launches acc w = (w, Returned acc).
Proof.
  induction launches as [|launch rest IH]; intros acc w Hall.
  - reflexivity.
  - rewrite checkLoop_cons, (Hall launch (or_introl eq_refl)).
    apply IH. intros t Hin. apply Hall. now right.
Qed.

(** A token the ledger already answers for is neither saved nor sent by
    a cycle, and stays answered for. *)
Lemma checkLoop_known_token t launches :
  forall acc w w' r,
    existsByDetails t (ledger w) = true ->
    checkLoop launches acc w = (w', r) ->
    existsByDetails t (ledger w') = true
    /\ (In t (ledger w') -> In t (ledger w))
    /\ (forall sent, r = Returned sent -> In t sent -> In t acc).
Proof.
  induction launches as [|launch rest IH]; intros acc w w' r Hk H.
  - inversion H; subst. repeat split; auto.
    intros sent Hs. now inversion Hs.
  - rewrite checkLoop_cons in H.
    destruct (existsByDetails launch (ledger w)) eqn:Hex.
    + eauto.
    + assert (Hne : t <> launch) by congruence.
      pose proof (save_new_incl launch w Hex) as Hincl.
      assert (Hback : In t (ledger (fst (saveMigration launch w))) ->
                      In t (ledger w)).
      { destruct (saveMigration_outcome launch w) as [(_ & _ & ->) | [_ ->]];
          [|auto].
        intros Hin. apply upsert_In in Hin.
        destruct Hin as [-> | [Hin _]]; [now elim Hne | exact Hin]. }
      destruct (saveMigration launch w) as [w1 [[]|]]; simpl in Hincl, Hback.
      * assert (Hk1 : existsByDetails t (ledger w1) = true)
          by (eapply existsByDetails_incl; eauto).
        destruct (IH _ _ _ _ Hk1 H) as (H1 & H2 & H3).
        split; [exact H1|]. split.
        -- intros Hin. auto.
        -- intros sent Hr Hin. specialize (H3 sent Hr Hin).
           apply in_app_or in H3. destruct H3 as [H3 | [H3 | []]];
             [exact H3 | now elim Hne].
      * inversion H; subst. split; [|split].
        -- eapply existsByDetails_incl; eauto.
        -- exact Hback.
        -- discriminate.
Qed.

Lemma cycle_known_token t launches w :
  existsByDetails t (ledger w) = true ->
  existsByDetails t (ledger (fst (checkForNewMigrations launches w))) = true
  /\ (In t (ledger (fst (checkForNewMigrations launches w))) -> In t (ledger w))
  /\ ~ In t (snd (checkForNewMigrations launches w)).
Proof.
  intros Hk. unfold checkForNewMigrations.
  destruct (checkLoop launches [] w) as [w' r] eqn:Hrun.
  destruct (checkLoop_known_token t launches [] w Hk Hrun) as (H1 & H2 & H3).
  destruct r as [sent|]; simpl; repeat split; auto.
  intros Hin. exact (H3 sent eq_refl Hin).
Qed.

Lemma runCycles_known_token t fetches :
  forall w,
    existsByDetails t (ledger w) = true ->
    (In t (ledger (fst (runCycles fetches w))) -> In t (ledger w))
    /\ (forall sent, In sent (snd (runCycles fetches w)) -> ~ In t sent).
Proof.
  induction fetches as [|launches later IH]; intros w Hk; simpl.
  - split; [auto | intros sent []].
  - destruct (cycle_known_token t launches w Hk) as (H1 & H2 & H3).
    destruct (checkForNewMigrations launches w) as [w1 sent1]; simpl in *.
    destruct (IH w1 H1) as [H4 H5].
    destruct (runCycles later w1) as [w2 sents]; simpl in *.
    split; [auto|].
    intros sent [<- | Hin]; auto.
Qed.

(** Without a ledger in memory a cycle changes nothing and sends
    nothing: the look-up answers [false] for the first token and
    [saveMigration] throws on it. *)
Lemma checkLoop_malformed launches acc w :
  ~ holdsLedger w ->
  checkLoop launches acc w
  = (w, match launches with [] => Returned acc | _ => Thrown end).
Proof.
  intros Hn. destruct launches as [|launch rest]; [reflexivity|].
  rewrite checkLoop_cons, (not_holdsLedger_ledger Hn), existsByDetails_nil.
  now rewrite (saveMigration_malformed launch Hn).
Qed.

Lemma cycle_malformed launches w :
  ~ holdsLedger w -> checkForNewMigrations launches w = (w, []).
Proof.
  intros Hn. unfold checkForNewMigrations.
  rewrite (checkLoop_malformed launches [] Hn).
  destruct launches; reflexivity.
Qed.

Lemma runCycles_malformed fetches w :
  ~ holdsLedger w ->
  List.concat (snd (runCycles fetches w)) = []
  /\ ledger (fst (runCycles fetches w)) = [].
Proof.
  intros Hn. induction fetches as [|launches later IH]; simpl.
  - split; [reflexivity | now apply not_holdsLedger_ledger].
  - rewrite (cycle_malformed launches Hn).
    destruct (runCycles later w) as [w2 sents]. simpl in *. exact IH.
Qed.

End Host.

End CycleFacts.

(* ------------------------------------------------------------------ *)
(** ** The normalizer, field by field                                   *)
(* ------------------------------------------------------------------ *)

Module ScraperFacts.
Import JS Scraper Spec.

Lemma truthyNum_present x : truthyNum x = true <-> presentNonZero x.
Proof.
  unfold presentNonZero. destruct x as [q|]; simpl.
  - rewrite negb_true_iff. split.
    + intros H. exists q. split; [reflexivity|].
      intros Heq. apply Qeq_bool_iff in Heq. congruence.
    + intros (q' & Hq & Hne). inversion Hq; subst.
      apply not_true_is_false. intros Heq. apply Hne.
      now apply Qeq_bool_iff.
  - split; [discriminate | intros (q & Hq & _); discriminate].
Qed.

Lemma truthyNum_absent x : truthyNum x = false <-> absentOrZero x.
Proof.
  destruct x as [q|]; simpl.
  - rewrite negb_false_iff. apply Qeq_bool_iff.
  - tauto.
Qed.

Lemma truthyTime_present f : truthyTime f = true <-> f <> NoTime.
Proof. destruct f; simpl; split; congruence. Qed.

(** The three cases of the market-cap derivation. *)
Lemma deriveMarketCap_cases token :
  (absentOrZero (BagsApiToken.marketCap token) ->
   forall p, BagsApiToken.price token = Some p -> ~ p == 0 ->
             deriveMarketCap token = Some (p * ASSUMED_SUPPLY))
  /\ (presentNonZero (BagsApiToken.marketCap token) ->
      deriveMarketCap token = BagsApiToken.marketCap token)
  /\ (absentOrZero (BagsApiToken.price token) ->
      deriveMarketCap token = BagsApiToken.marketCap token).
Proof.
  unfold deriveMarketCap. repeat split.
  - intros Hc p Hp Hne. apply truthyNum_absent in Hc.
    assert (Ht : truthyNum (BagsApiToken.price token) = true).
    { apply truthyNum_present. exists p. now split. }
    now rewrite Hc, Ht, Hp.
  - intros Hc. apply truthyNum_present in Hc. now rewrite Hc.
  - intros Hp. apply truthyNum_absent in Hp. rewrite Hp.
    now rewrite andb_false_r.
Qed.

Lemma threshold_not_zero m : MCAP_THRESHOLD <= m -> ~ m == 0.
Proof.
  intros Hle Heq. rewrite Heq in Hle. revert Hle.
  unfold MCAP_THRESHOLD, Qle. simpl. lia.
Qed.

(** [marketCap && marketCap >= 100000] is the inclusive comparison. *)
Lemma hasCrossed_reaches cap :
  GetNewMigrations.hasCrossed100kMcap cap = true <-> reachesThreshold cap.
Proof.
  unfold GetNewMigrations.hasCrossed100kMcap, reachesThreshold.
  rewrite andb_true_iff, truthyNum_present. unfold presentNonZero.
  destruct cap as [m|].
  - rewrite Qle_bool_iff. split.
    + intros [_ Hle]. eauto.
    + intros (m' & Hm & Hle). inversion Hm; subst. split; [|assumption].
      exists m'. split; [reflexivity|]. now apply threshold_not_zero.
  - split; [intros [_ H]; discriminate | intros (m & H & _); discriminate].
Qed.

Lemma hasCompletedBonding_signal token :
  GetNewMigrations.hasCompletedBonding token = true <-> bondingSignal token.
Proof.
  unfold GetNewMigrations.hasCompletedBonding, bondingSignal.
  rewrite !orb_true_iff, !truthyTime_present.
  assert (Hc : match BagsApiToken.bondingCurve token with
               | Some bc => BondingCurve.completed bc
               | None => false
               end = true <->
               exists bc, BagsApiToken.bondingCurve token = Some bc
                          /\ BondingCurve.completed bc = true).
  { destruct (BagsApiToken.bondingCurve token) as [bc|]; split.
    - intros H. eauto.
    - intros (bc' & Hbc & H). now inversion Hbc; subst.
    - discriminate.
    - intros (bc' & Hbc & _). discriminate. }
  assert (Hm : truthyBool (BagsApiToken.migrated token) = true <->
               BagsApiToken.migrated token = Some true).
  { destruct (BagsApiToken.migrated token) as [[|]|]; simpl; split;
      congruence. }
  rewrite Hc, Hm. tauto.
Qed.


Lemma hours_positive m c :
  (c < m)%Z -> 0 < inject_Z (m - c) / MS_PER_HOUR.
Proof.
  intros Hlt. apply Qlt_shift_div_l.
  - reflexivity.
  - rewrite Qmult_0_l. unfold Qlt. simpl. lia.
Qed.

(** The bonding duration of two dates. *)
Lemma computeBondingDuration_cases (m : Z) (created : Date) :
  ((exists c, created = Some c /\ (c < m)%Z) ->
   exists c, created = Some c /\ (c < m)%Z /\
             computeBondingDuration (Some m) created
             = Some (inject_Z (m - c) / MS_PER_HOUR))
  /\ (~ (exists c, created = Some c /\ (c < m)%Z) ->
      computeBondingDuration (Some m) created = None).
Proof.
  unfold computeBondingDuration, dateGt. split.
  - intros (c & -> & Hlt). exists c. repeat split; try assumption.
    apply Z.ltb_lt in Hlt. now rewrite Hlt.
  - intros Hn. destruct created as [c|]; [|reflexivity].
    destruct (c <? m)%Z eqn:Hlt; [|reflexivity].
    apply Z.ltb_lt in Hlt. elim Hn. eauto.
Qed.

Lemma getNew_buildMigration_fields nowM nowC token m :
  GetNewMigrations.buildMigration nowM nowC token = Some m -> builtFrom nowM nowC token m.
Proof.
  unfold GetNewMigrations.buildMigration, builtFrom.
  destruct (fst (resolveMigrationDate token nowM)) as [d|] eqn:Hd;
    [|discriminate].
  intros H. inversion H; subst; simpl. repeat split; reflexivity.
Qed.

Lemma getNew_parseToken_fields nowM nowC token m :
  GetNewMigrations.parseToken nowM nowC token = Parsed m -> builtFrom nowM nowC token m.
Proof.
  unfold GetNewMigrations.parseToken.
  destruct (negb (GetNewMigrations.hasCompletedBonding token)
            && negb (GetNewMigrations.hasCrossed100kMcap (deriveMarketCap token)));
    [discriminate|].
  destruct (GetNewMigrations.buildMigration nowM nowC token) as [m'|] eqn:Hb;
    [|discriminate].
  intros H. inversion H; subst. now apply getNew_buildMigration_fields.
Qed.

Lemma fetch_parseToken_fields nowM nowC stamp token m :
  FetchMigrations.parseToken nowM nowC stamp token = Parsed m ->
  builtFrom nowM nowC token m.
Proof.
  unfold FetchMigrations.parseToken, builtFrom.
  destruct (fst (resolveMigrationDate token nowM)) as [d|] eqn:Hd;
    [|discriminate].
  intros H. inversion H; subst; simpl. repeat split; reflexivity.
Qed.


(** The [getNewMigrations] revision: the filter, for a record the
    normalizer can build. *)
Lemma getNew_parseToken_qualifies nowM nowC token m :
  GetNewMigrations.buildMigration nowM nowC token = Some m ->
  (GetNewMigrations.parseToken nowM nowC token = Parsed m <->
   bondingSignal token \/ reachesThreshold (MigratedToken.marketCap m))
  /\ (GetNewMigrations.parseToken nowM nowC token = Skipped <->
      ~ (bondingSignal token \/ reachesThreshold (MigratedToken.marketCap m))).
Proof.
  intros Hb.
  destruct (getNew_buildMigration_fields _ _ _ Hb) as (_ & _ & Hcap & _).
  rewrite Hcap, <- hasCompletedBonding_signal, <- hasCrossed_reaches.
  unfold GetNewMigrations.parseToken. rewrite Hb.
  destruct (GetNewMigrations.hasCompletedBonding token),
           (GetNewMigrations.hasCrossed100kMcap (deriveMarketCap token)); simpl;
    split; split; intros H; try reflexivity; try discriminate;
      try tauto; intuition discriminate.
Qed.

(** The synthesized id of the [getNewMigrations] revision. *)
Lemma getNew_tokenId_synth token :
  truthyStr (BagsApiToken.tokenAddress token) = false ->
  GetNewMigrations.tokenId token =
  ("token" ++ stripNonAlnum (interpolate (BagsApiToken.symbol token))
           ++ stripNonAlnum (interpolate (BagsApiToken.name token)))%string.
Proof.
  intros Ha. unfold GetNewMigrations.tokenId. rewrite Ha.
  change ("token-" ++ interpolate (BagsApiToken.symbol token) ++ "-"
                   ++ interpolate (BagsApiToken.name token))%string
    with ("token" ++ ("-" ++ (interpolate (BagsApiToken.symbol token)
                   ++ ("-" ++ interpolate (BagsApiToken.name token)))))%string.
  rewrite !StringFacts.stripNonAlnum_app. reflexivity.
Qed.

End ScraperFacts.

(* ------------------------------------------------------------------ *)
(** ** Properties of the ledger store and of the check cycle            *)
(* ------------------------------------------------------------------ *)

Module LedgerProperties.
Import JS DatabaseManager BagsFmBot Spec Samples.
Import StringFacts IdentityFacts UpsertFacts StoreFacts CycleFacts.

(** C1 (cycle idempotence).  For any fetched sequence [launches] and any
    store, if the check cycle runs to its end (exists-check, record and
    notify for each token in order, no write error cutting it short),
    then it sends [sent1], and running the cycle again on the same
    sequence sends nothing and leaves the whole state (ledger,
    [lastUpdated], disk) exactly as the first run left it. *)
Theorem cycle_idempotent {host : CaseMapping} launches w w1 sent1 :
  checkLoop launches [] w = (w1, Returned sent1) ->
  checkForNewMigrations launches w = (w1, sent1)
  /\ checkForNewMigrations launches w1 = (w1, []).
Proof.
  intros Hrun. split.
  - unfold checkForNewMigrations. now rewrite Hrun.
  - unfold checkForNewMigrations.
    rewrite (checkLoop_all_known_noop launches [] w1); [reflexivity|].
    eapply checkLoop_all_known; eauto.
Qed.

Lemma cycle_idempotent_witness :
  let launches := [doge; dogeShouted; pepe; dogeClone] in
  let w1 := fst (@checkForNewMigrations asciiFolding launches started) in
  @checkForNewMigrations asciiFolding launches started = (w1, [doge; pepe])
  /\ @checkForNewMigrations asciiFolding launches w1 = (w1, []).
Proof.
  cbv zeta.
  apply (@cycle_idempotent asciiFolding [doge; dogeShouted; pepe; dogeClone]
                           started).
  vm_compute. reflexivity.
Defined.

(** Why C1 asks for a first run that reaches its end: on a disk that
    refuses writes, [saveMigration] throws after it has changed the ledger
    in memory, the cycle stops at the first new token and sends nothing,
    and the next cycle goes one token further. *)
Example cycle_cut_short_by_write_error :
  let run1 := @checkForNewMigrations asciiFolding [doge; pepe] startedReadOnly in
  let run2 := @checkForNewMigrations asciiFolding [doge; pepe] (fst run1) in
  snd run1 = [] /\ ledger (fst run1) = [doge]
  /\ snd run2 = [] /\ ledger (fst run2) = [pepe; doge].
Proof. vm_compute. repeat split; reflexivity. Qed.

(** C2 (tiered identity matching).  For every token and every state of
    the store, [migrationExistsByDetails] returns, without touching the
    state, [true] exactly when some entry matches by tier 1 (a contract
    address on both sides, equal up to case), tier 2 (symbol and name
    equal up to case) or tier 3 (equal ids); the tier that answers is
    the first in that order that some entry satisfies; an entry whose
    contract address has the lower-case form of the token's, or differs
    from it only in the case of letters A-Z, makes the answer [true];
    and on ASCII text, as addresses are, equal up to case means equal
    character by character up to the case of the letters A-Z. *)
Theorem exists_is_tiered_match {host : CaseMapping} token w :
  (exists b,
      migrationExistsByDetails token w = (w, Returned b)
      /\ (b = true <->
          hits tier1 token (ledger w) \/ hits tier2 token (ledger w)
          \/ hits tier3 token (ledger w)))
  /\ (matchTier token (ledger w) = Some ByContract <->
      hits tier1 token (ledger w))
  /\ (matchTier token (ledger w) = Some BySymbolName <->
      ~ hits tier1 token (ledger w) /\ hits tier2 token (ledger w))
  /\ (matchTier token (ledger w) = Some ById <->
      ~ hits tier1 token (ledger w) /\ ~ hits tier2 token (ledger w)
      /\ hits tier3 token (ledger w))
  /\ (forall a b entry,
         MigratedToken.contractAddress token = Some a -> a <> EmptyString ->
         In entry (ledger w) ->
         MigratedToken.contractAddress entry = Some b ->
         eqUpToAsciiCase a b \/ (eqIgnoreCase a b /\ b <> EmptyString) ->
         migrationExistsByDetails token w = (w, Returned true))
  /\ (forall a b,
         isAscii a = true -> isAscii b = true ->
         (eqIgnoreCase a b <-> eqUpToAsciiCase a b)).
Proof.
  destruct (matchTier_spec token (ledger w)) as (H1 & H2 & H3 & _).
  split; [|split; [exact H1 | split; [exact H2 | split; [exact H3|split]]]].
  - exists (existsByDetails token (ledger w)).
    split; [apply migrationExistsByDetails_run|].
    apply existsByDetails_hits.
  - intros a b entry Ha Hane Hin Hb Heq.
    assert (Hex : existsByDetails token (ledger w) = true).
    { apply existsByDetails_hits. left. exists entry. split; [exact Hin|].
      exists a, b.
      destruct Heq as [Heq | [Heq Hbne]].
      - repeat split; try assumption.
        + eapply eqUpToAsciiCase_nonempty; eauto.
        + now apply asciiCase_eqIgnoreCase.
      - repeat split; assumption. }
    rewrite migrationExistsByDetails_run. now rewrite Hex.
  - intros a b. apply ascii_eqIgnoreCase.
Qed.

Lemma exists_is_tiered_match_witness :
  @migrationExistsByDetails asciiFolding dogeShouted
    (fst (@checkForNewMigrations asciiFolding [doge] started))
  = (fst (@checkForNewMigrations asciiFolding [doge] started), Returned true).
Proof.
  apply (proj1 (proj2 (proj2 (proj2 (proj2
           (@exists_is_tiered_match asciiFolding dogeShouted
              (fst (@checkForNewMigrations asciiFolding [doge] started)))))))
           "ABCDEF123"%string "AbCdEf123"%string doge).
  - reflexivity.
  - discriminate.
  - vm_compute. left. reflexivity.
  - reflexivity.
  - left. apply lowerAscii_eqUpToAsciiCase. reflexivity.
Defined.

(** C7 (record upsert invariant).  For every state that holds a ledger
    and every token, [saveMigration] leaves the entries that carry
    another id together with the token, sorted newest first (on a state
    that holds none it throws and touches nothing); in every state the
    store reaches by [initialize], [saveMigration], [clearDatabase],
    [close] and restarts, from a disk that was missing, unparsable or
    well kept, the ledger holds at most one entry per id and is sorted
    by [migrationDate] descending; and when [initialize], [saveMigration]
    or [clearDatabase] returns, the file holds exactly the state in
    memory. *)
Theorem ledger_upsert_invariant :
  (forall t w,
      (holdsLedger w ->
       Permutation
         (ledger (fst (saveMigration t w)))
         (filter (fun m => negb (MigratedToken.id m =? MigratedToken.id t)%string)
                 (ledger w) ++ [t])
       /\ newestFirst (ledger (fst (saveMigration t w))))
      /\ (~ holdsLedger w -> saveMigration t w = (w, Thrown)))
  /\ (forall fs clk n calls,
         diskWellKept fs ->
         holdsLedger (performAll calls (create fs clk n))
         /\ uniqueIds (ledger (performAll calls (create fs clk n)))
         /\ newestFirst (ledger (performAll calls (create fs clk n))))
  /\ (forall call w w',
         call = Initialize \/ (exists t, call = SaveMigration t)
         \/ call = ClearDatabase ->
         perform call w = (w', Returned tt) -> flushed w').
Proof.
  split; [|split].
  - intros t w. split.
    + intros Hh. rewrite (saveMigration_ledger t Hh).
      split; [apply upsert_perm | apply upsert_sorted].
    + apply saveMigration_malformed.
  - intros fs clk n calls Hfs.
    apply kept_ledger. apply performAll_kept. now apply create_kept.
  - intros call w w' [-> | [(t & ->) | ->]]; simpl.
    + intros H. now apply initialize_returned in H.
    + intros H. now apply saveMigration_returned in H.
    + rewrite clearDatabase_run. intros H. now apply saveData_returned in H.
Qed.

Lemma ledger_upsert_invariant_witness :
  let calls := [Initialize; SaveMigration doge; SaveMigration pepe;
                SaveMigration doge; Restart; Initialize;
                SaveMigration dogeClone] in
  holdsLedger (performAll calls (create corruptDisk tick 0))
  /\ uniqueIds (ledger (performAll calls (create corruptDisk tick 0)))
  /\ newestFirst (ledger (performAll calls (create corruptDisk tick 0))).
Proof.
  cbv zeta.
  apply (proj1 (proj2 ledger_upsert_invariant) corruptDisk tick 0%nat).
  intros d Hd. discriminate Hd.
Defined.

(** Storage that is missing or is no JSON: [initialize] on a new store
    leaves an empty ledger in memory; when the data directory exists or
    can be made and the file can be written, it returns with a fresh
    snapshot of that empty state on disk; when the directory cannot be
    made or the write fails, it throws to its caller. *)
Lemma initialize_recovers fs clk n :
  missingOrUnparsable fs ->
  ledger (fst (initialize (create fs clk n))) = []
  /\ ((dirExists fs || mkdirAllowed fs) && writeAllowed fs = true ->
      exists w', initialize (create fs clk n) = (w', Returned tt)
                 /\ holdsLedger w' /\ ledger w' = [] /\ flushed w')
  /\ ((dirExists fs || mkdirAllowed fs) && writeAllowed fs = false ->
      snd (initialize (create fs clk n)) = Thrown).
Proof.
  intros Hbad.
  destruct fs as [de ma f wa wf].
  assert (Hf : f = None \/ f = Some Unparsable) by exact Hbad.
  destruct Hf as [-> | ->]; destruct de, ma, wa, wf; simpl;
    (split; [reflexivity|]);
    (split; [intros H; try discriminate H; eexists;
             repeat split; eexists; reflexivity
            | intros H; try discriminate H; reflexivity]).
Qed.

(** The file is no JSON, the disk refuses the write of the fresh
    snapshot, and [initialize] throws to its caller, [start], which
    throws to [main], which exits. *)
Lemma initialize_raises_on_unwritable_storage :
  missingOrUnparsable readOnlyCorruptDisk
  /\ snd (initialize (create readOnlyCorruptDisk tick 0)) = Thrown
  /\ file (disk (fst (initialize (create readOnlyCorruptDisk tick 0))))
     = Some Unparsable.
Proof.
  split; [right; reflexivity|]. split; reflexivity.
Qed.

(** C8 (corrupt-storage recovery), where the code departs from it.  The
    value [JSON.parse] returns is assigned to [this.data] before the log
    line reads [this.data.migrations.length]; when that read throws, the
    [catch] writes what [this.data] now holds instead of starting from an
    empty state.  So, on a disk that can be written: a file holding
    [null] (or a number, a string, a boolean) makes [initialize] throw,
    with the file left as it was; a file holding an object or array
    without a [migrations] array ([{}], [[]], [{ "migrations": 5 }])
    makes it return with that value in memory and on disk, no ledger,
    after which [saveMigration] throws on every token and no check cycle
    ever records or sends one. *)
Theorem initialize_keeps_malformed_storage fs clk n :
  (file fs = Some (Snapshot NotAnObject) ->
   snd (initialize (create fs clk n)) = Thrown
   /\ (dirExists fs || mkdirAllowed fs = true ->
       data (fst (initialize (create fs clk n))) = NotAnObject
       /\ file (disk (fst (initialize (create fs clk n))))
          = Some (Snapshot NotAnObject)))
  /\ (forall m,
         file fs = Some (Snapshot (NoLedger m)) ->
         (dirExists fs || mkdirAllowed fs) && writeAllowed fs = true ->
         exists w,
           initialize (create fs clk n) = (w, Returned tt)
           /\ data w = NoLedger m
           /\ file (disk w) = Some (Snapshot (NoLedger m))
           /\ ~ holdsLedger w
           /\ (forall t, saveMigration t w = (w, Thrown))
           /\ (forall (host : CaseMapping) fetches,
                  List.concat (snd (runCycles fetches w)) = []
                  /\ ledger (fst (runCycles fetches w)) = [])).
Proof.
  split.
  - intros Hfile. rewrite initialize_run. unfold create. simpl.
    rewrite Hfile.
    destruct (dirExists fs || mkdirAllowed fs); [|split; [reflexivity|discriminate]].
    rewrite saveData_run. simpl. split; [reflexivity|].
    intros _. split; [reflexivity|]. now rewrite dirEnsured_file.
  - intros m Hfile Hok.
    apply andb_true_iff in Hok as [Hdir Hwa].
    assert (Hrun : exists fs',
               initialize (create fs clk n)
               = (mkWorld (NoLedger m) fs' clk
                          (match m with Nullish => S (S n) | Scalar => S n end),
                  Returned tt)
               /\ file fs' = Some (Snapshot (NoLedger m))).
    { rewrite initialize_run. unfold create. simpl. rewrite Hfile, Hdir.
      destruct m.
      - rewrite saveData_run. simpl. unfold fsWriteFile. simpl.
        rewrite (dirEnsured_exists _ Hdir).
        assert (Hw : writeAllowed (dirEnsured fs) = true)
          by (unfold dirEnsured; destruct (dirExists fs); assumption).
        rewrite Hw. eexists. split; reflexivity.
      - eexists. split; [reflexivity|]. now rewrite dirEnsured_file. }
    destruct Hrun as (fs' & Hrun & Hfile').
    eexists. split; [exact Hrun|]. simpl.
    assert (Hn : ~ holdsLedger
                   (mkWorld (NoLedger m) fs' clk
                            (match m with Nullish => S (S n) | Scalar => S n end)))
      by (intros [d Hd]; discriminate Hd).
    split; [reflexivity|]. split; [exact Hfile'|]. split; [exact Hn|].
    split.
    + intros t. now apply saveMigration_malformed.
    + intros host fetches. now apply runCycles_malformed.
Qed.

(** C8 on the two files [null] and [{}], the disk accepting writes. *)
Example initialize_on_null_and_on_empty_object :
  snd (initialize (create nullDisk tick 0)) = Thrown
  /\ file (disk (fst (initialize (create nullDisk tick 0))))
     = Some (Snapshot NotAnObject)
  /\ snd (initialize (create emptyObjectDisk tick 0)) = Returned tt
  /\ data (fst (initialize (create emptyObjectDisk tick 0))) = NoLedger Nullish
  /\ @checkForNewMigrations asciiFolding [doge; pepe]
       (fst (initialize (create emptyObjectDisk tick 0)))
     = (fst (initialize (create emptyObjectDisk tick 0)), []).
Proof. vm_compute. repeat split; reflexivity. Qed.

(** C10 (the symbol-and-name tier applies to every token).  Whatever
    its contract address, a token for which some ledger entry has the
    same symbol and name up to letter case is judged a duplicate; when
    no entry shares its address the symbol-and-name tier is the one that
    answers; and through any sequence of check cycles from that state
    the token is never handed to the notifier and never enters the
    ledger. *)
Theorem symbol_name_tier_shadows_address {host : CaseMapping} token w :
  hits tier2 token (ledger w) ->
  migrationExistsByDetails token w = (w, Returned true)
  /\ (~ hits tier1 token (ledger w) ->
      matchTier token (ledger w) = Some BySymbolName)
  /\ (forall fetches,
         (forall sent, In sent (snd (runCycles fetches w)) -> ~ In token sent)
         /\ (In token (ledger (fst (runCycles fetches w))) ->
             In token (ledger w))).
Proof.
  intros Hhit.
  assert (Hex : existsByDetails token (ledger w) = true).
  { apply existsByDetails_hits. right. now left. }
  split; [|split].
  - rewrite migrationExistsByDetails_run. now rewrite Hex.
  - intros Hno. apply (proj1 (proj2 (matchTier_spec token (ledger w)))).
    now split.
  - intros fetches.
    destruct (runCycles_known_token token fetches w Hex) as [H1 H2].
    split; assumption.
Qed.

Lemma symbol_name_tier_shadows_address_witness :
  let w := fst (@checkForNewMigrations asciiFolding [doge] started) in
  @migrationExistsByDetails asciiFolding dogeClone w = (w, Returned true)
  /\ (~ hits (@tier1 asciiFolding) dogeClone (ledger w) ->
      @matchTier asciiFolding dogeClone (ledger w) = Some BySymbolName)
  /\ (forall fetches,
         (forall sent, In sent (snd (@runCycles asciiFolding fetches w)) ->
                       ~ In dogeClone sent)
         /\ (In dogeClone (ledger (fst (@runCycles asciiFolding fetches w))) ->
             In dogeClone (ledger w))).
Proof.
  cbv zeta.
  apply (@symbol_name_tier_shadows_address asciiFolding dogeClone
           (fst (@checkForNewMigrations asciiFolding [doge] started))).
  exists doge. split.
  - vm_compute. left. reflexivity.
  - split; reflexivity.
Defined.

End LedgerProperties.

(* ------------------------------------------------------------------ *)
(** ** Properties of the normalizer and of the qualification filter     *)
(* ------------------------------------------------------------------ *)

Module NormalizerProperties.
Import JS Scraper Spec Samples ScraperFacts.

(** The [getNewMigrations] revision implements the qualification
    predicate: a record the normalizer can build is pushed exactly when
    a bonding-completion signal is present or its market cap, after
    derivation, is at least 100000; otherwise it is skipped, not
    failed. *)
Lemma getNewMigrations_qualification nowM nowC token m :
  GetNewMigrations.buildMigration nowM nowC token = Some m ->
  (GetNewMigrations.parseToken nowM nowC token = Parsed m <->
   bondingSignal token \/ reachesThreshold (MigratedToken.marketCap m))
  /\ (GetNewMigrations.parseToken nowM nowC token = Skipped <->
      ~ (bondingSignal token \/ reachesThreshold (MigratedToken.marketCap m))).
Proof. apply getNew_parseToken_qualifies. Qed.

(** Threshold boundary in the [getNewMigrations] revision: exactly
    100000 is kept, 99999.99 is skipped, 99999.99 with [migrated: true]
    is kept. *)
Example getNewMigrations_threshold_boundary :
  (exists m, GetNewMigrations.parseTokenLaunches tick [atThreshold] = [m])
  /\ GetNewMigrations.parseTokenLaunches tick [belowThreshold] = []
  /\ (exists m, GetNewMigrations.parseTokenLaunches tick [belowThresholdMigrated] = [m]).
Proof.
  split; [|split]; [eexists | | eexists]; vm_compute; reflexivity.
Qed.

(** C3 (qualification predicate) against [fetchMigrations], the
    scraper the bot calls: the record [belowThreshold] carries no
    bonding-completion signal and a market cap of 99999.99, below the
    threshold, and is in the output all the same, while the
    [getNewMigrations] revision skips it. *)
Theorem fetchMigrations_applies_no_filter :
  ~ bondingSignal belowThreshold
  /\ ~ reachesThreshold (deriveMarketCap belowThreshold)
  /\ (exists m,
         FetchMigrations.parseTokenLaunches tick (fun _ => "1700000000000-0.42"%string)
                               (FetchMigrations.BareArray [belowThreshold]) = [m]
         /\ MigratedToken.marketCap m = Some (9999999 # 100))
  /\ GetNewMigrations.parseTokenLaunches tick [belowThreshold] = [].
Proof.
  split; [|split; [|split]].
  - intros [(bc & H & _) | [H | [H | [H | H]]]];
      try discriminate H; now apply H.
  - intros (m & Hm & Hle). vm_compute in Hm. inversion Hm; subst.
    vm_compute in Hle. now apply Hle.
  - eexists. split; vm_compute; reflexivity.
  - vm_compute. reflexivity.
Qed.

(** C4 (market-cap derivation), as the code has it.  For every raw
    record: when [marketCap] is absent or zero and [price] is present
    and not zero, the market cap is [price * 1000000000]; when
    [marketCap] is present and not zero it is taken as it is; when
    [price] is absent or zero the [marketCap] field is passed through
    unchanged; the token built by either revision carries that value,
    and the qualification check of [getNewMigrations] is made on it. *)
Theorem marketCap_derivation token :
  (absentOrZero (BagsApiToken.marketCap token) ->
   forall p, BagsApiToken.price token = Some p -> ~ p == 0 ->
             deriveMarketCap token = Some (p * ASSUMED_SUPPLY))
  /\ (presentNonZero (BagsApiToken.marketCap token) ->
      deriveMarketCap token = BagsApiToken.marketCap token)
  /\ (absentOrZero (BagsApiToken.price token) ->
      deriveMarketCap token = BagsApiToken.marketCap token)
  /\ (forall nowM nowC m,
         GetNewMigrations.parseToken nowM nowC token = Parsed m
         \/ (exists stamp, FetchMigrations.parseToken nowM nowC stamp token = Parsed m) ->
         MigratedToken.marketCap m = deriveMarketCap token)
  /\ (forall nowM nowC,
         GetNewMigrations.parseToken nowM nowC token = Skipped <->
         ~ (bondingSignal token \/ reachesThreshold (deriveMarketCap token))).
Proof.
  destruct (deriveMarketCap_cases token) as (H1 & H2 & H3).
  split; [exact H1 | split; [exact H2 | split; [exact H3 | split]]].
  - intros nowM nowC m [H | (stamp & H)].
    + now destruct (getNew_parseToken_fields _ _ _ H) as (_ & _ & Hcap & _).
    + now destruct (fetch_parseToken_fields _ _ _ _ H) as (_ & _ & Hcap & _).
  - intros nowM nowC.
    rewrite <- hasCompletedBonding_signal, <- hasCrossed_reaches.
    unfold GetNewMigrations.parseToken.
    destruct (GetNewMigrations.hasCompletedBonding token),
             (GetNewMigrations.hasCrossed100kMcap (deriveMarketCap token)); simpl;
      try (destruct (GetNewMigrations.buildMigration nowM nowC token));
      split; intros H; try reflexivity; try discriminate;
        try tauto; intuition discriminate.
Qed.

(** [price = 0.0001] and no [marketCap]: the derived market cap is
    100000, and the record qualifies on it. *)
Lemma marketCap_derivation_witness :
  exists cap,
    deriveMarketCap pennyPrice = Some cap /\ cap == 100000
    /\ GetNewMigrations.parseToken 0 0 pennyPrice <> Skipped.
Proof.
  exists ((1 # 10000) * ASSUMED_SUPPLY). split; [|split].
  - apply (proj1 (marketCap_derivation pennyPrice) I (1 # 10000)).
    + reflexivity.
    + discriminate.
  - reflexivity.
  - discriminate.
Defined.

(** C4, as stated, fails on a zero: a [marketCap] field that is present
    with the value 0 is not taken as it is but replaced by
    [price * 1000000000] (here 200000, which then passes the threshold),
    and a [price] field that is present with the value 0 derives
    nothing. *)
Lemma marketCap_zero_is_not_taken_directly :
  BagsApiToken.marketCap zeroCap = Some 0
  /\ (exists cap, deriveMarketCap zeroCap = Some cap /\ cap == 200000)
  /\ GetNewMigrations.parseToken 0 0 zeroCap <> Skipped
  /\ BagsApiToken.marketCap zeroPrice = None
  /\ BagsApiToken.price zeroPrice = Some 0
  /\ deriveMarketCap zeroPrice = None.
Proof.
  split; [reflexivity|]. split.
  - eexists. split; [reflexivity | reflexivity].
  - repeat split; try reflexivity. discriminate.
Qed.



(** C6 (bonding duration).  For every token built from a raw record by
    either revision, [bondingDuration] is present exactly when the
    qualification timestamp is strictly greater than the creation
    timestamp; when present it is their difference in hours, hence
    strictly positive; when the qualification timestamp is less than or
    equal to the creation timestamp it is absent. *)
Theorem bonding_duration nowM nowC token m :
  GetNewMigrations.parseToken nowM nowC token = Parsed m
  \/ (exists stamp, FetchMigrations.parseToken nowM nowC stamp token = Parsed m) ->
  (MigratedToken.bondingDuration m <> None <-> qualifiedAfterCreation m)
  /\ (forall h,
         MigratedToken.bondingDuration m = Some h ->
         exists c,
           MigratedToken.createdAt m = Some (Some c)
           /\ h = inject_Z (MigratedToken.migrationDate m - c) / MS_PER_HOUR
           /\ 0 < h)
  /\ (forall c,
         MigratedToken.createdAt m = Some (Some c) ->
         (MigratedToken.migrationDate m <= c)%Z ->
         MigratedToken.bondingDuration m = None).
Proof.
  intros Hbuilt.
  assert (Hf : builtFrom nowM nowC token m).
  { destruct Hbuilt as [H | (stamp & H)].
    - now apply getNew_parseToken_fields.
    - eapply fetch_parseToken_fields; eauto. }
  destruct Hf as (_ & Hc & _ & Hd & _).
  unfold qualifiedAfterCreation. rewrite Hc, Hd.
  destruct (computeBondingDuration_cases (MigratedToken.migrationDate m)
              (resolveCreatedDate token nowC)) as [Hyes Hno].
  split; [|split].
  - split.
    + intros Hsome.
      destruct (resolveCreatedDate token nowC) as [c|] eqn:Hcd.
      * destruct (Z_lt_dec c (MigratedToken.migrationDate m)) as [Hlt|Hge].
        -- exists c. now split.
        -- elim Hsome. apply Hno. intros (c' & Hc' & Hlt).
           inversion Hc'; subst. contradiction.
      * elim Hsome. apply Hno. intros (c' & Hc' & _). discriminate.
    + intros (c & Hcc & Hlt). inversion Hcc as [Hcd].
      destruct Hyes as (c' & Hc' & _ & Heq); [eauto|].
      rewrite Heq. discriminate.
  - intros h Hh.
    destruct (resolveCreatedDate token nowC) as [c|] eqn:Hcd.
    + destruct (Z_lt_dec c (MigratedToken.migrationDate m)) as [Hlt|Hge].
      * destruct Hyes as (c' & Hc' & _ & Heq); [eauto|].
        inversion Hc'; subst c'. rewrite Heq in Hh. inversion Hh; subst h.
        exists c. repeat split. now apply hours_positive.
      * rewrite Hno in Hh; [discriminate|].
        intros (c' & Hc' & Hlt). inversion Hc'; subst. contradiction.
    + rewrite Hno in Hh; [discriminate|].
      intros (c' & Hc' & _). discriminate.
  - intros c Hcc Hle. inversion Hcc as [Hcd]. apply Hno.
    intros (c' & Hc' & Hlt). rewrite Hcd in Hc'. inversion Hc'; subst. lia.
Qed.

(** Creation at [T = 1000], qualification at [T + 2 hours]: the duration
    is 2. *)
Lemma bonding_duration_witness :
  exists m h,
    FetchMigrations.parseToken 99 99 "1700000000000-0.42" launchedTwoHoursIn = Parsed m
    /\ MigratedToken.bondingDuration m = Some h
    /\ h == 2 /\ 0 < h.
Proof.
  eexists. exists (inject_Z (7201000 - 1000) / MS_PER_HOUR).
  split; [reflexivity|]. split; [reflexivity|]. split; [reflexivity|].
  destruct (proj1 (proj2 (@bonding_duration 99 99 launchedTwoHoursIn _
              (or_intror (ex_intro _ "1700000000000-0.42"%string eq_refl))))
              _ eq_refl) as (c & Hc & Hh & Hpos).
  exact Hpos.
Defined.

(** On doubles, as in the running code: [0.0001 * 1000000000] is exactly
    100000 and passes the inclusive test, 99999.99 does not, and two
    hours in milliseconds divide to exactly 2.  ([0x1.a36e2eb1c432dp-14]
    is the double JavaScript reads from [0.0001], and
    [0x1.869ffd70a3d71p+16] the one it reads from [99999.99].) *)
Example binary64_sample_values :
  (Binary64.derivedMarketCap 0x1.a36e2eb1c432dp-14 =? 100000)%float = true
  /\ Binary64.crossesThreshold
       (Binary64.derivedMarketCap 0x1.a36e2eb1c432dp-14) = true
  /\ Binary64.crossesThreshold 100000%float = true
  /\ Binary64.crossesThreshold 0x1.869ffd70a3d71p+16 = false
  /\ (Binary64.hoursBetween 7201000 1000 =? 2)%float = true.
Proof. vm_compute. repeat split; reflexivity. Qed.

(** The [getNewMigrations] revision synthesizes the id of a record
    without an address from its symbol and name alone: the text
    [token], then the letters and digits of the symbol, then those of
    the name; it is never empty. *)
Lemma getNewMigrations_id_deterministic token token' :
  truthyStr (BagsApiToken.tokenAddress token) = false ->
  truthyStr (BagsApiToken.tokenAddress token') = false ->
  BagsApiToken.symbol token = BagsApiToken.symbol token' ->
  BagsApiToken.name token = BagsApiToken.name token' ->
  GetNewMigrations.tokenId token = GetNewMigrations.tokenId token' /\ GetNewMigrations.tokenId token <> EmptyString.
Proof.
  intros Ha Ha' Hs Hn. rewrite !getNew_tokenId_synth by assumption.
  rewrite Hs, Hn. split; [reflexivity | discriminate].
Qed.

(** C9 (deterministic synthesized id) against [fetchMigrations], the
    scraper the bot calls: the record [addressless] has no address, and
    normalizing it twice, with the clock and the random draw of each
    pass, yields two different ids, while the [getNewMigrations]
    revision yields [tokenDOGEDogeCoin] both times. *)
Theorem fetchMigrations_id_is_not_deterministic :
  BagsApiToken.tokenAddress addressless = None
  /\ (exists m1 m2,
         FetchMigrations.parseToken 99 99 "1700000000000-0.42" addressless = Parsed m1
         /\ FetchMigrations.parseToken 99 99 "1700000300000-0.87" addressless = Parsed m2
         /\ MigratedToken.id m1 <> MigratedToken.id m2)
  /\ (exists m1 m2,
         GetNewMigrations.parseToken 99 99 addressless = Parsed m1
         /\ GetNewMigrations.parseToken 300099 300099 addressless = Parsed m2
         /\ MigratedToken.id m1 = "tokenDOGEDogeCoin"%string
         /\ MigratedToken.id m2 = "tokenDOGEDogeCoin"%string).
Proof.
  split; [reflexivity|]. split.
  - eexists. eexists. split; [reflexivity|]. split; [reflexivity|].
    discriminate.
  - eexists. eexists. repeat split; reflexivity.
Qed.

End NormalizerProperties.


(* ------------------------------------------------------------------ *)
(** ** Further facts on cycles                                          *)
(* ------------------------------------------------------------------ *)

Module CycleMoreFacts.
Import JS DatabaseManager BagsFmBot Spec Vocabulary.
Import IdentityFacts UpsertFacts StoreFacts CycleFacts.

Lemma filter_all (A : Type) (f : A -> bool) (l : list A) :
  (forall x, In x l -> f x = true) -> filter f l = l.
Proof.
  induction l as [|x l IH]; simpl; intros H; [reflexivity|].
  rewrite (H x (or_introl eq_refl)). f_equal. apply IH. auto.
Qed.

Section Host.
Context {host : CaseMapping}.

Lemma fresh_iff token ms :
  existsByDetails token ms = false <->
  forall entry, In entry ms -> ~ answersFor entry token.
Proof.
  unfold answersFor. split.
  - intros Hf entry Hin Hans.
    assert (existsByDetails token ms = true) as Ht.
    { apply existsByDetails_hits. unfold hits.
      destruct Hans as [H | [H | H]]; [left | right; left | right; right];
        eauto. }
    congruence.
  - intros Hall. apply not_true_is_false. intros Ht.
    apply existsByDetails_hits in Ht. unfold hits in Ht.
    destruct Ht as [(e & Hin & H) | [(e & Hin & H) | (e & Hin & H)]];
      apply (Hall e Hin); tauto.
Qed.

(** Saving a token judged new appends it, up to the order. *)
Lemma upsert_new_perm t ms :
  existsByDetails t ms = false -> Permutation (upsert t ms) (ms ++ [t]).
Proof.
  intros Hnew. rewrite upsert_perm. rewrite filter_all; [reflexivity|].
  intros x Hin. apply negb_true_iff, String.eqb_neq.
  exact (not_exists_no_id t ms Hnew x Hin).
Qed.

Lemma pairwise_app (sent1 sent2 : list MigratedToken.t) :
  pairwiseDistinct sent1 -> pairwiseDistinct sent2 ->
  (forall a b, In a sent1 -> In b sent2 -> ~ answersFor a b) ->
  pairwiseDistinct (sent1 ++ sent2).
Proof.
  unfold pairwiseDistinct. intros H1 H2 Hx.
  induction H1 as [|a l Ha H1 IH]; simpl; [exact H2|].
  constructor.
  - apply Forall_app. split; [exact Ha|].
    apply Forall_forall. intros b Hb. apply Hx; [now left | exact Hb].
  - apply IH. intros a' b Ha' Hb. apply Hx; [now right | exact Hb].
Qed.

(** What one pass of the loop does to the ledger: it appends the tokens
    [new] it judged new, each of them fetched, none answered for by an
    entry that was there or by an earlier one of them; and what it
    returns is the accumulator followed by [new]. *)
Lemma checkLoop_new launches :
  forall acc w w' r,
    checkLoop launches acc w = (w', r) ->
    exists new,
      Permutation (ledger w') (ledger w ++ new)
      /\ incl new launches
      /\ (forall sent, r = Returned sent -> sent = acc ++ new)
      /\ (r = Thrown -> holdsLedger w -> new <> [])
      /\ pairwiseDistinct new
      /\ (forall t e, In t new -> In e (ledger w) -> ~ answersFor e t).
Proof.
  induction launches as [|launch rest IH]; intros acc w w' r H.
  - inversion H; subst. exists []. rewrite app_nil_r.
    repeat split; auto.
    + intros x [].
    + intros sent Hs. inversion Hs. now rewrite app_nil_r.
    + discriminate.
    + constructor.
  - destruct (holdsLedger_dec w) as [Hh | Hn].
    2:{ rewrite (checkLoop_malformed (launch :: rest) acc Hn) in H.
        inversion H; subst. exists []. rewrite app_nil_r.
        repeat split; auto.
        - intros x [].
        - discriminate.
        - constructor. }
    rewrite checkLoop_cons in H.
    destruct (existsByDetails launch (ledger w)) eqn:Hex.
    + destruct (IH _ _ _ _ H) as (new & Hp & Hi & Hs & Ht & Hd & Hf).
      exists new. repeat split; auto. apply incl_tl. exact Hi.
    + pose proof (saveMigration_ledger launch Hh) as Hms.
      pose proof (upsert_new_perm launch (ledger w) Hex) as Hup.
      assert (Hlaunch : forall e, In e (ledger w) -> ~ answersFor e launch)
        by (now apply fresh_iff).
      destruct (saveMigration launch w) as [w1 [[]|]]; simpl in Hms.
      * destruct (IH _ _ _ _ H) as (new & Hp & Hi & Hs & Ht & Hd & Hf).
        assert (Hl1 : Permutation (ledger w1) (ledger w ++ [launch])).
        { rewrite Hms. exact Hup. }
        exists (launch :: new). repeat split.
        -- rewrite Hp, Hl1, <- app_assoc. reflexivity.
        -- intros x [<- | Hx]; [now left | right; now apply Hi].
        -- intros sent Hr. rewrite (Hs sent Hr), <- app_assoc. reflexivity.
        -- discriminate.
        -- constructor; [|exact Hd].
           apply Forall_forall. intros t Hin. apply (Hf t launch Hin).
           eapply Permutation_in; [symmetry; exact Hl1|].
           apply in_or_app. right. now left.
        -- intros t e [<- | Hin] He; [now apply Hlaunch|].
           apply (Hf t e Hin).
           eapply Permutation_in; [symmetry; exact Hl1|].
           apply in_or_app. now left.
      * inversion H; subst. exists [launch]. repeat split.
        -- rewrite Hms. exact Hup.
        -- intros x [<- | []]. now left.
        -- discriminate.
        -- discriminate.
        -- constructor; constructor.
        -- intros t e [<- | []] He. now apply Hlaunch.
Qed.

(** One cycle: what it sends is recorded, pairwise distinct, and new
    against the ledger it started from. *)
Lemma cycle_sent launches w :
  let w' := fst (checkForNewMigrations launches w) in
  let sent := snd (checkForNewMigrations launches w) in
  incl (ledger w) (ledger w')
  /\ incl sent (ledger w')
  /\ incl sent launches
  /\ pairwiseDistinct sent
  /\ (forall t e, In t sent -> In e (ledger w) -> ~ answersFor e t).
Proof.
  unfold checkForNewMigrations.
  destruct (checkLoop launches [] w) as [w' r] eqn:Hrun.
  pose proof (checkLoop_incl _ _ _ Hrun) as Hincl.
  destruct (checkLoop_new _ _ _ Hrun) as (new & Hp & Hi & Hs & _ & Hd & Hf).
  destruct r as [sent|]; simpl.
  - specialize (Hs sent eq_refl). simpl in Hs. subst sent.
    repeat split; auto.
    intros t Hin. eapply Permutation_in; [symmetry; exact Hp|].
    apply in_or_app. now right.
  - split; [exact Hincl|]. split; [intros x []|]. split; [intros x []|].
    split; [constructor|]. intros t e [].
Qed.

Lemma runCycles_sent fetches :
  forall w,
    incl (ledger w) (ledger (fst (runCycles fetches w)))
    /\ incl (List.concat (snd (runCycles fetches w)))
            (ledger (fst (runCycles fetches w)))
    /\ pairwiseDistinct (List.concat (snd (runCycles fetches w)))
    /\ (forall t e, In t (List.concat (snd (runCycles fetches w))) ->
                    In e (ledger w) -> ~ answersFor e t).
Proof.
  induction fetches as [|launches later IH]; intros w; simpl.
  - split; [apply incl_refl|]. split; [intros x []|].
    split; [constructor|]. intros t e [].
  - destruct (cycle_sent launches w) as (H1 & H2 & _ & H4 & H5).
    destruct (checkForNewMigrations launches w) as [w1 sent1]; simpl in *.
    destruct (IH w1) as (I1 & I2 & I3 & I4).
    destruct (runCycles later w1) as [w2 sents]; simpl in *.
    repeat split.
    + eapply incl_tran; eauto.
    + apply incl_app; [eapply incl_tran; eauto | exact I2].
    + apply pairwise_app; auto.
    + intros t e Hin He. apply in_app_or in Hin. destruct Hin as [Hin|Hin].
      * now apply (H5 t e).
      * apply (I4 t e Hin). now apply H1.
Qed.

Lemma pairwise_ids sent :
  pairwiseDistinct sent -> NoDup (map MigratedToken.id sent).
Proof.
  unfold pairwiseDistinct. induction 1 as [|a l Ha _ IH]; simpl.
  - constructor.
  - constructor; [|exact IH].
    intros Hin. apply in_map_iff in Hin as (b & Hid & Hb).
    rewrite Forall_forall in Ha. apply (Ha b Hb).
    right. right. exact Hid.
Qed.

End Host.

Lemma saveData_persisted w w' :
  saveData w = (w', Returned tt) -> persisted w'.
Proof.
  intros H. apply saveData_returned in H. split; tauto.
Qed.

Lemma initialize_persisted w w' :
  initialize w = (w', Returned tt) -> persisted w'.
Proof.
  intros H. apply initialize_returned in H. split; tauto.
Qed.

Section Cycles.
Context {host : CaseMapping}.

Lemma checkLoop_persisted launches :
  forall acc w w' sent,
    persisted w ->
    checkLoop launches acc w = (w', Returned sent) -> persisted w'.
Proof.
  induction launches as [|launch rest IH]; intros acc w w' sent Hp H.
  - inversion H; subst. exact Hp.
  - rewrite checkLoop_cons in H.
    destruct (existsByDetails launch (ledger w)).
    + eauto.
    + destruct (saveMigration launch w) as [w1 [[]|]] eqn:Hsave;
        [|discriminate].
      apply saveMigration_returned in Hsave as (_ & _ & _ & Hfl & Hdir).
      eapply IH; [|exact H]. now split.
Qed.

End Cycles.

(** A new store over a persisted disk loads the state it holds, when
    that state lets the log line of [initialize] read a length. *)
Lemma restart_loads w clk n :
  persisted w ->
  holdsLedger w \/ data w = NoLedger Scalar ->
  initialize (create (disk w) clk n)
  = (mkWorld (data w) (disk w) clk (S n), Returned tt).
Proof.
  intros [Hf Hd] Hdata. rewrite initialize_run. unfold create, dirEnsured. simpl.
  rewrite Hd. simpl. unfold flushed in Hf. rewrite Hf.
  destruct Hdata as [[d ->] | ->]; reflexivity.
Qed.

(** On a state without the [migrations] member the log line throws and
    the [catch] writes the same text again. *)
Lemma restart_rewrites w clk n :
  persisted w ->
  data w = NoLedger Nullish -> writeAllowed (disk w) = true ->
  initialize (create (disk w) clk n)
  = (mkWorld (data w) (disk w) clk (S (S n)), Returned tt).
Proof.
  intros [Hf Hd] Hdata Hw. rewrite initialize_run. unfold create, dirEnsured. simpl.
  rewrite Hd. simpl. unfold flushed in Hf. rewrite Hf, Hdata.
  rewrite saveData_run. simpl. unfold fsWriteFile. simpl.
  rewrite Hd, Hw. simpl. do 2 f_equal.
  rewrite Hdata in Hf.
  destruct (disk w) as [de ma f wa wf]. simpl in *. now subst.
Qed.

End CycleMoreFacts.

(* ------------------------------------------------------------------ *)
(** ** Further properties of the ledger store and of the check cycle    *)
(* ------------------------------------------------------------------ *)

Module LedgerExtras.
Import JS DatabaseManager BagsFmBot Spec Vocabulary Samples.
Import IdentityFacts UpsertFacts StoreFacts CycleFacts CycleMoreFacts.

(** X1 (at most one notification per token).  Over any sequence of check
    cycles, whatever the feed returns and whether writes fail or not,
    no token handed to the notifier is answered for (by contract address,
    by symbol and name, or by id) by one handed over earlier or by an
    entry the ledger held at the start; in particular no two
    notifications carry the same id; and every token handed over is in
    the ledger. *)
Theorem notifications_at_most_once {host : CaseMapping} fetches w :
  pairwiseDistinct (List.concat (snd (runCycles fetches w)))
  /\ NoDup (map MigratedToken.id (List.concat (snd (runCycles fetches w))))
  /\ (forall t e, In t (List.concat (snd (runCycles fetches w))) ->
                  In e (ledger w) -> ~ answersFor e t)
  /\ incl (List.concat (snd (runCycles fetches w)))
          (ledger (fst (runCycles fetches w))).
Proof.
  destruct (runCycles_sent fetches w) as (_ & H2 & H3 & H4).
  split; [exact H3|]. split; [now apply pairwise_ids|].
  split; [exact H4 | exact H2].
Qed.

Lemma checkLoop_nothing_new {host : CaseMapping} launches :
  forall acc w w',
    checkLoop launches acc w = (w', Returned acc) -> w' = w.
Proof.
  induction launches as [|launch rest IH]; intros acc w w' H.
  - now inversion H.
  - rewrite checkLoop_cons in H.
    destruct (existsByDetails launch (ledger w)); [eauto|].
    destruct (saveMigration launch w) as [w1 [[]|]]; [|discriminate].
    destruct (checkLoop_new _ _ _ H) as (new & _ & _ & Hs & _).
    specialize (Hs acc eq_refl).
    apply (f_equal (@List.length _)) in Hs.
    rewrite !length_app in Hs. simpl in Hs. lia.
Qed.

(** X2 (a cycle only appends).  A cycle that runs to its end leaves in
    the ledger the entries it found and the tokens it sends, nothing
    else and nothing less; every token it sends was fetched and was
    answered for by no entry; and a cycle that sends nothing leaves the
    store, the disk and the clock untouched. *)
Theorem cycle_only_appends {host : CaseMapping} launches w w1 sent :
  checkLoop launches [] w = (w1, Returned sent) ->
  Permutation (ledger w1) (ledger w ++ sent)
  /\ (forall t, In t sent ->
                In t launches /\ existsByDetails t (ledger w) = false)
  /\ (sent = [] -> w1 = w).
Proof.
  intros Hrun.
  destruct (checkLoop_new _ _ _ Hrun) as (new & Hp & Hi & Hs & _ & _ & Hf).
  specialize (Hs sent eq_refl). simpl in Hs. subst new.
  split; [exact Hp|]. split.
  - intros t Hin. split; [now apply Hi|].
    apply fresh_iff. intros e He. now apply (Hf t e).
  - intros ->. eapply checkLoop_nothing_new. exact Hrun.
Qed.

Lemma cycle_only_appends_witness :
  let launches := [doge; dogeShouted; pepe; dogeClone] in
  let w1 := fst (@checkForNewMigrations asciiFolding launches started) in
  Permutation (ledger w1) (ledger started ++ [doge; pepe])
  /\ (forall t, In t [doge; pepe] ->
                In t launches
                /\ @existsByDetails asciiFolding t (ledger started) = false)
  /\ ([doge; pepe] = [] -> w1 = started).
Proof.
  cbv zeta.
  apply (@cycle_only_appends asciiFolding [doge; dogeShouted; pepe; dogeClone]
                             started).
  vm_compute. reflexivity.
Defined.

(** X3 (the ledger survives a restart).  When [initialize] has returned
    and a cycle has then run to its end, a new process started on the
    same disk loads exactly the state the first one left, and its
    initial check over the same fetched tokens sends nothing and changes
    nothing. *)
Theorem restart_keeps_ledger {host : CaseMapping} w0 w launches w1 sent clk n :
  initialize w0 = (w, Returned tt) ->
  checkLoop launches [] w = (w1, Returned sent) ->
  exists w2,
    initialize (create (disk w1) clk n) = (w2, Returned tt)
    /\ data w2 = data w1 /\ disk w2 = disk w1
    /\ BotRun.start (disk w1) clk n launches = (w2, Returned []).
Proof.
  intros Hinit Hrun.
  assert (Hp : persisted w1).
  { eapply checkLoop_persisted; [|exact Hrun].
    eapply initialize_persisted; eauto. }
  assert (Hnoop : forall m,
             checkLoop launches [] (mkWorld (data w1) (disk w1) clk m)
             = (mkWorld (data w1) (disk w1) clk m, Returned [])).
  { intros m. apply checkLoop_all_known_noop. intros t Hin.
    change (existsByDetails t (ledger w1) = true).
    eapply checkLoop_all_known; eauto. }
  assert (Hload : exists m,
             initialize (create (disk w1) clk n)
             = (mkWorld (data w1) (disk w1) clk m, Returned tt)).
  { destruct (holdsLedger_dec w1) as [Hh | Hn].
    - exists (S n). apply restart_loads; auto.
    - assert (Hn0 : ~ holdsLedger w)
        by (now rewrite <- (checkLoop_holds _ _ _ Hrun)).
      rewrite (checkLoop_malformed launches [] Hn0) in Hrun.
      inversion Hrun; subst w1.
      apply initialize_returned in Hinit as (_ & _ & Hobj & Hwa).
      destruct (data w) as [|[|]|d] eqn:Hd.
      + now elim Hobj.
      + exists (S (S n)). rewrite <- Hd. apply restart_rewrites; auto.
      + exists (S n). rewrite <- Hd. apply restart_loads; auto.
      + elim Hn0. now exists d. }
  destruct Hload as (m & Hload).
  exists (mkWorld (data w1) (disk w1) clk m).
  split; [exact Hload|]. split; [reflexivity|]. split; [reflexivity|].
  unfold BotRun.start. rewrite Hload.
  unfold checkForNewMigrations. rewrite Hnoop. reflexivity.
Qed.

Lemma restart_keeps_ledger_witness :
  let launches := [doge; dogeShouted; pepe] in
  let w1 := fst (@checkForNewMigrations asciiFolding launches started) in
  exists w2,
    initialize (create (disk w1) tick 50) = (w2, Returned tt)
    /\ data w2 = data w1 /\ disk w2 = disk w1
    /\ @BotRun.start asciiFolding (disk w1) tick 50 launches = (w2, Returned []).
Proof.
  cbv zeta.
  apply (@restart_keeps_ledger asciiFolding (create freshDisk tick 0) started
           [doge; dogeShouted; pepe] _ [doge; pepe] tick 50%nat).
  - vm_compute. reflexivity.
  - vm_compute. reflexivity.
Defined.

(** X4 (save, look up, clear).  After [saveMigration] of a token on a
    store that holds a ledger, whether the write went through or threw,
    [migrationExists] on its id and [migrationExistsByDetails] on the
    token both return [true] (on a store without a ledger the save
    throws and both return [false]); whenever [migrationExists] finds an
    id, [migrationExistsByDetails] finds every token with that id; and
    after [clearDatabase], again whether it returned or threw, both
    return [false] for everything. *)
Theorem save_lookup_clear {host : CaseMapping} :
  (forall t w,
      let w1 := fst (saveMigration t w) in
      (holdsLedger w ->
       migrationExists (MigratedToken.id t) w1 = (w1, Returned true)
       /\ migrationExistsByDetails t w1 = (w1, Returned true))
      /\ (~ holdsLedger w ->
          migrationExists (MigratedToken.id t) w1 = (w1, Returned false)
          /\ migrationExistsByDetails t w1 = (w1, Returned false)))
  /\ (forall t w,
         migrationExists (MigratedToken.id t) w = (w, Returned true) ->
         migrationExistsByDetails t w = (w, Returned true))
  /\ (forall t i w,
         let w1 := fst (clearDatabase w) in
         migrationExists i w1 = (w1, Returned false)
         /\ migrationExistsByDetails t w1 = (w1, Returned false)).
Proof.
  split; [|split].
  - intros t w w1. subst w1. split; intros Hh.
    + pose proof (saveMigration_ledger t Hh) as Hms.
      pose proof (upsert_self t (ledger w)) as Hin.
      rewrite <- Hms in Hin.
      rewrite migrationExists_run, migrationExistsByDetails_run.
      split; f_equal; f_equal.
      * apply existsb_exists. exists t. split; [exact Hin|].
        apply String.eqb_refl.
      * now apply existsByDetails_self.
    + rewrite (saveMigration_malformed t Hh). simpl.
      rewrite migrationExists_run, migrationExistsByDetails_run.
      rewrite (not_holdsLedger_ledger Hh).
      split; [reflexivity|]. now rewrite existsByDetails_nil.
  - intros t w.
    rewrite migrationExists_run, migrationExistsByDetails_run.
    intros H. inversion H as [Hex]. rewrite Hex.
    apply existsb_exists in Hex as (e & Hin & Heq).
    apply String.eqb_eq in Heq.
    f_equal. f_equal. apply existsByDetails_hits. right. right.
    exists e. split; [exact Hin | symmetry; exact Heq].
  - intros t i w w1. subst w1.
    destruct (clearDatabase_ledger w) as [_ Hms].
    rewrite migrationExists_run, migrationExistsByDetails_run, Hms.
    split; [reflexivity|]. now rewrite existsByDetails_nil.
Qed.

Lemma save_lookup_clear_witness :
  @migrationExistsByDetails asciiFolding doge
     (fst (saveMigration doge startedReadOnly))
  = (fst (saveMigration doge startedReadOnly), Returned true).
Proof.
  apply (proj1 (proj2 (@save_lookup_clear asciiFolding)) doge
               (fst (saveMigration doge startedReadOnly))).
  reflexivity.
Defined.

(** X5 (a failed write loses the notifications of its cycle).  When a
    [saveMigration] throws inside a cycle, the cycle sends nothing, not
    even for the tokens it had saved before.  On a store that holds a
    ledger at least one new token is left in the ledger in memory, and
    none of the tokens the cycle added is ever sent by a later cycle of
    the same process; on a store without a ledger the cycle leaves
    everything as it was. *)
Theorem write_failure_loses_notifications {host : CaseMapping} launches w w' :
  checkLoop launches [] w = (w', Thrown) ->
  checkForNewMigrations launches w = (w', [])
  /\ (holdsLedger w ->
      exists new,
        new <> [] /\ incl new launches
        /\ Permutation (ledger w') (ledger w ++ new)
        /\ (forall t fetches sent,
               In t new -> In sent (snd (runCycles fetches w')) ->
               ~ In t sent))
  /\ (~ holdsLedger w -> w' = w).
Proof.
  intros Hrun. split; [|split].
  - unfold checkForNewMigrations. now rewrite Hrun.
  - intros Hh.
    destruct (checkLoop_new _ _ _ Hrun) as (new & Hp & Hi & _ & Hne & _).
    exists new. split; [now apply Hne|]. split; [exact Hi|].
    split; [exact Hp|].
    intros t fetches sent Hin.
    assert (Hk : existsByDetails t (ledger w') = true).
    { apply existsByDetails_self.
      eapply Permutation_in; [symmetry; exact Hp|].
      apply in_or_app. now right. }
    destruct (runCycles_known_token t fetches w' Hk) as [_ H].
    apply H.
  - intros Hn. rewrite (checkLoop_malformed launches [] Hn) in Hrun.
    now inversion Hrun.
Qed.

Lemma write_failure_loses_notifications_witness :
  let w' := fst (@checkForNewMigrations asciiFolding [doge; pepe] startedReadOnly) in
  @checkForNewMigrations asciiFolding [doge; pepe] startedReadOnly = (w', [])
  /\ exists new,
      new <> [] /\ incl new [doge; pepe]
      /\ Permutation (ledger w') (ledger startedReadOnly ++ new)
      /\ (forall t fetches sent,
             In t new -> In sent (snd (@runCycles asciiFolding fetches w')) ->
             ~ In t sent).
Proof.
  cbv zeta.
  destruct (@write_failure_loses_notifications asciiFolding [doge; pepe]
              startedReadOnly
              (fst (@checkForNewMigrations asciiFolding [doge; pepe]
                      startedReadOnly)))
    as (Hsent & Hnew & _).
  - vm_compute. reflexivity.
  - split; [exact Hsent|]. apply Hnew. eexists. reflexivity.
Defined.

End LedgerExtras.

(* ------------------------------------------------------------------ *)
(** ** Queries, notifications and the feed                              *)
(* ------------------------------------------------------------------ *)

Module QueryFacts.
Import JS DatabaseManager Spec.

Lemma sorted_app_inv (l1 l2 : list MigratedToken.t) :
  newestFirst (l1 ++ l2) ->
  newestFirst l1
  /\ (forall a b, In a l1 -> In b l2 ->
                  (MigratedToken.migrationDate b <= MigratedToken.migrationDate a)%Z).
Proof.
  unfold newestFirst. induction l1 as [|x l1 IH]; simpl; intros H.
  - split; [constructor | intros a b []].
  - inversion H as [|? ? Hs Hx]; subst.
    destruct (IH Hs) as [IH1 IH2]. split.
    + constructor; [exact IH1|].
      apply Forall_app in Hx. tauto.
    + intros a b [<- | Ha] Hb.
      * rewrite Forall_forall in Hx. apply Hx. apply in_or_app. now right.
      * now apply IH2.
Qed.

Lemma filter_length_le_total (A : Type) (f : A -> bool) (l : list A) :
  (List.length (filter f l) <= List.length l)%nat.
Proof.
  induction l as [|x l IH]; simpl; [lia|].
  destruct (f x); simpl; lia.
Qed.

Lemma filter_length_mono (A : Type) (f g : A -> bool) (l : list A) :
  (forall x, In x l -> f x = true -> g x = true) ->
  (List.length (filter f l) <= List.length (filter g l))%nat.
Proof.
  induction l as [|x l IH]; simpl; intros H; [lia|].
  assert (IH' : (List.length (filter f l) <= List.length (filter g l))%nat)
    by (apply IH; intros; apply H; auto).
  destruct (f x) eqn:Hf.
  - rewrite (H x (or_introl eq_refl) Hf). simpl. lia.
  - destruct (g x); simpl; lia.
Qed.

(** [getStats] on a store that holds a ledger: two readings of the
    clock, three counts. *)
Lemma getStats_run cal w d :
  data w = Ledger d ->
  Stats.getStats cal w =
  (mkWorld (data w) (disk w) (clock w) (S (S (reads w))),
   Returned
     (Stats.mkCounts
        (List.length (migrations d))
        (List.length
           (filter (Stats.isToday cal (Stats.startOfDay cal (clock w (reads w))))
                   (migrations d)))
        (List.length
           (filter (Stats.isThisWeek
                      (Stats.startOfDay cal
                         (Stats.weekBefore cal (clock w (S (reads w))))))
                   (migrations d))))).
Proof.
  intros Hd. destruct w as [h fs clk n]. simpl in *. subst h. reflexivity.
Qed.

(** Without a ledger the [catch] answers zeros; the clock has been read
    once when the length could be read. *)
Lemma getStats_malformed cal w :
  ~ holdsLedger w ->
  snd (Stats.getStats cal w) = Returned (Stats.mkCounts 0 0 0)
  /\ data (fst (Stats.getStats cal w)) = data w
  /\ disk (fst (Stats.getStats cal w)) = disk w.
Proof.
  intros Hn. destruct w as [h fs clk n].
  destruct h as [|[|]|d]; [repeat split..|].
  elim Hn. now exists d.
Qed.

Lemma utc_startOfDay_le t : (Stats.startOfDay Stats.utc t <= t)%Z.
Proof.
  simpl. pose proof (Z.mod_pos_bound t 86400000). lia.
Qed.

Lemma utc_startOfDay_mono a b :
  (a <= b)%Z ->
  (Stats.startOfDay Stats.utc a <= Stats.startOfDay Stats.utc b)%Z.
Proof.
  intros Hab. simpl.
  pose proof (Z.div_mod a 86400000) as Ha.
  pose proof (Z.div_mod b 86400000) as Hb.
  pose proof (Z.div_le_mono a b 86400000) as Hm.
  lia.
Qed.

End QueryFacts.

Module ServiceExtras.
Import JS DatabaseManager BagsFmBot Spec Vocabulary Samples.
Import StoreFacts QueryFacts.

(** X6 (recent entries).  On a ledger sorted newest first, as the store
    keeps it, [getRecentMigrations(limit)] returns, without changing
    anything, the first [limit] entries (all of them when there are
    fewer), newest first, and every entry it leaves out is no newer than
    any entry it returns. *)
Theorem recent_are_newest limit w :
  newestFirst (ledger w) ->
  exists recent,
    getRecentMigrations limit w = (w, Returned recent)
    /\ ledger w = recent ++ skipn limit (ledger w)
    /\ List.length recent = Nat.min limit (List.length (ledger w))
    /\ newestFirst recent
    /\ (forall a b, In a recent -> In b (skipn limit (ledger w)) ->
                    (MigratedToken.migrationDate b
                     <= MigratedToken.migrationDate a)%Z).
Proof.
  intros Hs. exists (firstn limit (ledger w)).
  split; [apply getRecentMigrations_run|].
  split; [symmetry; apply firstn_skipn|].
  split; [apply length_firstn|].
  rewrite <- (firstn_skipn limit (ledger w)) in Hs.
  now apply sorted_app_inv.
Qed.

Lemma recent_are_newest_witness :
  let w := fst (@checkForNewMigrations asciiFolding
                   [doge; pepe; dogeShouted] started) in
  exists recent,
    getRecentMigrations 1 w = (w, Returned recent)
    /\ ledger w = recent ++ skipn 1 (ledger w)
    /\ List.length recent = Nat.min 1 (List.length (ledger w))
    /\ newestFirst recent
    /\ (forall a b, In a recent -> In b (skipn 1 (ledger w)) ->
                    (MigratedToken.migrationDate b
                     <= MigratedToken.migrationDate a)%Z).
Proof.
  cbv zeta.
  apply (@recent_are_newest 1%nat
           (fst (@checkForNewMigrations asciiFolding
                   [doge; pepe; dogeShouted] started))).
  vm_compute. repeat constructor; discriminate.
Defined.

(** X7 (statistics are nested).  On a host whose start of day is never
    after the instant it is taken from and grows with it, and whose two
    clock readings within one call are less than a week apart,
    [getStats] returns, changing neither the memory nor the disk, a
    total that is the number of ledger entries, a count for today that
    is at most the count for the week, and a count for the week that is
    at most the total; on a store that holds a ledger it has read the
    clock twice, and on one without a ledger all three counts are
    zero. *)
Theorem stats_are_nested cal w :
  (forall t, (Stats.startOfDay cal t <= t)%Z) ->
  (forall a b, (a <= b)%Z ->
               (Stats.startOfDay cal a <= Stats.startOfDay cal b)%Z) ->
  (Stats.weekBefore cal (clock w (S (reads w))) <= clock w (reads w))%Z ->
  exists c,
    snd (Stats.getStats cal w) = Returned c
    /\ data (fst (Stats.getStats cal w)) = data w
    /\ disk (fst (Stats.getStats cal w)) = disk w
    /\ (holdsLedger w ->
        Stats.getStats cal w
        = (mkWorld (data w) (disk w) (clock w) (S (S (reads w))), Returned c))
    /\ (~ holdsLedger w -> c = Stats.mkCounts 0 0 0)
    /\ Stats.totalMigrations c = List.length (ledger w)
    /\ (Stats.migrationsToday c <= Stats.migrationsThisWeek c)%nat
    /\ (Stats.migrationsThisWeek c <= Stats.totalMigrations c)%nat.
Proof.
  intros Hle Hmono Hweek.
  destruct (holdsLedger_dec w) as [[d Hd] | Hn].
  - eexists. rewrite (getStats_run cal w Hd). simpl.
    do 3 (split; [reflexivity|]).
    split; [reflexivity|].
    split; [intros Hn; elim Hn; now exists d|].
    unfold ledger. rewrite Hd. simpl.
    split; [reflexivity|]. split.
    + apply filter_length_mono. intros m _.
      unfold Stats.isToday, Stats.isThisWeek. rewrite !Z.leb_le. intros Ht.
      pose proof (Hle (MigratedToken.migrationDate m)).
      pose proof (Hmono _ _ Hweek). lia.
    + apply filter_length_le_total.
  - destruct (getStats_malformed cal Hn) as (Hr & Hdata & Hdisk).
    exists (Stats.mkCounts 0 0 0).
    do 3 (split; [assumption|]).
    split; [intros Hh; contradiction|].
    split; [reflexivity|].
    rewrite (not_holdsLedger_ledger Hn). simpl. repeat split; lia.
Qed.

Lemma stats_are_nested_witness :
  let w := fst (@checkForNewMigrations asciiFolding [doge; pepe] started) in
  exists c,
    snd (Stats.getStats Stats.utc w) = Returned c
    /\ Stats.totalMigrations c = List.length (ledger w)
    /\ (Stats.migrationsToday c <= Stats.migrationsThisWeek c)%nat
    /\ (Stats.migrationsThisWeek c <= Stats.totalMigrations c)%nat.
Proof.
  cbv zeta.
  destruct (@stats_are_nested Stats.utc
              (fst (@checkForNewMigrations asciiFolding [doge; pepe] started)))
    as (c & Hc & _ & _ & _ & _ & Hcounts).
  - exact utc_startOfDay_le.
  - exact utc_startOfDay_mono.
  - vm_compute. discriminate.
  - exists c. split; [exact Hc | exact Hcounts].
Defined.

(** X8 (notification with text fallback).  [sendMigrationNotification]
    never delivers more than one message for a token, and only about that
    token; a photo is delivered exactly when the token has an image and
    [sendPhoto] goes through; whenever [sendMessage] goes through the
    token is delivered, with or without its image; so when [sendMessage]
    goes through for all new tokens, the channel receives exactly one
    message per new token, in order. *)
Theorem notification_falls_back_to_text bot :
  (forall m,
      (List.length (Notifier.sendMigrationNotification bot m) <= 1)%nat
      /\ (forall d, In d (Notifier.sendMigrationNotification bot m) ->
                    Notifier.delivered d = m)
      /\ (In (Notifier.Photo m) (Notifier.sendMigrationNotification bot m) <->
          truthyStr (MigratedToken.image m) = true
          /\ Notifier.sendPhotoOk bot m = true)
      /\ (Notifier.sendMessageOk bot m = true ->
          List.length (Notifier.sendMigrationNotification bot m) = 1%nat))
  /\ (forall sent,
         (List.length (Notifier.notifyAll bot sent) <= List.length sent)%nat)
  /\ (forall sent,
         (forall m, In m sent -> Notifier.sendMessageOk bot m = true) ->
         map Notifier.delivered (Notifier.notifyAll bot sent) = sent).
Proof.
  assert (Hone : forall m,
             (List.length (Notifier.sendMigrationNotification bot m) <= 1)%nat).
  { intros m. unfold Notifier.sendMigrationNotification.
    destruct (truthyStr (MigratedToken.image m)),
             (Notifier.sendPhotoOk bot m), (Notifier.sendMessageOk bot m);
      simpl; lia. }
  split; [|split].
  - intros m. split; [apply Hone|].
    unfold Notifier.sendMigrationNotification.
    destruct (truthyStr (MigratedToken.image m)),
             (Notifier.sendPhotoOk bot m), (Notifier.sendMessageOk bot m);
      simpl;
      (split; [intros d Hd; try (destruct Hd as [<- | []]; reflexivity);
               destruct Hd
              |split; [split; [intros Hin; try (destruct Hin as [Hin | []]);
                               try discriminate Hin; try destruct Hin;
                               split; reflexivity
                              |intros [H1 H2]; try discriminate H1;
                               try discriminate H2; left; reflexivity]
                      |intros H; try discriminate H; reflexivity]]).
  - intros sent. unfold Notifier.notifyAll.
    induction sent as [|m sent IH]; simpl; [lia|].
    rewrite length_app. specialize (Hone m). lia.
  - intros sent Hok. unfold Notifier.notifyAll.
    induction sent as [|m sent IH]; simpl; [reflexivity|].
    rewrite map_app, IH by (intros; apply Hok; now right).
    assert (Hm : Notifier.sendMessageOk bot m = true)
      by (apply Hok; now left).
    unfold Notifier.sendMigrationNotification. rewrite Hm.
    destruct (truthyStr (MigratedToken.image m)),
             (Notifier.sendPhotoOk bot m); reflexivity.
Qed.

Lemma notification_falls_back_to_text_witness :
  map Notifier.delivered
      (Notifier.notifyAll
         (Notifier.mkTelegram (fun _ => false) (fun _ => true))
         [doge; pepe])
  = [doge; pepe].
Proof.
  apply (proj2 (proj2 (notification_falls_back_to_text
                         (Notifier.mkTelegram (fun _ => false) (fun _ => true))))
               [doge; pepe]).
  intros m _. reflexivity.
Defined.

(** X9 (a failed fetch is an empty cycle).  When the request is
    rejected, or answers with a status other than 200, or with a body in
    none of the known shapes, or with an empty list, [fetchMigrations]
    returns the empty list and the whole check leaves the store, the
    disk and the clock as they were and delivers nothing. *)
Theorem failed_fetch_is_a_noop {host : CaseMapping} bot clk entropy r w :
  r = Network.Rejected
  \/ (exists status body,
         r = Network.Resolved status body
         /\ (status <> 200%Z
             \/ Scraper.FetchMigrations.tokenListOf body = None
             \/ Scraper.FetchMigrations.tokenListOf body = Some [])) ->
  Network.fetchMigrations clk entropy r = []
  /\ BotRun.checkFromFeed bot clk entropy r w = (w, []).
Proof.
  intros Hfail.
  assert (Hnil : Network.fetchMigrations clk entropy r = []).
  { destruct Hfail as [-> | (status & body & -> & Hwhy)]; [reflexivity|].
    simpl. destruct (status =? 200)%Z eqn:Hs; [|reflexivity].
    apply Z.eqb_eq in Hs.
    unfold Scraper.FetchMigrations.parseTokenLaunches.
    destruct Hwhy as [H | [-> | ->]]; [contradiction | reflexivity..]. }
  split; [exact Hnil|].
  unfold BotRun.checkFromFeed. rewrite Hnil. reflexivity.
Qed.

Lemma failed_fetch_is_a_noop_witness :
  Network.fetchMigrations tick (fun _ => "0-0.5"%string)
    (Network.Resolved 204 (Scraper.FetchMigrations.BareArray [Samples.addressless]))
  = []
  /\ @BotRun.checkFromFeed asciiFolding
       (Notifier.mkTelegram (fun _ => true) (fun _ => true))
       tick (fun _ => "0-0.5"%string)
       (Network.Resolved 204 (Scraper.FetchMigrations.BareArray [Samples.addressless]))
       started
     = (started, []).
Proof.
  apply (@failed_fetch_is_a_noop asciiFolding).
  right. eexists. eexists. split; [reflexivity|]. left. discriminate.
Defined.

End ServiceExtras.

(* ------------------------------------------------------------------ *)
(** ** Further properties of the normalizer                             *)
(* ------------------------------------------------------------------ *)

Module BatchFacts.
Import JS Scraper Spec Vocabulary ScraperFacts.

Lemma getNew_skipped_iff nowM nowC token :
  GetNewMigrations.parseToken nowM nowC token = Skipped
  <-> passesFilter token = false.
Proof.
  unfold GetNewMigrations.parseToken, passesFilter.
  destruct (GetNewMigrations.hasCompletedBonding token),
           (GetNewMigrations.hasCrossed100kMcap (deriveMarketCap token));
    simpl; try (destruct (GetNewMigrations.buildMigration nowM nowC token));
    split; intros H; try reflexivity; discriminate H.
Qed.

Lemma getNew_parseLoop_app clock l1 :
  forall n l2,
    GetNewMigrations.parseLoop clock n (l1 ++ l2)
    = GetNewMigrations.parseLoop clock n l1
      ++ GetNewMigrations.parseLoop clock (n + clockReads l1) l2.
Proof.
  unfold clockReads.
  induction l1 as [|token l1 IH]; intros n l2; simpl.
  - now rewrite Nat.add_0_r.
  - destruct (GetNewMigrations.parseToken (clock n) (clock (S n)) token)
      as [| |m] eqn:Hp.
    + apply getNew_skipped_iff in Hp. rewrite Hp. apply IH.
    + assert (Hf : passesFilter token = true).
      { apply not_false_is_true. intros Hf.
        apply getNew_skipped_iff with (nowM := clock n) (nowC := clock (S n)) in Hf.
        congruence. }
      rewrite Hf, IH. simpl. f_equal. f_equal. lia.
    + assert (Hf : passesFilter token = true).
      { apply not_false_is_true. intros Hf.
        apply getNew_skipped_iff with (nowM := clock n) (nowC := clock (S n)) in Hf.
        congruence. }
      rewrite Hf, IH. simpl. f_equal. f_equal. f_equal. lia.
Qed.

Lemma fetch_parseLoop_app clock entropy l1 :
  forall i l2,
    FetchMigrations.parseLoop clock entropy i (l1 ++ l2)
    = FetchMigrations.parseLoop clock entropy i l1
      ++ FetchMigrations.parseLoop clock entropy (i + List.length l1) l2.
Proof.
  induction l1 as [|token l1 IH]; intros i l2; simpl.
  - now rewrite Nat.add_0_r.
  - rewrite IH. replace (S i + List.length l1)%nat
      with (i + S (List.length l1))%nat by lia.
    destruct (FetchMigrations.parseToken _ _ _ token); reflexivity.
Qed.

Lemma resolved_validity token a b :
  fst (resolveMigrationDate token a) = None ->
  fst (resolveMigrationDate token b) = None.
Proof.
  unfold resolveMigrationDate.
  destruct (truthyTime (curveCompletedAt token)); [auto|].
  destruct (truthyTime (BagsApiToken.migratedAt token)); [auto|].
  destruct (truthyTime (BagsApiToken.launchedAt token)); [auto|].
  destruct (truthyTime (BagsApiToken.bondingCompletedAt token)); [auto|].
  destruct (truthyTime (BagsApiToken.completedAt token)); [auto|].
  destruct (truthyTime (BagsApiToken.createdAt token)); [auto|].
  discriminate.
Qed.

Lemma fetch_parseToken_dateParses nowM nowC stamp token :
  (exists m, FetchMigrations.parseToken nowM nowC stamp token = Parsed m)
  <-> dateParses token = true.
Proof.
  unfold dateParses, FetchMigrations.parseToken.
  destruct (fst (resolveMigrationDate token nowM)) as [d|] eqn:Hd.
  - destruct (fst (resolveMigrationDate token 0)) as [d0|] eqn:H0.
    + split; [reflexivity | intros _; eexists; reflexivity].
    + apply resolved_validity with (b := nowM) in H0. congruence.
  - apply resolved_validity with (b := 0%Z) in Hd. rewrite Hd.
    split; [intros (m & H); discriminate | discriminate].
Qed.

Lemma fetch_parseLoop_length clock entropy l :
  forall i,
    List.length (FetchMigrations.parseLoop clock entropy i l)
    = List.length (filter dateParses l).
Proof.
  induction l as [|token l IH]; intros i; simpl; [reflexivity|].
  pose proof (fetch_parseToken_dateParses
                (clock (i + (i + 0))%nat) (clock (S (i + (i + 0))))
                (entropy i) token) as Hd.
  destruct (FetchMigrations.parseToken _ _ _ token) as [| |m].
  - destruct (dateParses token); [|apply IH].
    destruct Hd as [_ Hd]. destruct (Hd eq_refl) as (m & Hm). discriminate.
  - destruct (dateParses token); [|apply IH].
    destruct Hd as [_ Hd]. destruct (Hd eq_refl) as (m & Hm). discriminate.
  - destruct Hd as [Hd _]. rewrite Hd by eauto. simpl. now rewrite IH.
Qed.

Lemma getNew_parseLoop_In clock m tokenList :
  forall n,
    In m (GetNewMigrations.parseLoop clock n tokenList) ->
    exists token k,
      In token tokenList
      /\ GetNewMigrations.parseToken (clock k) (clock (S k)) token = Parsed m.
Proof.
  induction tokenList as [|token rest IH]; intros n; simpl; [intros []|].
  destruct (GetNewMigrations.parseToken (clock n) (clock (S n)) token)
    as [| |m'] eqn:Hp; intros Hin.
  - destruct (IH _ Hin) as (t & k & Ht & Hk). eauto.
  - destruct (IH _ Hin) as (t & k & Ht & Hk). eauto.
  - destruct Hin as [<- | Hin]; [eauto|].
    destruct (IH _ Hin) as (t & k & Ht & Hk). eauto.
Qed.

Lemma orStr_nonempty a b : b <> EmptyString -> orStr a b <> EmptyString.
Proof. destruct a as [[|c s]|]; simpl; intros H; auto; discriminate. Qed.

Lemma stripNonAlnum_allAlnum s : allAlnum (stripNonAlnum s) = true.
Proof.
  induction s as [|c s IH]; simpl; [reflexivity|].
  destruct (isUpper c || isLower c || isDigit c) eqn:Hc; [|exact IH].
  simpl. now rewrite Hc, IH.
Qed.

End BatchFacts.

Module NormalizerExtras.
Import JS Scraper Spec Vocabulary Samples ScraperFacts BatchFacts.

(** X10 (the [getNewMigrations] feed returns qualifying tokens only).
    Every token [getNewMigrations] returns was built from a record of a
    body with [success: true], taken from [response] or, when that is
    missing, from [data.leaderboard]; the record carries a
    bonding-completion signal or the token's market cap reaches 100000;
    and a body with [success: false] yields nothing even when it carries
    records. *)
Theorem getNewMigrations_only_qualifying clock r m :
  In m (Network.getNewMigrations clock r) ->
  exists status body tokenList token,
    r = Network.Resolved status body
    /\ Network.success body = true
    /\ (Network.response body = Some tokenList
        \/ (Network.response body = None
            /\ Network.leaderboard body = Some tokenList))
    /\ In token tokenList
    /\ MigratedToken.marketCap m = deriveMarketCap token
    /\ MigratedToken.contractAddress m = BagsApiToken.tokenAddress token
    /\ (bondingSignal token \/ reachesThreshold (MigratedToken.marketCap m)).
Proof.
  assert (Hloop : forall tokenList,
             In m (GetNewMigrations.parseTokenLaunches clock tokenList) ->
             exists token,
               In token tokenList
               /\ MigratedToken.marketCap m = deriveMarketCap token
               /\ MigratedToken.contractAddress m = BagsApiToken.tokenAddress token
               /\ (bondingSignal token
                   \/ reachesThreshold (MigratedToken.marketCap m))).
  { intros tokenList Hin.
    destruct (getNew_parseLoop_In _ _ _ _ Hin) as (token & k & Ht & Hp).
    exists token. split; [exact Ht|].
    destruct (getNew_parseToken_fields _ _ _ Hp) as (_ & _ & Hcap & _ & Haddr).
    split; [exact Hcap|]. split; [exact Haddr|].
    assert (Hb : GetNewMigrations.buildMigration (clock k) (clock (S k)) token
                 = Some m).
    { unfold GetNewMigrations.parseToken in Hp.
      destruct (negb (GetNewMigrations.hasCompletedBonding token)
                && negb (GetNewMigrations.hasCrossed100kMcap (deriveMarketCap token)));
        [discriminate|].
      destruct (GetNewMigrations.buildMigration (clock k) (clock (S k)) token);
        [now inversion Hp | discriminate]. }
    now apply (getNew_parseToken_qualifies _ _ _ Hb). }
  destruct r as [|status body]; simpl; [intros []|].
  destruct (Network.success body) eqn:Hs; simpl; [|intros []].
  destruct (Network.response body) as [l|] eqn:Hr.
  - intros Hin. destruct (Hloop l Hin) as (token & H).
    exists status, body, l, token. repeat split; tauto.
  - destruct (Network.leaderboard body) as [l|] eqn:Hl; [|intros []].
    intros Hin. destruct (Hloop l Hin) as (token & H).
    exists status, body, l, token. repeat split; tauto.
Qed.

Lemma getNewMigrations_only_qualifying_witness :
  exists m status body tokenList token,
    Network.getNewMigrations tick
      (Network.Resolved 200
         (Network.mkResponse true None
            (Some [belowThreshold; atThreshold]))) = [m]
    /\ Network.Resolved 200
         (Network.mkResponse true None (Some [belowThreshold; atThreshold]))
       = Network.Resolved status body
    /\ Network.success body = true
    /\ (Network.response body = Some tokenList
        \/ (Network.response body = None
            /\ Network.leaderboard body = Some tokenList))
    /\ In token tokenList
    /\ MigratedToken.marketCap m = deriveMarketCap token
    /\ MigratedToken.contractAddress m = BagsApiToken.tokenAddress token
    /\ (bondingSignal token \/ reachesThreshold (MigratedToken.marketCap m)).
Proof.
  eexists.
  destruct (@getNewMigrations_only_qualifying tick
              (Network.Resolved 200
                 (Network.mkResponse true None
                    (Some [belowThreshold; atThreshold])))
              _ (or_introl eq_refl))
    as (status & body & tokenList & token & H).
  exists status, body, tokenList, token.
  split; [reflexivity | exact H].
Defined.

(** X11 (built tokens are well formed).  Every token either revision
    builds has a non-empty id, a non-empty name and a non-empty symbol
    (the placeholders stand in for missing ones); when the record has a
    non-empty address, that address is both the id and the contract
    address; and in the [getNewMigrations] revision an id that is not an
    address holds letters and digits only. *)
Theorem built_tokens_are_well_formed nowM nowC token m :
  GetNewMigrations.parseToken nowM nowC token = Parsed m
  \/ (exists stamp, FetchMigrations.parseToken nowM nowC stamp token = Parsed m) ->
  MigratedToken.id m <> EmptyString
  /\ MigratedToken.name m <> EmptyString
  /\ MigratedToken.symbol m <> EmptyString
  /\ (forall a, BagsApiToken.tokenAddress token = Some a -> a <> EmptyString ->
                MigratedToken.id m = a
                /\ MigratedToken.contractAddress m = Some a)
  /\ (GetNewMigrations.parseToken nowM nowC token = Parsed m ->
      lacksAddress token -> allAlnum (MigratedToken.id m) = true).
Proof.
  intros Hbuilt.
  assert (Hshape :
            (MigratedToken.id m = GetNewMigrations.tokenId token
             \/ exists stamp, MigratedToken.id m = FetchMigrations.tokenId stamp token)
            /\ MigratedToken.name m
               = orStr (BagsApiToken.name token) "Unknown Token"
            /\ MigratedToken.symbol m
               = orStr (BagsApiToken.symbol token) "UNKNOWN"
            /\ MigratedToken.contractAddress m = BagsApiToken.tokenAddress token).
  { destruct Hbuilt as [H | (stamp & H)].
    - unfold GetNewMigrations.parseToken in H.
      destruct (negb (GetNewMigrations.hasCompletedBonding token)
                && negb (GetNewMigrations.hasCrossed100kMcap (deriveMarketCap token)));
        [discriminate|].
      unfold GetNewMigrations.buildMigration in H.
      destruct (fst (resolveMigrationDate token nowM)); [|discriminate].
      inversion H; subst; simpl. repeat split; auto.
    - unfold FetchMigrations.parseToken in H.
      destruct (fst (resolveMigrationDate token nowM)); [|discriminate].
      inversion H; subst; simpl. repeat split; eauto. }
  destruct Hshape as (Hid & Hname & Hsym & Haddr).
  split; [|split; [|split; [|split]]].
  - destruct Hid as [-> | (stamp & ->)];
      unfold GetNewMigrations.tokenId, FetchMigrations.tokenId;
      destruct (BagsApiToken.tokenAddress token) as [[|c a]|]; simpl;
        discriminate.
  - rewrite Hname. apply orStr_nonempty. discriminate.
  - rewrite Hsym. apply orStr_nonempty. discriminate.
  - intros a Ha Hne. rewrite Haddr, Ha. split; [|reflexivity].
    destruct Hid as [-> | (stamp & ->)];
      unfold GetNewMigrations.tokenId, FetchMigrations.tokenId;
      rewrite Ha; destruct a; simpl; [now elim Hne | reflexivity
                                     | now elim Hne | reflexivity].
  - intros Hp Hno.
    assert (Hid1 : MigratedToken.id m = GetNewMigrations.tokenId token).
    { unfold GetNewMigrations.parseToken in Hp.
      destruct (negb (GetNewMigrations.hasCompletedBonding token)
                && negb (GetNewMigrations.hasCrossed100kMcap (deriveMarketCap token)));
        [discriminate|].
      unfold GetNewMigrations.buildMigration in Hp.
      destruct (fst (resolveMigrationDate token nowM)); [|discriminate].
      now inversion Hp. }
    rewrite Hid1. unfold GetNewMigrations.tokenId.
    destruct Hno as [-> | ->]; simpl; apply stripNonAlnum_allAlnum.
Qed.

Lemma built_tokens_are_well_formed_witness :
  exists m,
    FetchMigrations.parseToken 99 99 "1700000000000-0.42" Samples.addressless
    = Parsed m
    /\ MigratedToken.id m <> EmptyString
    /\ MigratedToken.name m <> EmptyString
    /\ MigratedToken.symbol m <> EmptyString.
Proof.
  eexists. split; [reflexivity|].
  destruct (@built_tokens_are_well_formed 99 99 Samples.addressless _
              (or_intror (ex_intro _ "1700000000000-0.42"%string eq_refl)))
    as (H1 & H2 & H3 & _).
  repeat split; assumption.
Defined.

(** X12 (shape of the synthesized id).  In the [getNewMigrations]
    revision the id of a record without a usable address is the text
    [token] followed by the letters and digits of the symbol and then
    those of the name, with nothing between them; so two such records
    get the same id exactly when these concatenations agree, wherever
    the symbol ends and the name begins. *)
Theorem synthesized_id_shape token token' :
  lacksAddress token -> lacksAddress token' ->
  GetNewMigrations.tokenId token
  = ("token" ++ alnum (BagsApiToken.symbol token)
             ++ alnum (BagsApiToken.name token))%string
  /\ (GetNewMigrations.tokenId token = GetNewMigrations.tokenId token' <->
      (alnum (BagsApiToken.symbol token) ++ alnum (BagsApiToken.name token)
       = alnum (BagsApiToken.symbol token') ++ alnum (BagsApiToken.name token'))%string).
Proof.
  intros Hno Hno'.
  assert (Ha : truthyStr (BagsApiToken.tokenAddress token) = false)
    by (destruct Hno as [-> | ->]; reflexivity).
  assert (Ha' : truthyStr (BagsApiToken.tokenAddress token') = false)
    by (destruct Hno' as [-> | ->]; reflexivity).
  rewrite !getNew_tokenId_synth by assumption. unfold alnum.
  split; [reflexivity|]. simpl. split.
  - intros H. now inversion H.
  - intros H. now rewrite H.
Qed.

Lemma synthesized_id_shape_witness :
  let r1 := record None (Some "C"%string) (Some "AB"%string) NoTime NoTime NoTime None None None in
  let r2 := record None (Some "BC"%string) (Some "A"%string) NoTime NoTime NoTime None None None in
  GetNewMigrations.tokenId r1 = "tokenABC"%string
  /\ GetNewMigrations.tokenId r1 = GetNewMigrations.tokenId r2.
Proof.
  cbv zeta.
  destruct (@synthesized_id_shape
              (record None (Some "C"%string) (Some "AB"%string) NoTime NoTime NoTime None None None)
              (record None (Some "BC"%string) (Some "A"%string) NoTime NoTime NoTime None None None)
              (or_introl eq_refl) (or_introl eq_refl)) as [H1 H2].
  split; [exact H1|]. apply H2. reflexivity.
Defined.

(** X13 (a batch is processed record by record).  In both revisions the
    output of a batch is the output of its first part followed by the
    output of the rest, read at the clock positions the first part
    leaves; the [fetchMigrations] revision returns one token per record
    whose date parses, so a record whose date does not parse drops out
    alone and the records after it are processed as if it had parsed. *)
Theorem batch_is_processed_record_by_record :
  (forall clock n l1 l2,
      GetNewMigrations.parseLoop clock n (l1 ++ l2)
      = GetNewMigrations.parseLoop clock n l1
        ++ GetNewMigrations.parseLoop clock (n + clockReads l1) l2)
  /\ (forall clock entropy i l1 l2,
         FetchMigrations.parseLoop clock entropy i (l1 ++ l2)
         = FetchMigrations.parseLoop clock entropy i l1
           ++ FetchMigrations.parseLoop clock entropy (i + List.length l1) l2)
  /\ (forall clock entropy i l,
         List.length (FetchMigrations.parseLoop clock entropy i l)
         = List.length (filter dateParses l))
  /\ (forall clock entropy i l1 bad l2,
         dateParses bad = false ->
         FetchMigrations.parseLoop clock entropy i (l1 ++ bad :: l2)
         = FetchMigrations.parseLoop clock entropy i l1
           ++ FetchMigrations.parseLoop clock entropy (S (i + List.length l1)) l2).
Proof.
  split; [|split; [|split]].
  - intros. apply getNew_parseLoop_app.
  - intros. apply fetch_parseLoop_app.
  - intros. apply fetch_parseLoop_length.
  - intros clock entropy i l1 bad l2 Hbad.
    rewrite fetch_parseLoop_app. f_equal. simpl.
    destruct (FetchMigrations.parseToken _ _ _ bad) as [| |m] eqn:Hp;
      try reflexivity.
    assert (dateParses bad = true)
      by (eapply fetch_parseToken_dateParses; eauto).
    congruence.
Qed.

Lemma batch_is_processed_record_by_record_witness :
  let bad := record (Some "So1anaMint"%string) (Some "Bad"%string) (Some "BAD"%string)
                    (Time 1000) BadTime NoTime None None None in
  FetchMigrations.parseLoop tick (fun _ => "0-0.5"%string) 0
    ([launchedTwoHoursIn] ++ bad :: [Samples.addressless])
  = FetchMigrations.parseLoop tick (fun _ => "0-0.5"%string) 0 [launchedTwoHoursIn]
    ++ FetchMigrations.parseLoop tick (fun _ => "0-0.5"%string) 2
         [Samples.addressless].
Proof.
  cbv zeta.
  apply (proj2 (proj2 (proj2 batch_is_processed_record_by_record))
               tick (fun _ => "0-0.5"%string) 0%nat [launchedTwoHoursIn]).
  reflexivity.
Defined.

End NormalizerExtras.

(* ------------------------------------------------------------------ *)
(** ** Rounding to binary64                                             *)
(* ------------------------------------------------------------------ *)

Module RoundingFacts.
Import Binary64.
Local Open Scope Q_scope.

Lemma pow2_pos k : 0 < pow2 k.
Proof. apply Qpower_0_lt. reflexivity. Qed.

Lemma pow2_plus a b : pow2 (a + b) == pow2 a * pow2 b.
Proof. apply Qpower_plus. discriminate. Qed.

Lemma pow2_le a b : (a <= b)%Z -> pow2 a <= pow2 b.
Proof. intros H. apply Qpower_le_compat_l; [exact H | discriminate]. Qed.

Lemma pow2_Z n : (0 <= n)%Z -> pow2 n == inject_Z (2 ^ n).
Proof. intros H. unfold pow2. now rewrite Zpower_Qpower. Qed.

Lemma pow2_succ k : pow2 (k + 1) == 2 * pow2 k.
Proof. rewrite pow2_plus. unfold pow2 at 2. rewrite Qpower_1_r. ring. Qed.

Lemma floor_spec x :
  inject_Z (Qfloor x) <= x /\ x < inject_Z (Qfloor x) + 1.
Proof.
  split; [apply Qfloor_le|].
  pose proof (Qlt_floor x) as H. rewrite inject_Z_plus in H. exact H.
Qed.

(** [ilog2 x] is the exponent of the binade of [x]. *)
Lemma ilog2_spec x : 0 < x -> pow2 (ilog2 x) <= x /\ x < pow2 (ilog2 x + 1).
Proof.
  intros Hx. destruct x as [n d].
  assert (Hn : (0 < n)%Z).
  { unfold Qlt in Hx. simpl in Hx. lia. }
  unfold ilog2. simpl Qnum. simpl Qden.
  destruct (Z.log2_spec n Hn) as [Ha1 Ha2].
  destruct (Z.log2_spec (Zpos d) (Pos2Z.is_pos d)) as [Hb1 Hb2].
  pose proof (Z.log2_nonneg n) as Ha0.
  pose proof (Z.log2_nonneg (Zpos d)) as Hb0.
  set (a := Z.log2 n) in *. set (b := Z.log2 (Zpos d)) in *.
  assert (Hnd : n # d == inject_Z n / inject_Z (Zpos d)) by apply Qmake_Qdiv.
  assert (Hdpos : 0 < inject_Z (Zpos d)) by reflexivity.
  assert (Qa1 : pow2 a <= inject_Z n)
    by (rewrite pow2_Z by lia; now rewrite <- Zle_Qle).
  assert (Qa2 : inject_Z n < pow2 (a + 1))
    by (rewrite pow2_Z by lia; now rewrite <- Zlt_Qlt; rewrite <- Z.add_1_r in Ha2).
  assert (Qb1 : pow2 b <= inject_Z (Zpos d))
    by (rewrite pow2_Z by lia; now rewrite <- Zle_Qle).
  assert (Qb2 : inject_Z (Zpos d) < pow2 (b + 1))
    by (rewrite pow2_Z by lia; now rewrite <- Zlt_Qlt; rewrite <- Z.add_1_r in Hb2).
  pose proof (pow2_pos b) as Pb. pose proof (pow2_pos (a - b)) as Pk.
  assert (Ea : pow2 a == pow2 (a - b) * pow2 b)
    by (rewrite <- pow2_plus; now replace (a - b + b)%Z with a by lia).
  rewrite pow2_succ in Qa2, Qb2.
  destruct (Qle_bool (pow2 (a - b)) (n # d)) eqn:Hle.
  - apply Qle_bool_iff in Hle. split; [exact Hle|].
    rewrite pow2_succ, Hnd.
    apply Qlt_shift_div_r; [exact Hdpos|].
    apply Qlt_le_trans with (2 * pow2 a); [exact Qa2|].
    rewrite Ea.
    setoid_replace (2 * (pow2 (a - b) * pow2 b))
      with (2 * pow2 (a - b) * pow2 b) by ring.
    apply Qmult_le_l; [|exact Qb1].
    lra.
  - assert (Hlt : n # d < pow2 (a - b)).
    { apply Qnot_le_lt. intros H. apply Qle_bool_iff in H. congruence. }
    replace (a - b - 1 + 1)%Z with (a - b)%Z by lia.
    split; [|exact Hlt].
    assert (Ek : pow2 (a - b) == 2 * pow2 (a - b - 1)).
    { rewrite <- pow2_succ. now replace (a - b - 1 + 1)%Z with (a - b)%Z by lia. }
    rewrite Hnd. apply Qle_shift_div_l; [exact Hdpos|].
    apply Qle_trans with (pow2 a); [|exact Qa1].
    rewrite Ea, Ek.
    pose proof (pow2_pos (a - b - 1)) as Pk1.
    apply Qle_trans with (pow2 (a - b - 1) * (2 * pow2 b)).
    + apply Qmult_le_l; [exact Pk1 | lra].
    + setoid_replace (2 * pow2 (a - b - 1) * pow2 b)
        with (pow2 (a - b - 1) * (2 * pow2 b)) by ring.
      apply Qle_refl.
Qed.

Lemma ilog2_mono x y : 0 < x -> x <= y -> (ilog2 x <= ilog2 y)%Z.
Proof.
  intros Hx Hxy.
  assert (Hy : 0 < y) by lra.
  destruct (ilog2_spec Hx) as [X1 _].
  destruct (ilog2_spec Hy) as [_ Y2].
  destruct (Z_le_gt_dec (ilog2 x) (ilog2 y)) as [H | H]; [exact H|].
  assert (Hp : pow2 (ilog2 y + 1) <= pow2 (ilog2 x)) by (apply pow2_le; lia).
  lra.
Qed.

Ltac compared H :=
  match type of H with
  | Qcompare _ _ = Eq => apply Qeq_alt in H
  | Qcompare _ _ = Lt => apply Qlt_alt in H
  | Qcompare _ _ = Gt => apply Qgt_alt in H
  end.

Lemma nearestEven_floor x : (Qfloor x <= nearestEven x <= Qfloor x + 1)%Z.
Proof.
  unfold nearestEven.
  destruct (Qcompare (x - inject_Z (Qfloor x)) (1 # 2));
    [destruct (Z.even (Qfloor x))| |]; lia.
Qed.

Lemma nearestEven_Z k : nearestEven (inject_Z k) = k.
Proof.
  unfold nearestEven. rewrite Qfloor_Z.
  destruct (Qcompare (inject_Z k - inject_Z k) (1 # 2)) eqn:Hc;
    [apply Qeq_alt in Hc | reflexivity | apply Qgt_alt in Hc];
    exfalso; lra.
Qed.

Lemma nearestEven_near x :
  inject_Z (nearestEven x) - (1 # 2) <= x
  /\ x <= inject_Z (nearestEven x) + (1 # 2).
Proof.
  unfold nearestEven. destruct (floor_spec x) as [F1 F2].
  destruct (Qcompare (x - inject_Z (Qfloor x)) (1 # 2)) eqn:Hc.
  - apply Qeq_alt in Hc.
    destruct (Z.even (Qfloor x));
      [|rewrite inject_Z_plus; change (inject_Z 1) with 1]; split; lra.
  - apply Qlt_alt in Hc. split; lra.
  - apply Qgt_alt in Hc. rewrite inject_Z_plus. change (inject_Z 1) with 1.
    split; lra.
Qed.

Lemma nearestEven_mono x y : x <= y -> (nearestEven x <= nearestEven y)%Z.
Proof.
  intros Hxy.
  pose proof (Qfloor_resp_le _ _ Hxy) as Hf.
  pose proof (nearestEven_floor x) as Nx.
  pose proof (nearestEven_floor y) as Ny.
  destruct (Z.eq_dec (Qfloor x) (Qfloor y)) as [He | Hne]; [|lia].
  unfold nearestEven. rewrite <- He.
  destruct (Qcompare (x - inject_Z (Qfloor x)) (1 # 2)) eqn:Hx;
    destruct (Qcompare (y - inject_Z (Qfloor x)) (1 # 2)) eqn:Hy;
    try (destruct (Z.even (Qfloor x))); try lia;
    compared Hx; compared Hy; exfalso; lra.
Qed.

Lemma ulpExp_mono x y : 0 < x -> x <= y -> (ulpExp x <= ulpExp y)%Z.
Proof.
  intros Hx Hxy. unfold ulpExp. pose proof (ilog2_mono Hx Hxy). lia.
Qed.

Lemma div_pow2_le x y e : x <= y -> x / pow2 e <= y / pow2 e.
Proof.
  intros H. unfold Qdiv. apply Qmult_le_compat_r; [exact H|].
  apply Qlt_le_weak, Qinv_lt_0_compat, pow2_pos.
Qed.

(** The rounded value stays in the closed binade of [x]. *)
Lemma roundPos_upper x : 0 < x -> roundPos x <= pow2 (ulpExp x + 53).
Proof.
  intros Hx. unfold roundPos.
  destruct (ilog2_spec Hx) as [_ X2].
  pose proof (pow2_pos (ulpExp x)) as Pe.
  assert (Hb : x / pow2 (ulpExp x) <= inject_Z (2 ^ 53)).
  { apply Qle_shift_div_r; [exact Pe|].
    rewrite <- pow2_Z by lia. rewrite <- pow2_plus.
    apply Qlt_le_weak. eapply Qlt_le_trans; [exact X2|].
    apply pow2_le. unfold ulpExp. lia. }
  apply nearestEven_mono in Hb. rewrite nearestEven_Z in Hb.
  rewrite Z.add_comm, pow2_plus, (pow2_Z (n := 53)) by lia.
  apply Qmult_le_compat_r; [|lra].
  now rewrite <- Zle_Qle.
Qed.

Lemma roundPos_lower x :
  0 < x -> (-1074 < ulpExp x)%Z -> pow2 (ulpExp x + 52) <= roundPos x.
Proof.
  intros Hx He. unfold roundPos.
  destruct (ilog2_spec Hx) as [X1 _].
  pose proof (pow2_pos (ulpExp x)) as Pe.
  assert (Hu : (ulpExp x + 52 = ilog2 x)%Z) by (unfold ulpExp in *; lia).
  assert (Hb : inject_Z (2 ^ 52) <= x / pow2 (ulpExp x)).
  { apply Qle_shift_div_l; [exact Pe|].
    rewrite <- pow2_Z by lia. rewrite <- pow2_plus.
    rewrite Z.add_comm, Hu. exact X1. }
  apply nearestEven_mono in Hb. rewrite nearestEven_Z in Hb.
  rewrite Z.add_comm, pow2_plus, (pow2_Z (n := 52)) by lia.
  apply Qmult_le_compat_r; [|lra].
  now rewrite <- Zle_Qle.
Qed.

Lemma roundPos_mono x y : 0 < x -> x <= y -> roundPos x <= roundPos y.
Proof.
  intros Hx Hxy. assert (Hy : 0 < y) by lra.
  pose proof (ulpExp_mono Hx Hxy) as He.
  destruct (Z.eq_dec (ulpExp x) (ulpExp y)) as [Heq | Hne].
  - unfold roundPos. rewrite Heq.
    apply Qmult_le_compat_r; [|apply Qlt_le_weak, pow2_pos].
    rewrite <- Zle_Qle. apply nearestEven_mono. now apply div_pow2_le.
  - apply Qle_trans with (pow2 (ulpExp x + 53)); [now apply roundPos_upper|].
    apply Qle_trans with (pow2 (ulpExp y + 52)).
    + apply pow2_le. lia.
    + apply roundPos_lower; [exact Hy|]. unfold ulpExp in *. lia.
Qed.

Lemma roundPos_nonneg x : 0 < x -> 0 <= roundPos x.
Proof.
  intros Hx. unfold roundPos.
  pose proof (pow2_pos (ulpExp x)) as Pe.
  apply Qmult_le_0_compat; [|lra].
  assert (H0 : inject_Z 0 <= x / pow2 (ulpExp x)).
  { apply Qle_shift_div_l; [exact Pe|]. change (inject_Z 0) with 0. lra. }
  apply nearestEven_mono in H0. rewrite nearestEven_Z in H0.
  change 0 with (inject_Z 0). now rewrite <- Zle_Qle.
Qed.

(** Rounding is monotone (here on the numbers that are not negative). *)
Lemma round_mono x y : 0 <= x -> x <= y -> round x <= round y.
Proof.
  intros Hx Hxy. unfold round.
  destruct (Qcompare x 0) eqn:Cx.
  - destruct (Qcompare y 0) eqn:Cy; compared Cy.
    + lra.
    + compared Cx. lra.
    + now apply roundPos_nonneg.
  - compared Cx. lra.
  - compared Cx.
    assert (Cy : Qcompare y 0 = Gt) by (apply Qgt_alt; lra).
    rewrite Cy. now apply roundPos_mono.
Qed.

(** A number between two binary64 numbers rounds between them. *)
Lemma round_between a b x :
  0 <= a -> a <= x -> x <= b -> round a == a -> round b == b ->
  a <= round x /\ round x <= b.
Proof.
  intros Ha Hax Hxb Ra Rb. split.
  - apply Qle_trans with (round a); [lra | now apply round_mono].
  - apply Qle_trans with (round b); [apply round_mono; lra | lra].
Qed.

(** On the kernel's binary64 numbers: the product, the quotients and
    the sum below are the roundings of the exact results, ties and
    subnormal numbers included. *)
Lemma round_is_binary64_on_samples :
  isRounded (1005 / 1000)%float (1005 # 1000) = true
  /\ isRounded (0x1.e666666666666p-2 * 60)%float
               ((8556839292003942 # 18014398509481984) * 60) = true
  /\ isRounded (999999 / 1000)%float (999999 # 1000) = true
  /\ isRounded (1 / 3)%float (1 # 3) = true
  /\ isRounded (0x1p53 + 1)%float (inject_Z (2 ^ 53) + 1) = true
  /\ isRounded (0x1p53 + 3)%float (inject_Z (2 ^ 53) + 3) = true
  /\ isRounded (0x1p-1074 * 0.5)%float (pow2 (-1074) * (1 # 2)) = true
  /\ isRounded (0x1p-1074 * 1.5)%float (pow2 (-1074) * (3 # 2)) = true
  /\ isRounded (0x1p-1074 * 2.5)%float (pow2 (-1074) * (5 # 2)) = true
  /\ isRounded (0x1.7cccccccccccdp+5 / 24)%float
               ((6699104445713613 # 140737488355328) / 24) = true.
Proof. vm_compute. repeat split; reflexivity. Qed.

Lemma representable_samples :
  round 1 == 1 /\ round 24 == 24 /\ round 60 == 60 /\ round 1000 == 1000
  /\ round 1000000 == 1000000 /\ round 1000000000 == 1000000000
  /\ round (inject_Z (10 ^ 20)) == inject_Z (10 ^ 20)
  /\ round (inject_Z (10 ^ 21)) == inject_Z (10 ^ 21).
Proof. repeat split; apply Qeq_bool_eq; vm_compute; reflexivity. Qed.

End RoundingFacts.

(* ------------------------------------------------------------------ *)
(** ** The texts for durations and amounts                              *)
(* ------------------------------------------------------------------ *)

Module FormatFacts.
Import Binary64 Notifier RoundingFacts.
Local Open Scope Q_scope.

Lemma ltNum_lt a b : ltNum a b = true <-> a < b.
Proof.
  unfold ltNum. rewrite negb_true_iff. split.
  - intros H. apply Qnot_le_lt. intros Hle.
    apply Qle_bool_iff in Hle. congruence.
  - intros H. apply not_true_is_false. intros Hle.
    apply Qle_bool_iff in Hle. now apply (Qlt_not_le a b).
Qed.

Lemma ltNum_ge a b : ltNum a b = false <-> b <= a.
Proof.
  unfold ltNum. rewrite negb_false_iff. apply Qle_bool_iff.
Qed.

Lemma Qle_bool_false a b : Qle_bool a b = false <-> b < a.
Proof.
  split.
  - intros H. apply Qnot_le_lt. intros Hle. apply Qle_bool_iff in Hle.
    congruence.
  - intros H. apply not_true_is_false. intros Hle.
    apply Qle_bool_iff in Hle. now apply (Qlt_not_le b a).
Qed.

Lemma floor_between x (a b : Z) :
  inject_Z a <= x -> x < inject_Z b -> (a <= Qfloor x < b)%Z.
Proof.
  intros Ha Hb. split.
  - rewrite <- (Qfloor_Z a). now apply Qfloor_resp_le.
  - rewrite Zlt_Qlt. eapply Qle_lt_trans; [apply Qfloor_le | exact Hb].
Qed.

Lemma mathRound_spec x :
  inject_Z (mathRound x) - (1 # 2) <= x /\ x < inject_Z (mathRound x) + (1 # 2).
Proof.
  unfold mathRound. destruct (floor_spec (x + (1 # 2))) as [H1 H2].
  split; lra.
Qed.

Lemma mathRound_between x (a b : Z) :
  inject_Z a <= x -> x <= inject_Z b -> (a <= mathRound x <= b)%Z.
Proof.
  intros Ha Hb. unfold mathRound.
  assert (H : (a <= Qfloor (x + (1 # 2)) < b + 1)%Z).
  { apply floor_between; [lra|]. rewrite inject_Z_plus.
    change (inject_Z 1) with 1. lra. }
  lia.
Qed.

Lemma Qabs_nonneg_eq x : 0 <= x -> Qabs x = x.
Proof.
  destruct x as [n d]. unfold Qle. simpl. intros H.
  rewrite Z.abs_eq by lia. reflexivity.
Qed.

(** [toFixed] of a number that is not negative and below 10^21. *)
Lemma toFixed_nonneg digits x :
  0 <= x -> x < inject_Z (10 ^ 21) ->
  toFixed digits x
  = Fixed false (Qfloor (x * inject_Z (10 ^ digits) + (1 # 2))).
Proof.
  intros H0 H1. unfold toFixed. rewrite (Qabs_nonneg_eq H0).
  rewrite (proj2 (Qle_bool_false _ _) H1).
  now rewrite (proj2 (ltNum_ge x 0) H0).
Qed.

(** The remainder of a number that is not negative. *)
Lemma remainder_spec a b :
  0 <= a -> 0 < b ->
  remainder a b == a - b * inject_Z (Qfloor (a / b))
  /\ 0 <= remainder a b /\ remainder a b < b.
Proof.
  intros Ha Hb. unfold remainder.
  rewrite (proj2 (ltNum_ge a 0) Ha).
  destruct (floor_spec (a / b)) as [F1 F2].
  assert (Hdiv : a == b * (a / b)) by (field; lra).
  split; [reflexivity|].
  set (q := inject_Z (Qfloor (a / b))) in *.
  assert (H1 : b * q <= b * (a / b)) by (apply Qmult_le_l; assumption).
  assert (H2 : b * (a / b) < b * (q + 1)) by (apply Qmult_lt_l; assumption).
  split; lra.
Qed.

(** The integers up to 2^53 are binary64 numbers. *)
Lemma round_Z k :
  (0 <= k <= 2 ^ 53)%Z -> round (inject_Z k) == inject_Z k.
Proof.
  intros Hk. unfold round.
  destruct (Qcompare (inject_Z k) 0) eqn:Hc; compared Hc.
  - lra.
  - exfalso. change 0 with (inject_Z 0) in Hc. rewrite <- Zlt_Qlt in Hc. lia.
  - assert (Hpos : (0 < k)%Z)
      by (change 0 with (inject_Z 0) in Hc; now rewrite <- Zlt_Qlt in Hc).
    destruct (ilog2_spec Hc) as [L1 L2].
    assert (He0 : (0 <= ilog2 (inject_Z k))%Z).
    { destruct (Z_le_gt_dec 0 (ilog2 (inject_Z k))) as [H|H]; [exact H|].
      assert (Hp : pow2 (ilog2 (inject_Z k) + 1) <= pow2 0)
        by (apply pow2_le; lia).
      change (pow2 0) with 1 in Hp.
      assert (H1 : 1 <= inject_Z k)
        by (change 1 with (inject_Z 1); rewrite <- Zle_Qle; lia).
      lra. }
    assert (He53 : (ilog2 (inject_Z k) <= 53)%Z).
    { destruct (Z_le_gt_dec (ilog2 (inject_Z k)) 53) as [H|H]; [exact H|].
      assert (Hp : pow2 54 <= pow2 (ilog2 (inject_Z k)))
        by (apply pow2_le; lia).
      rewrite (pow2_Z (n := 54)) in Hp by lia.
      assert (H1 : inject_Z k < inject_Z (2 ^ 54))
        by (rewrite <- Zlt_Qlt; lia).
      lra. }
    unfold roundPos, ulpExp.
    set (e := ilog2 (inject_Z k)) in *.
    rewrite Z.max_l by lia.
    destruct (Z_le_gt_dec e 52) as [Hle | Hgt].
    + assert (Hs : pow2 (e - 52) * pow2 (52 - e) == 1).
      { rewrite <- pow2_plus. now replace (e - 52 + (52 - e))%Z with 0%Z by lia. }
      pose proof (pow2_pos (e - 52)) as P1.
      assert (Hinv : / pow2 (e - 52) == pow2 (52 - e)).
      { apply (Qmult_inj_l _ _ (pow2 (e - 52))); [lra|].
        rewrite Qmult_inv_r by lra. now rewrite Hs. }
      assert (Hq : inject_Z k / pow2 (e - 52) == inject_Z (k * 2 ^ (52 - e))).
      { rewrite inject_Z_mult, <- pow2_Z by lia. unfold Qdiv.
        now rewrite Hinv. }
      assert (Hn : nearestEven (inject_Z k / pow2 (e - 52)) = (k * 2 ^ (52 - e))%Z).
      { rewrite <- (nearestEven_Z (k * 2 ^ (52 - e))).
        apply Z.le_antisymm; apply nearestEven_mono; lra. }
      rewrite Hn, inject_Z_mult, <- pow2_Z by lia.
      rewrite <- Qmult_assoc, (Qmult_comm (pow2 (52 - e))), Hs. ring.
    + assert (e = 53)%Z by lia. subst e.
      assert (Hk53 : k = (2 ^ 53)%Z).
      { rewrite H in L1. rewrite (pow2_Z (n := 53)) in L1 by lia.
        rewrite <- Zle_Qle in L1. lia. }
      rewrite H. subst k. apply Qeq_bool_eq. vm_compute. reflexivity.
Qed.

End FormatFacts.

Module DurationExtras.
Import Binary64 Notifier RoundingFacts FormatFacts.
Local Open Scope Q_scope.

(** X14 (what [formatDuration] prints).  For a duration that is not
    negative: below one hour it prints whole minutes between 0 and 60
    inclusive, the nearest to the rounded product [hours * 60]; from one
    hour to below a day it prints tenths of hours between 1.0 and 24.0
    inclusive, the nearest to the duration; from a day on it prints at
    least one day, which below 24 * 2^53 hours is the whole number of
    days of the duration or one more, and either no hours, when the
    rest is under half an hour, or between 1 and 24 hours inclusive,
    the nearest to the rest. *)
Theorem formatDuration_bounds hours :
  0 <= hours ->
  match formatDuration hours with
  | Minutes n =>
      hours < 1 /\ (0 <= n <= 60)%Z
      /\ inject_Z n - (1 # 2) <= round (hours * 60)
      /\ round (hours * 60) < inject_Z n + (1 # 2)
  | HoursFixed1 t =>
      1 <= hours /\ hours < 24
      /\ exists c, t = Fixed false c /\ (10 <= c <= 240)%Z
                   /\ inject_Z c - (1 # 2) <= hours * 10
                   /\ hours * 10 < inject_Z c + (1 # 2)
  | Days d =>
      24 <= hours /\ (1 <= d)%Z
      /\ (hours < inject_Z (24 * 2 ^ 53) ->
          (Qfloor (hours / 24) <= d <= Qfloor (hours / 24) + 1)%Z)
      /\ remainder hours 24 < 1 # 2
  | DaysHours d r =>
      24 <= hours /\ (1 <= d)%Z
      /\ (hours < inject_Z (24 * 2 ^ 53) ->
          (Qfloor (hours / 24) <= d <= Qfloor (hours / 24) + 1)%Z)
      /\ (1 <= r <= 24)%Z
      /\ inject_Z r - (1 # 2) <= remainder hours 24
      /\ remainder hours 24 < inject_Z r + (1 # 2)
  end.
Proof.
  intros Hpos. unfold formatDuration.
  destruct representable_samples as (R1 & R24 & R60 & _).
  destruct (ltNum hours 1) eqn:H1.
  - apply ltNum_lt in H1.
    destruct (mathRound_spec (round (hours * 60))) as [M1 M2].
    split; [exact H1|]. split; [|split; assumption].
    assert (Hb : 0 <= round (hours * 60) /\ round (hours * 60) <= 60).
    { apply round_between; try lra. reflexivity. }
    apply mathRound_between; [change (inject_Z 0) with 0 | change (inject_Z 60) with 60]; lra.
  - apply ltNum_ge in H1.
    destruct (ltNum hours 24) eqn:H24.
    + apply ltNum_lt in H24. split; [exact H1|]. split; [exact H24|].
      assert (H21 : hours < inject_Z (10 ^ 21)).
      { apply Qlt_trans with 24; [exact H24 | reflexivity]. }
      exists (Qfloor (hours * inject_Z (10 ^ 1) + (1 # 2))).
      split; [apply toFixed_nonneg; [lra | exact H21]|].
      change (inject_Z (10 ^ 1)) with 10.
      destruct (floor_spec (hours * 10 + (1 # 2))) as [F1 F2].
      split; [|split; lra].
      assert (Hb : (10 <= Qfloor (hours * 10 + (1 # 2)) < 241)%Z).
      { apply floor_between;
          [change (inject_Z 10) with 10 | change (inject_Z 241) with 241]; lra. }
      lia.
    + apply ltNum_ge in H24.
      assert (Hdiv : hours == 24 * (hours / 24)) by field.
      assert (Hq1 : 1 <= hours / 24) by lra.
      assert (Hd : (1 <= Qfloor (round (hours / 24)))%Z).
      { assert (Hr : 1 <= round (hours / 24)).
        { apply Qle_trans with (round 1); [lra|]. apply round_mono; lra. }
        rewrite <- (Qfloor_Z 1). now apply Qfloor_resp_le. }
      assert (Hdays : hours < inject_Z (24 * 2 ^ 53) ->
                (Qfloor (hours / 24) <= Qfloor (round (hours / 24))
                 <= Qfloor (hours / 24) + 1)%Z).
      { intros Hbig. rewrite inject_Z_mult in Hbig.
        change (inject_Z 24) with 24 in Hbig.
        destruct (floor_spec (hours / 24)) as [F1 F2].
        set (n := Qfloor (hours / 24)) in *.
        assert (Hn1 : (1 <= n)%Z).
        { unfold n. rewrite <- (Qfloor_Z 1). now apply Qfloor_resp_le. }
        assert (Hn2 : (n < 2 ^ 53)%Z).
        { rewrite Zlt_Qlt. lra. }
        assert (Hb : inject_Z n <= round (hours / 24)
                     /\ round (hours / 24) <= inject_Z (n + 1)).
        { apply round_between.
          - change 0 with (inject_Z 0). rewrite <- Zle_Qle. lia.
          - exact F1.
          - rewrite inject_Z_plus. change (inject_Z 1) with 1. lra.
          - apply round_Z. lia.
          - apply round_Z. lia. }
        destruct Hb as [B1 B2]. split.
        - rewrite <- (Qfloor_Z n). now apply Qfloor_resp_le.
        - rewrite <- (Qfloor_Z (n + 1)). now apply Qfloor_resp_le. }
      destruct (@remainder_spec hours 24) as (_ & Rm0 & Rm24); [lra | reflexivity|].
      destruct (mathRound_spec (remainder hours 24)) as [M1 M2].
      assert (Hr : (0 <= mathRound (remainder hours 24) <= 24)%Z).
      { apply mathRound_between;
          [change (inject_Z 0) with 0 | change (inject_Z 24) with 24]; lra. }
      destruct (mathRound (remainder hours 24) =? 0)%Z eqn:Hz.
      * apply Z.eqb_eq in Hz. rewrite Hz in M2.
        change (inject_Z 0) with 0 in M2.
        split; [exact H24|]. split; [exact Hd|]. split; [exact Hdays|]. lra.
      * apply Z.eqb_neq in Hz.
        split; [exact H24|]. split; [exact Hd|]. split; [exact Hdays|].
        split; [lia|]. split; assumption.
Qed.

Lemma formatDuration_bounds_witness :
  0 <= 6699104445713613 # 140737488355328
  /\ match formatDuration (6699104445713613 # 140737488355328) with
     | DaysHours d r =>
         (1 <= d)%Z /\ (1 <= r <= 24)%Z
         /\ inject_Z r - (1 # 2)
            <= remainder (6699104445713613 # 140737488355328) 24
     | _ => False
     end.
Proof.
  assert (Hpos : 0 <= 6699104445713613 # 140737488355328) by discriminate.
  split; [exact Hpos|].
  pose proof (formatDuration_bounds Hpos) as H.
  destruct (formatDuration (6699104445713613 # 140737488355328)) eqn:Hf;
    try (exfalso; vm_compute in Hf; discriminate Hf).
  tauto.
Defined.

(** The four shapes on binary64 numbers: 0.475 (28.5 minutes once
    multiplied), the double below 1, 23.96 and 47.6. *)
Example formatDuration_samples :
  formatDuration (8556839292003942 # 18014398509481984) = Minutes 29
  /\ formatDuration (round (9999 # 10000)) = Minutes 60
  /\ formatDuration (round (2396 # 100)) = HoursFixed1 (Fixed false 240)
  /\ formatDuration (round (476 # 10)) = DaysHours 1 24
  /\ formatDuration 48 = Days 2.
Proof. vm_compute. repeat split; reflexivity. Qed.

End DurationExtras.

Module CurrencyExtras.
Import Binary64 Notifier RoundingFacts FormatFacts.
Local Open Scope Q_scope.

(** X17 (what [formatCurrency] prints).  A suffix is used exactly from
    1000 on, with a unit that does not exceed the amount; with K or M,
    and with B up to 10^29, the text is a plain decimal of at least
    1.00, the nearest hundredth to the rounded quotient of the amount by
    the unit, and with K or M at most 1000.00; without suffix, for an
    amount that is not negative, it is the nearest hundredth to the
    amount, at most 1000.00. *)
Theorem formatCurrency_bounds amount :
  match formatCurrency amount with
  | Plain t =>
      amount < 1000
      /\ (0 <= amount ->
          exists c, t = Fixed false c /\ (0 <= c <= 100000)%Z
                    /\ inject_Z c - (1 # 2) <= amount * 100
                    /\ amount * 100 < inject_Z c + (1 # 2))
  | Scaled t u =>
      unitOf u <= amount
      /\ (u <> Billions -> amount < 1000 * unitOf u)
      /\ (u <> Billions \/ amount <= inject_Z (10 ^ 29) ->
          exists c, t = Fixed false c /\ (100 <= c)%Z
                    /\ (u <> Billions -> (c <= 100000)%Z)
                    /\ inject_Z c - (1 # 2) <= round (amount / unitOf u) * 100
                    /\ round (amount / unitOf u) * 100 < inject_Z c + (1 # 2))
  end.
Proof.
  destruct representable_samples as (R1 & _ & _ & R1000 & _ & _ & R20 & _).
  assert (Hfix : forall q b,
             1 <= q -> q <= b -> b <= inject_Z (10 ^ 20) -> round b == b ->
             exists c, toFixed 2 (round q) = Fixed false c /\ (100 <= c)%Z
                       /\ inject_Z c <= b * 100 + (1 # 2)
                       /\ inject_Z c - (1 # 2) <= round q * 100
                       /\ round q * 100 < inject_Z c + (1 # 2)).
  { intros q b Hq1 Hqb Hb Rb.
    assert (Hr : 1 <= round q /\ round q <= b)
      by (apply round_between; try lra).
    destruct Hr as [Hr1 Hr2].
    assert (H20 : inject_Z (10 ^ 20) < inject_Z (10 ^ 21)) by reflexivity.
    exists (Qfloor (round q * inject_Z (10 ^ 2) + (1 # 2))).
    split; [apply toFixed_nonneg; lra|].
    change (inject_Z (10 ^ 2)) with 100.
    destruct (floor_spec (round q * 100 + (1 # 2))) as [F1 F2].
    split; [|split; [lra | split; lra]].
    apply Z.le_trans with (Qfloor (inject_Z 100));
      [rewrite Qfloor_Z; lia | apply Qfloor_resp_le].
    change (inject_Z 100) with 100. lra. }
  assert (Hscaled : forall u,
             unitOf u <= amount ->
             (u <> Billions -> amount < 1000 * unitOf u) ->
             unitOf u <= amount
             /\ (u <> Billions -> amount < 1000 * unitOf u)
             /\ (u <> Billions \/ amount <= inject_Z (10 ^ 29) ->
                 exists c, toFixed 2 (round (amount / unitOf u)) = Fixed false c
                           /\ (100 <= c)%Z
                           /\ (u <> Billions -> (c <= 100000)%Z)
                           /\ inject_Z c - (1 # 2) <= round (amount / unitOf u) * 100
                           /\ round (amount / unitOf u) * 100 < inject_Z c + (1 # 2))).
  { intros u Hge Hlt. split; [exact Hge|]. split; [exact Hlt|].
    assert (Hdiv : amount == unitOf u * (amount / unitOf u))
      by (destruct u; unfold unitOf; field).
    assert (Hq1 : 1 <= amount / unitOf u)
      by (destruct u; unfold unitOf in *; lra).
    intros Hsmall.
    assert (Hcase : u <> Billions \/ (u = Billions /\ amount <= inject_Z (10 ^ 29))).
    { destruct u; [right | left; discriminate | left; discriminate].
      split; [reflexivity|]. destruct Hsmall as [H | H]; [now elim H | exact H]. }
    destruct Hcase as [Hnb | [-> Hbig]].
    - specialize (Hlt Hnb).
      assert (Hq2 : amount / unitOf u <= 1000)
        by (destruct u; unfold unitOf in *; [now elim Hnb | lra | lra]).
      destruct (@Hfix (amount / unitOf u) 1000 Hq1 Hq2) as (c & Hc & H100 & Hup & Hn);
        [compute; discriminate | exact R1000 |].
      exists c. split; [exact Hc|]. split; [exact H100|]. split; [|exact Hn].
      intros _. rewrite Zle_Qle.
      apply Qle_trans with (inject_Z 100000 + (1 # 2) - (1 # 2) ); [|lra].
      assert (Hz : inject_Z c < inject_Z 100001).
      { change (inject_Z 100001) with 100001. lra. }
      rewrite <- Zlt_Qlt in Hz.
      assert (Hz' : (c <= 100000)%Z) by lia.
      rewrite Zle_Qle in Hz'. lra.
    - assert (Hq2 : amount / unitOf Billions <= inject_Z (10 ^ 20)).
      { unfold unitOf in *.
        change (inject_Z (10 ^ 29)) with (1000000000 * inject_Z (10 ^ 20)) in Hbig.
        lra. }
      destruct (@Hfix (amount / unitOf Billions) (inject_Z (10 ^ 20)) Hq1 Hq2)
        as (c & Hc & H100 & Hup & Hn); [apply Qle_refl | exact R20 |].
      exists c. split; [exact Hc|]. split; [exact H100|]. split; [|exact Hn].
      intros H. now elim H. }
  unfold formatCurrency.
  destruct (Qle_bool 1000000000 amount) eqn:Hb.
  - apply Qle_bool_iff in Hb. apply (Hscaled Billions); [exact Hb|].
    intros H. now elim H.
  - apply Qle_bool_false in Hb.
    destruct (Qle_bool 1000000 amount) eqn:Hm.
    + apply Qle_bool_iff in Hm. apply (Hscaled Millions); [exact Hm|].
      intros _. simpl. lra.
    + apply Qle_bool_false in Hm.
      destruct (Qle_bool 1000 amount) eqn:Hk.
      * apply Qle_bool_iff in Hk. apply (Hscaled Thousands); [exact Hk|].
        intros _. simpl. lra.
      * apply Qle_bool_false in Hk. split; [exact Hk|].
        intros H0.
        exists (Qfloor (amount * inject_Z (10 ^ 2) + (1 # 2))).
        split.
        { apply toFixed_nonneg; [exact H0|].
          apply Qlt_trans with 1000; [exact Hk | reflexivity]. }
        change (inject_Z (10 ^ 2)) with 100.
        destruct (floor_spec (amount * 100 + (1 # 2))) as [F1 F2].
        split; [|split; lra].
        assert (Hbnd : (0 <= Qfloor (amount * 100 + (1 # 2)) < 100001)%Z).
        { apply floor_between;
            [change (inject_Z 0) with 0 | change (inject_Z 100001) with 100001];
            lra. }
        lia.
Qed.

(** 1005 prints 1.00K (the quotient is the double just under 1.005),
    999999 prints 1000.00K, 999.999 prints 1000.00, a small negative
    amount prints -0.00. *)
Example formatCurrency_samples :
  formatCurrency 1005 = Scaled (Fixed false 100) Thousands
  /\ formatCurrency 999999 = Scaled (Fixed false 100000) Thousands
  /\ formatCurrency (round (999999 # 1000)) = Plain (Fixed false 100000)
  /\ formatCurrency (round (- (1 # 1000))) = Plain (Fixed true 0)
  /\ formatCurrency 1234567890 = Scaled (Fixed false 123) Billions.
Proof. vm_compute. repeat split; reflexivity. Qed.

End CurrencyExtras.


(* ------------------------------------------------------------------ *)
(** ** The place of a saved entry                                       *)
(* ------------------------------------------------------------------ *)

Module PlaceFacts.
Import DatabaseManager Spec Vocabulary UpsertFacts.

Ltac dates :=
  repeat match goal with
         | H : (_ <? _)%Z = true |- _ => apply Z.ltb_lt in H
         | H : (_ <? _)%Z = false |- _ => apply Z.ltb_ge in H
         end.

Lemma insert_placeLast x t s :
  insertByDate x (placeLast t s) = placeLast t (insertByDate x s).
Proof.
  induction s as [|y s IH]; simpl.
  - destruct (MigratedToken.migrationDate x <? MigratedToken.migrationDate t)%Z
      eqn:Hxt; simpl; rewrite ?Hxt; reflexivity.
  - destruct (MigratedToken.migrationDate y <? MigratedToken.migrationDate t)%Z
      eqn:Hyt;
    destruct (MigratedToken.migrationDate x <? MigratedToken.migrationDate y)%Z
      eqn:Hxy; simpl; rewrite ?Hyt, ?Hxy.
    + assert (Hxt : (MigratedToken.migrationDate x <? MigratedToken.migrationDate t)%Z
                    = true) by (dates; apply Z.ltb_lt; lia).
      rewrite Hxt. simpl. rewrite ?Hxy, ?Hyt. reflexivity.
    + destruct (MigratedToken.migrationDate x <? MigratedToken.migrationDate t)%Z
        eqn:Hxt; simpl; rewrite ?Hxy, ?Hxt, ?Hyt; reflexivity.
    + now rewrite IH.
    + assert (Hxt : (MigratedToken.migrationDate x <? MigratedToken.migrationDate t)%Z
                    = false) by (dates; apply Z.ltb_ge; lia).
      rewrite ?Hxt, ?Hyt. simpl. rewrite ?Hxt, ?Hyt. reflexivity.
Qed.

Lemma sort_app_last l t :
  sortByDate (l ++ [t]) = placeLast t (sortByDate l).
Proof.
  induction l as [|x l IH]; simpl; [reflexivity|].
  now rewrite IH, insert_placeLast.
Qed.

Lemma insert_head x s :
  newestFirst (x :: s) -> insertByDate x s = x :: s.
Proof.
  intros H. inversion H as [|? ? _ Hx]; subst.
  destruct s as [|y s]; simpl; [reflexivity|].
  inversion Hx as [|? ? Hy _]; subst.
  apply Z.ltb_ge in Hy. now rewrite Hy.
Qed.

Lemma sort_sorted s : newestFirst s -> sortByDate s = s.
Proof.
  induction s as [|x s IH]; simpl; intros H; [reflexivity|].
  inversion H as [|? ? Hs _]; subst.
  rewrite IH by exact Hs. now apply insert_head.
Qed.

Lemma filter_sorted (f : MigratedToken.t -> bool) s :
  newestFirst s -> newestFirst (filter f s).
Proof.
  unfold newestFirst. induction 1 as [|x s Hs IH Hx]; simpl; [constructor|].
  destruct (f x); [|exact IH].
  constructor; [exact IH|].
  rewrite Forall_forall in *. intros y Hy. apply Hx.
  apply filter_In in Hy. tauto.
Qed.

Lemma filter_placeLast_out (f : MigratedToken.t -> bool) t s :
  f t = false -> filter f (placeLast t s) = filter f s.
Proof.
  intros Hf. induction s as [|y s IH]; simpl; [now rewrite Hf|].
  destruct (MigratedToken.migrationDate y <? MigratedToken.migrationDate t)%Z;
    simpl; rewrite ?Hf, ?IH; reflexivity.
Qed.

Lemma upsert_place t ms :
  upsert t ms = placeLast t (sortByDate (others t ms)).
Proof. unfold upsert. apply sort_app_last. Qed.

Lemma upsert_twice t ms : upsert t (upsert t ms) = upsert t ms.
Proof.
  rewrite (upsert_place t (upsert t ms)), (upsert_place t ms).
  f_equal.
  assert (Hout : negb (MigratedToken.id t =? MigratedToken.id t)%string = false)
    by (now rewrite String.eqb_refl).
  unfold others at 1. rewrite filter_placeLast_out by exact Hout.
  fold (others t (sortByDate (others t ms))).
  assert (Hall : others t (sortByDate (others t ms))
                 = sortByDate (others t ms)).
  { unfold others at 1. apply CycleMoreFacts.filter_all. intros x Hin.
    apply (Permutation_in _ (sortByDate_perm _)) in Hin.
    unfold others in Hin. apply filter_In in Hin. tauto. }
  rewrite Hall. apply sort_sorted. apply sortByDate_sorted.
Qed.

End PlaceFacts.

Module MoreLedgerExtras.
Import JS DatabaseManager BagsFmBot Spec Vocabulary Samples.
Import IdentityFacts UpsertFacts StoreFacts CycleFacts CycleMoreFacts PlaceFacts.

(** X15 (where a saved entry goes, and saving twice).  After
    [saveMigration] of a token on a store that holds a ledger, the
    ledger is the entries with another id, sorted, with the token placed
    behind every entry at least as new and before the first older one;
    on a ledger already sorted newest first the other entries keep their
    places.  On every store, saving the same token again leaves exactly
    the same ledger; on one without a ledger each save throws and
    changes nothing. *)
Theorem saveMigration_places_and_is_idempotent t w :
  (holdsLedger w ->
   ledger (fst (saveMigration t w))
   = placeLast t (sortByDate (others t (ledger w)))
   /\ (newestFirst (ledger w) ->
       ledger (fst (saveMigration t w)) = placeLast t (others t (ledger w))))
  /\ ledger (fst (saveMigration t (fst (saveMigration t w))))
     = ledger (fst (saveMigration t w))
  /\ (~ holdsLedger w -> saveMigration t w = (w, Thrown)).
Proof.
  split; [|split].
  - intros Hh. rewrite !(saveMigration_ledger t Hh).
    split; [apply upsert_place|].
    intros Hs. rewrite upsert_place. f_equal.
    apply sort_sorted. now apply filter_sorted.
  - destruct (holdsLedger_dec w) as [Hh | Hn].
    + rewrite (saveMigration_ledger t (proj2 (saveMigration_holds t w) Hh)).
      rewrite !(saveMigration_ledger t Hh). apply upsert_twice.
    + rewrite (saveMigration_malformed t Hn). simpl.
      now rewrite (saveMigration_malformed t Hn).
  - apply saveMigration_malformed.
Qed.

Lemma saveMigration_places_and_is_idempotent_witness :
  let w := fst (@checkForNewMigrations asciiFolding [doge; pepe] started) in
  ledger (fst (saveMigration dogeShouted w))
  = placeLast dogeShouted (others dogeShouted (ledger w))
  /\ ledger (fst (saveMigration dogeShouted w)) = [pepe; dogeShouted; doge].
Proof.
  cbv zeta. split; [|reflexivity].
  apply (proj2 (proj1 (@saveMigration_places_and_is_idempotent dogeShouted
                         (fst (@checkForNewMigrations asciiFolding
                                 [doge; pepe] started)))
                      (ex_intro _ _ eq_refl))).
  vm_compute. repeat constructor; discriminate.
Defined.

(** X16 (every fetched token is accounted for).  After a cycle that ran
    to its end, every fetched token is answered for by an entry the
    ledger held before the cycle or by a token the cycle sent; so on an
    empty ledger, as [clearDatabase] leaves it, every fetched token is
    sent or is a duplicate of one that is sent, and a non-empty fetch
    sends something. *)
Theorem every_fetched_token_is_accounted_for {host : CaseMapping}
        launches w w1 sent :
  checkLoop launches [] w = (w1, Returned sent) ->
  (forall t, In t launches ->
             (exists e, In e (ledger w) /\ answersFor e t)
             \/ (exists s, In s sent /\ answersFor s t))
  /\ (ledger w = [] ->
      (forall t, In t launches -> exists s, In s sent /\ answersFor s t)
      /\ (launches <> [] -> sent <> [])).
Proof.
  intros Hrun.
  assert (Hall : forall t, In t launches ->
                   (exists e, In e (ledger w) /\ answersFor e t)
                   \/ (exists s, In s sent /\ answersFor s t)).
  { intros t Hin.
    pose proof (checkLoop_all_known launches [] w Hrun t Hin) as Hk.
    destruct (checkLoop_new _ _ _ Hrun) as (new & Hp & _ & Hs & _).
    specialize (Hs sent eq_refl). simpl in Hs. subst new.
    apply existsByDetails_hits in Hk. unfold hits, answersFor in *.
    assert (Hex : exists e, In e (ledger w1)
                            /\ (tier1 t e \/ tier2 t e \/ tier3 t e)).
    { destruct Hk as [(e & He & H) | [(e & He & H) | (e & He & H)]];
        exists e; tauto. }
    destruct Hex as (e & He & Hans).
    apply (Permutation_in _ Hp) in He. apply in_app_or in He.
    destruct He as [He | He]; [left | right]; eauto. }
  split; [exact Hall|].
  intros Hempty. split.
  - intros t Hin. destruct (Hall t Hin) as [(e & He & _) | H]; [|exact H].
    rewrite Hempty in He. destruct He.
  - intros Hne Hsent. destruct launches as [|t rest]; [now elim Hne|].
    destruct (Hall t (or_introl eq_refl)) as [(e & He & _) | (s & Hs & _)].
    + rewrite Hempty in He. destruct He.
    + rewrite Hsent in Hs. destruct Hs.
Qed.

Lemma every_fetched_token_is_accounted_for_witness :
  let launches := [doge; dogeShouted; pepe; dogeClone] in
  (forall t, In t launches ->
             (exists e, In e (ledger started) /\ @answersFor asciiFolding e t)
             \/ (exists s, In s [doge; pepe] /\ @answersFor asciiFolding s t))
  /\ (ledger started = [] ->
      (forall t, In t launches ->
                 exists s, In s [doge; pepe] /\ @answersFor asciiFolding s t)
      /\ (launches <> [] -> [doge; pepe] <> [])).
Proof.
  cbv zeta.
  apply (@every_fetched_token_is_accounted_for asciiFolding
           [doge; dogeShouted; pepe; dogeClone] started
           (fst (@checkForNewMigrations asciiFolding
                   [doge; dogeShouted; pepe; dogeClone] started))).
  vm_compute. reflexivity.
Defined.

End MoreLedgerExtras.


Module DurabilityExtras.
Import JS DatabaseManager BagsFmBot Spec Vocabulary Samples.
Import StoreFacts CycleFacts CycleMoreFacts.

(** X18 (what a write leaves on disk).  When [saveMigration] or
    [clearDatabase] returns, the disk holds the new state and a new
    process loads exactly it.  When it throws, one of three: the disk is
    left as it was, and a new process on a disk that held the previous
    ledger loads that previous ledger (the token saved, or the reset, is
    forgotten); or the file was truncated before the write failed and is
    no JSON any more, and every later start on that file, whatever the
    disk then allows, begins with an empty ledger (the whole history is
    lost and every token of the feed counts as new again); or the text
    was written before the failure, and a new process loads the new
    state. *)
Theorem write_returns_keeps_or_tears call w w' r :
  (exists t, call = SaveMigration t) \/ call = ClearDatabase ->
  perform call w = (w', r) ->
  (r = Returned tt ->
   holdsLedger w'
   /\ forall clk n,
       initialize (create (disk w') clk n)
       = (mkWorld (data w') (disk w') clk (S n), Returned tt))
  /\ (r = Thrown ->
      (disk w' = disk w
       /\ (persisted w -> holdsLedger w ->
           forall clk n,
             initialize (create (disk w') clk n)
             = (mkWorld (data w) (disk w) clk (S n), Returned tt)))
      \/ (writeFailure (disk w) = AfterOpen
          /\ file (disk w') = Some Unparsable
          /\ forall fs clk n,
              file fs = file (disk w') ->
              ledger (fst (initialize (create fs clk n))) = [])
      \/ (writeFailure (disk w) = AtClose
          /\ holdsLedger w'
          /\ forall clk n,
              initialize (create (disk w') clk n)
              = (mkWorld (data w') (disk w') clk (S n), Returned tt))).
Proof.
  intros Hcall Hrun.
  assert (Hsave : (w' = w /\ r = Thrown)
                  \/ exists w0, disk w0 = disk w /\ holdsLedger w0
                                /\ saveData w0 = (w', r)).
  { destruct Hcall as [(t & ->) | ->]; simpl in Hrun.
    - destruct (holdsLedger_dec w) as [[d Hd] | Hn].
      + rewrite (saveMigration_run t w Hd) in Hrun. right.
        eexists. split; [|split; [|exact Hrun]]; [reflexivity|].
        eexists. reflexivity.
      + rewrite (saveMigration_malformed t Hn) in Hrun.
        inversion Hrun. now left.
    - rewrite clearDatabase_run in Hrun. right.
      eexists. split; [|split; [|exact Hrun]]; [reflexivity|].
      eexists. reflexivity. }
  assert (Hsame : disk w' = disk w ->
            disk w' = disk w
            /\ (persisted w -> holdsLedger w ->
                forall clk n,
                  initialize (create (disk w') clk n)
                  = (mkWorld (data w) (disk w) clk (S n), Returned tt))).
  { intros Hd. split; [exact Hd|]. intros Hp Hh clk n. rewrite Hd.
    apply restart_loads; auto. }
  destruct Hsave as [[-> ->] | (w0 & Hdisk & Hh0 & Hsd)].
  - split; [discriminate|]. intros _. left. now apply Hsame.
  - assert (Hh : holdsLedger w').
    { pose proof (proj2 (saveData_holds w0) Hh0) as H.
      now rewrite Hsd in H. }
    split.
    + intros ->.
      split; [exact Hh|]. intros clk n. apply restart_loads; [|now left].
      eapply saveData_persisted; eauto.
    + intros ->. apply saveData_thrown in Hsd.
      destruct Hsd as [Hd | [(Hdir & Hwf & Hd) | (Hwf & Hfl & Hdir)]].
      * left. apply Hsame. congruence.
      * right. left. split; [congruence|]. split; [now rewrite Hd|].
        intros fs clk n Hfile. apply initialize_unparsable_ledger.
        right. rewrite Hfile, Hd. reflexivity.
      * right. right. split; [congruence|]. split; [exact Hh|].
        intros clk n. apply restart_loads; [now split | now left].
Qed.

Lemma write_returns_keeps_or_tears_witness :
  let w := fst (@checkForNewMigrations asciiFolding [pepe] started) in
  ledger w = [pepe]
  /\ ledger (fst (saveMigration doge (readOnly w))) = [pepe; doge]
  /\ ledger (fst (initialize
                    (create (disk (fst (saveMigration doge (readOnly w))))
                            tick 50))) = [pepe]
  /\ ledger (fst (saveMigration doge (diskFull w))) = [pepe; doge]
  /\ (forall fs clk n,
         file fs = file (disk (fst (saveMigration doge (diskFull w)))) ->
         ledger (fst (initialize (create fs clk n))) = []).
Proof.
  cbv zeta. split; [reflexivity|]. split; [reflexivity|].
  split; [reflexivity|]. split; [reflexivity|].
  destruct (proj2 (@write_returns_keeps_or_tears
                     (SaveMigration doge)
                     (diskFull (fst (@checkForNewMigrations asciiFolding
                                       [pepe] started)))
                     _ Thrown (or_introl (ex_intro _ doge eq_refl)) eq_refl)
                  eq_refl)
    as [[Hd _] | [(_ & _ & Hlost) | (Hwf & _)]].
  - discriminate Hd.
  - exact Hlost.
  - discriminate Hwf.
Defined.

End DurabilityExtras.

(* ------------------------------------------------------------------ *)
(** ** Hosts, and stores without a ledger                               *)
(* ------------------------------------------------------------------ *)

Module HostFacts.
Import JS DatabaseManager BagsFmBot Spec Vocabulary.
Import UpsertFacts StoreFacts CycleFacts.



Section TwoHosts.
Variables h1 h2 : CaseMapping.







End TwoHosts.

End HostFacts.

Module HostExtras.
Import JS DatabaseManager BagsFmBot Spec Vocabulary Samples.
Import StoreFacts CycleFacts QueryFacts HostFacts.



(** Outside ASCII the host decides: [Café] after [CAFÉ] is a duplicate
    on a host that folds the Latin-1 letters, and a new token on one
    that folds A-Z only. *)
Example accented_names_depend_on_the_host :
  @existsByDetails latin1Folding cafe [cafeShouted] = true
  /\ @existsByDetails asciiFolding cafe [cafeShouted] = false
  /\ snd (@checkForNewMigrations latin1Folding [cafeShouted; cafe] started)
     = [cafeShouted]
  /\ snd (@checkForNewMigrations asciiFolding [cafeShouted; cafe] started)
     = [cafeShouted; cafe].
Proof. vm_compute. repeat split; reflexivity. Qed.

(** X20 (a store without a ledger is inert).  When [this.data] holds no
    [migrations] array, as [initialize] leaves it after a malformed
    file: [saveMigration] throws on every token and touches nothing;
    the look-ups answer [false], [getRecentMigrations] the empty list
    and [getStats] zeros, none of them throwing; every check cycle
    leaves the store as it is and sends nothing; and [clearDatabase]
    (the [/clear] command) puts an empty ledger in memory. *)
Theorem store_without_ledger_is_inert w :
  ~ holdsLedger w ->
  (forall t, saveMigration t w = (w, Thrown))
  /\ (forall (host : CaseMapping) t,
         migrationExistsByDetails t w = (w, Returned false))
  /\ (forall id, migrationExists id w = (w, Returned false))
  /\ (forall limit, getRecentMigrations limit w = (w, Returned []))
  /\ (forall cal, snd (Stats.getStats cal w)
                  = Returned (Stats.mkCounts 0 0 0)
                  /\ data (fst (Stats.getStats cal w)) = data w
                  /\ disk (fst (Stats.getStats cal w)) = disk w)
  /\ (forall (host : CaseMapping) launches,
         checkForNewMigrations launches w = (w, []))
  /\ holdsLedger (fst (clearDatabase w))
  /\ ledger (fst (clearDatabase w)) = [].
Proof.
  intros Hn. pose proof (not_holdsLedger_ledger Hn) as Hl.
  split; [intros t; now apply saveMigration_malformed|].
  split.
  { intros host t. rewrite migrationExistsByDetails_run, Hl.
    now rewrite IdentityFacts.existsByDetails_nil. }
  split; [intros id; now rewrite migrationExists_run, Hl|].
  split.
  { intros limit. rewrite getRecentMigrations_run, Hl.
    now rewrite firstn_nil. }
  split; [intros cal; now apply getStats_malformed|].
  split; [intros host launches; now apply cycle_malformed|].
  apply clearDatabase_ledger.
Qed.

Lemma store_without_ledger_is_inert_witness :
  let w := fst (initialize (create emptyObjectDisk tick 0)) in
  ~ holdsLedger w
  /\ @checkForNewMigrations asciiFolding [doge; pepe] w = (w, [])
  /\ holdsLedger (fst (clearDatabase w)).
Proof.
  cbv zeta.
  assert (Hn : ~ holdsLedger (fst (initialize (create emptyObjectDisk tick 0)))).
  { intros [d Hd]. discriminate Hd. }
  split; [exact Hn|].
  destruct (store_without_ledger_is_inert Hn)
    as (_ & _ & _ & _ & _ & Hcycle & Hclear & _).
  split; [apply Hcycle | exact Hclear].
Defined.

End HostExtras.
